(** * enchant-windows-provider: the COM thread dispatcher and its registry

    A shallow embedding of [src/windows_provider.cpp].

    - [Module Dispatcher] embeds [CoThreadDispatcher]: the worker thread
      ([threadProc]), the callers of [dispatch] and of the destructor, as an
      interleaving semantics with one deterministic step function per thread.
    - [Module Registry] embeds the process-wide reference count
      ([com_dispatcher_addref], [com_dispatcher_release]).
    - [Module Provider] embeds the Enchant entry points that are dispatched
      on the worker thread.
    - [Module Memory] and [Module UserDictionary] embed the entry points
      that free what was handed out and that change the user's
      dictionaries.
    - [Module Interleaving] has the states a dispatcher reaches with any
      number of threads inside it; [Module Session] and [Module Client]
      one thread making call after call; [Module Ledger] the registry from
      the start of the process.

    Library semantics assumed for the C++ runtime: [std::mutex] gives mutual
    exclusion and no fairness; [std::condition_variable::wait] releases the
    mutex and blocks in one atomic step, is woken only by a [notify_all]
    issued while it is blocked (spurious wake-ups are left out, so every
    execution of the model is an execution of the code) and must take the
    mutex again before it returns; [std::packaged_task] stores the value or
    the exception of its callable in the shared state read by the future.
    A null pointer dereferenced inside a callable ends the process, and a
    C++ exception cannot leave an entry point towards Enchant: an entry
    point does not return in these cases ([Provider.c_entry]). *)

From stdpp Require Import base option list strings.
From Stdlib Require Import ZArith Lia.

Local Open Scope Z_scope.

(** What a callable handed to [dispatch] produces: a value, nothing (a
    callable of result type [void]), or an exception. *)
Inductive outcome (T : Type) : Type :=
  | Returned (v : T)
  | ReturnedVoid
  | Raised (e : string).
Arguments Returned {T} v.
Arguments ReturnedVoid {T}.
Arguments Raised {T} e.

Module Dispatcher.

(** The threads that touch one dispatcher: its worker thread and the
    threads that are inside a call of [dispatch] or of the destructor,
    numbered in the order the calls were issued. *)
Inductive actor : Type :=
  | Worker
  | Caller (i : nat).

(** Program points of [threadProc] (lines 100-116). *)
Inductive worker_pc : Type :=
  | WEntry       (* spawned; about to lock processing_mutex (line 102) *)
  | WInit        (* lock held; about to run CoInitializer and set running (105-107) *)
  | WLoop        (* lock held; about to test while (running) (109) *)
  | WWaiting     (* blocked inside dispatch_begin.wait, lock released (112) *)
  | WNotified    (* woken by notify_all; must take the lock to leave wait (112) *)
  | WCall        (* lock held; about to call dispatched_function() (114) *)
  | WTeardown    (* loop left; about to run the destructor of comInit (116) *)
  | WUnlock      (* about to run the destructor of lock and return (116) *)
  | WExited      (* threadProc has returned *)
  | WTerminated. (* an exception escaped threadProc: std::terminate *)

(** Program points of a thread inside [dispatch] (lines 76-97); [CJoin] is
    the [dispatch_thread.join()] of the destructor (line 70). *)
Inductive caller_pc : Type :=
  | CLock        (* task and future built; about to lock (86) *)
  | CStore       (* lock held; about to assign dispatched_function (87) *)
  | CNotify      (* lock held; about to notify_all (90) *)
  | CUnlock      (* about to leave the locked block (91) *)
  | CWait        (* result.wait(); result.get() (94-96) *)
  | CJoin        (* destructor only: dispatch_thread.join() (70) *)
  | CDone.       (* the call has returned *)

(** Observable events, in the order they happen. *)
Inductive event : Type :=
  | EvCoInitializeEx (ok : bool)
  | EvInvoke (i : nat)          (* the worker ran the task of caller i *)
  | EvCoUninitialize
  | EvThreadExit
  | EvJoin (i : nat).           (* join returned in caller i *)

Section Model.
Context {E T : Type}.

(** The two entries into the dispatcher: [dispatch(f)] for a callable [f]
    acting on the state [E] the worker owns, and [~CoThreadDispatcher()],
    which dispatches [[&]() { running = false; }] and then joins. *)
Inductive call : Type :=
  | CallDispatch (f : E → E * outcome T)
  | CallDestructor.

(** The packaged task of a call, as a transformer of [running] and [E]. A
    client callable cannot reach the private member [running]; an exception
    it throws is caught by the packaged task and becomes its outcome. *)
Definition task_of (k : call) (r : bool) (e : E) : bool * E * outcome T :=
  match k with
  | CallDispatch f => let '(e', o) := f e in (r, e', o)
  | CallDestructor => (false, e, ReturnedVoid)
  end.

(** Where a call continues once its future is ready. *)
Definition after_get (k : call) : caller_pc :=
  match k with
  | CallDispatch _ => CDone
  | CallDestructor => CJoin
  end.

Record caller : Type := {
  c_call : call;
  c_pc : caller_pc;
  c_future : option (outcome T);   (* shared state of task / result *)
  c_ret : option (outcome T)       (* what dispatch returned or rethrew *)
}.

Record dispatcher : Type := {
  running : bool;
  processing_mutex : option actor;        (* the owner, if locked *)
  dispatched_function : option nat;       (* empty, or [&task]{ task(); } of caller i *)
  dispatch_thread : worker_pc;
  CoInitializeEx_ok : bool;               (* what CoInitializeEx answers on this thread *)
  callers : list caller;
  trace : list event
}.

Definition system : Type := E * dispatcher.

(** Field updates. *)
Definition set_running (b : bool) (d : dispatcher) : dispatcher :=
  {| running := b; processing_mutex := processing_mutex d;
     dispatched_function := dispatched_function d;
     dispatch_thread := dispatch_thread d;
     CoInitializeEx_ok := CoInitializeEx_ok d;
     callers := callers d; trace := trace d |}.

Definition set_mutex (m : option actor) (d : dispatcher) : dispatcher :=
  {| running := running d; processing_mutex := m;
     dispatched_function := dispatched_function d;
     dispatch_thread := dispatch_thread d;
     CoInitializeEx_ok := CoInitializeEx_ok d;
     callers := callers d; trace := trace d |}.

Definition set_function (f : option nat) (d : dispatcher) : dispatcher :=
  {| running := running d; processing_mutex := processing_mutex d;
     dispatched_function := f;
     dispatch_thread := dispatch_thread d;
     CoInitializeEx_ok := CoInitializeEx_ok d;
     callers := callers d; trace := trace d |}.

Definition set_thread (w : worker_pc) (d : dispatcher) : dispatcher :=
  {| running := running d; processing_mutex := processing_mutex d;
     dispatched_function := dispatched_function d;
     dispatch_thread := w;
     CoInitializeEx_ok := CoInitializeEx_ok d;
     callers := callers d; trace := trace d |}.

Definition set_callers (cs : list caller) (d : dispatcher) : dispatcher :=
  {| running := running d; processing_mutex := processing_mutex d;
     dispatched_function := dispatched_function d;
     dispatch_thread := dispatch_thread d;
     CoInitializeEx_ok := CoInitializeEx_ok d;
     callers := cs; trace := trace d |}.

Definition log (evs : list event) (d : dispatcher) : dispatcher :=
  {| running := running d; processing_mutex := processing_mutex d;
     dispatched_function := dispatched_function d;
     dispatch_thread := dispatch_thread d;
     CoInitializeEx_ok := CoInitializeEx_ok d;
     callers := callers d; trace := trace d ++ evs |}.

Definition set_pc (pc : caller_pc) (c : caller) : caller :=
  {| c_call := c_call c; c_pc := pc; c_future := c_future c; c_ret := c_ret c |}.

Definition set_future (o : outcome T) (c : caller) : caller :=
  {| c_call := c_call c; c_pc := c_pc c; c_future := Some o; c_ret := c_ret c |}.

Definition set_ret (o : outcome T) (c : caller) : caller :=
  {| c_call := c_call c; c_pc := c_pc c; c_future := c_future c; c_ret := Some o |}.

Definition put_caller (i : nat) (c : caller) (d : dispatcher) : dispatcher :=
  set_callers (<[i := c]> (callers d)) d.

(** [CoThreadDispatcher()] (lines 63-66): [running(false)], the other
    members default-constructed, the thread spawned at [threadProc]. *)
Definition CoThreadDispatcher_new (hr_ok : bool) : dispatcher :=
  {| running := false; processing_mutex := None;
     dispatched_function := None; dispatch_thread := WEntry;
     CoInitializeEx_ok := hr_ok; callers := []; trace := [] |}.

(** A thread enters [dispatch] or the destructor: lines 81-82 build the
    packaged task and its future on the caller's stack. *)
Definition new_caller (k : call) : caller :=
  {| c_call := k; c_pc := CLock; c_future := None; c_ret := None |}.

Definition submit (k : call) (d : dispatcher) : dispatcher :=
  set_callers (callers d ++ [new_caller k]) d.

(** The events of [~CoInitializer()] (lines 45-49). *)
Definition CoInitializer_dtor (d : dispatcher) : list event :=
  if CoInitializeEx_ok d then [EvCoUninitialize] else [].

(** One step of [threadProc]. *)
Definition worker_step (s : system) : option system :=
  let '(e, d) := s in
  match dispatch_thread d with
  | WEntry =>
      match processing_mutex d with
      | None => Some (e, set_thread WInit (set_mutex (Some Worker) d))
      | Some _ => None
      end
  | WInit =>
      Some (e, set_thread WLoop
                 (set_running true (log [EvCoInitializeEx (CoInitializeEx_ok d)] d)))
  | WLoop =>
      if running d
      then Some (e, set_thread WWaiting (set_mutex None d))
      else Some (e, set_thread WTeardown d)
  | WWaiting => None
  | WNotified =>
      match processing_mutex d with
      | None => Some (e, set_thread WCall (set_mutex (Some Worker) d))
      | Some _ => None
      end
  | WCall =>
      match dispatched_function d with
      | None => Some (e, set_thread WTerminated d)       (* std::bad_function_call *)
      | Some i =>
          match callers d !! i with
          | Some c =>
              match c_pc c, c_future c with
              | CDone, _ => Some (e, set_thread WTerminated d)    (* task is gone *)
              | _, Some _ => Some (e, set_thread WTerminated d)   (* std::future_error *)
              | _, None =>
                  let '(r, e', o) := task_of (c_call c) (running d) e in
                  Some (e', set_thread WLoop
                              (set_running r
                                 (log [EvInvoke i] (put_caller i (set_future o c) d))))
              end
          | None => Some (e, set_thread WTerminated d)
          end
      end
  | WTeardown => Some (e, set_thread WUnlock (log (CoInitializer_dtor d) d))
  | WUnlock => Some (e, set_thread WExited (log [EvThreadExit] (set_mutex None d)))
  | WExited => None
  | WTerminated => None
  end.

(** One step of caller [i], whose record is [c]. *)
Definition caller_step (i : nat) (c : caller) (s : system) : option system :=
  let '(e, d) := s in
  match c_pc c with
  | CLock =>
      match processing_mutex d with
      | None => Some (e, put_caller i (set_pc CStore c) (set_mutex (Some (Caller i)) d))
      | Some _ => None
      end
  | CStore => Some (e, put_caller i (set_pc CNotify c) (set_function (Some i) d))
  | CNotify =>
      let w := match dispatch_thread d with WWaiting => WNotified | w => w end in
      Some (e, put_caller i (set_pc CUnlock c) (set_thread w d))
  | CUnlock => Some (e, put_caller i (set_pc CWait c) (set_mutex None d))
  | CWait =>
      match c_future c with
      | Some o => Some (e, put_caller i (set_pc (after_get (c_call c)) (set_ret o c)) d)
      | None => None
      end
  | CJoin =>
      match dispatch_thread d with
      | WExited => Some (e, log [EvJoin i] (put_caller i (set_pc CDone c) d))
      | _ => None
      end
  | CDone => None
  end.

(** One step of the system by the given thread; [None] when that thread
    is blocked or has finished. After [std::terminate] nothing runs. *)
Definition step (a : actor) (s : system) : option system :=
  match dispatch_thread (snd s) with
  | WTerminated => None
  | _ =>
      match a with
      | Worker => worker_step s
      | Caller i =>
          match callers (snd s) !! i with
          | Some c => caller_step i c s
          | None => None
          end
      end
  end.

(** An execution: each scheduled thread takes one enabled step. *)
Fixpoint run (sch : list actor) (s : system) : option system :=
  match sch with
  | [] => Some s
  | a :: sch' =>
      match step a s with
      | Some s' => run sch' s'
      | None => None
      end
  end.

(** No thread can move: every call has returned, or the system hangs. *)
Definition stuck (s : system) : Prop := ∀ a, step a s = None.

Definition call_done (c : caller) : Prop := c_pc c = CDone.

(** What call [i] returned to its thread, if it has returned. *)
Definition returned (i : nat) (s : system) : option (outcome T) :=
  match callers (snd s) !! i with
  | Some c => match c_pc c with CDone => c_ret c | _ => None end
  | None => None
  end.

(** The worker is inside the loop of [threadProc]: it has neither left it
    nor been terminated. *)
Definition in_loop (w : worker_pc) : bool :=
  match w with
  | WLoop | WWaiting | WNotified | WCall => true
  | _ => false
  end.

(** The dispatcher between calls: the worker is inside [wait], or it still
    holds the lock on its way back to [wait]; no call is in progress. *)
Definition settled (d : dispatcher) : Prop :=
  running d = true ∧
  Forall call_done (callers d) ∧
  ((dispatch_thread d = WWaiting ∧ processing_mutex d = None) ∨
   (dispatch_thread d = WLoop ∧ processing_mutex d = Some Worker)).

(** The dispatcher as a host thread finds it when it enters a call: just
    constructed, or settled. *)
Definition usable (d : dispatcher) : Prop :=
  settled d ∨ ∃ ok, d = CoThreadDispatcher_new ok.

(** Call [i] holds, in its future and in its result, outcomes of its own
    task only, and these all satisfy [P]. *)
Definition outcome_inv (P : outcome T → Prop) (i : nat) (s : system) : Prop :=
  ∀ c, callers s.2 !! i = Some c →
       (∀ o, c_future c = Some o → P o) ∧
       (∀ o, c_ret c = Some o → P o) ∧
       (∀ r e, P (task_of (c_call c) r e).2).

End Model.
End Dispatcher.

Arguments Dispatcher.call : clear implicits.
Arguments Dispatcher.caller : clear implicits.
Arguments Dispatcher.dispatcher : clear implicits.
Arguments Dispatcher.system : clear implicits.

(** 32-bit unsigned arithmetic of [uint32_t]. *)
Definition UINT32_MAX : Z := 4294967295.
Definition wrap32 (z : Z) : Z := z mod 4294967296.

Module Registry.
Import Dispatcher.

(** Whose turn it is while one thread is inside a call into the
    dispatcher: the worker thread's or the calling thread's. *)
Inductive turn : Type :=
  | WorkerTurn
  | CallerTurn.

Section Model.
Context {E T : Type}.

(** Ghost record of what the registry did, oldest first. *)
Inductive reg_event : Type :=
  | EvAddref                                   (* com_dispatcher_addref entered *)
  | EvRelease                                  (* com_dispatcher_release entered *)
  | EvConstruct                                (* make_unique<CoThreadDispatcher>() *)
  | EvDestroy (final : dispatcher E T).        (* ~CoThreadDispatcher() returned *)

(** The process: the three statics of lines 124-126, the state the worker
    thread acts on, and the scheduling decisions still to come. *)
Record world : Type := {
  com_dispatcher : option (dispatcher E T);    (* std::unique_ptr, None when null *)
  com_dispatcher_refcount : Z;                 (* uint32_t *)
  backend : E;
  coinit_ok : bool;                            (* answer of CoInitializeEx on a new thread *)
  schedule : list turn;
  history : list reg_event                     (* ghost *)
}.

Definition set_dispatcher (p : option (dispatcher E T)) (w : world) : world :=
  {| com_dispatcher := p; com_dispatcher_refcount := com_dispatcher_refcount w;
     backend := backend w; coinit_ok := coinit_ok w; schedule := schedule w;
     history := history w |}.

Definition set_refcount (n : Z) (w : world) : world :=
  {| com_dispatcher := com_dispatcher w; com_dispatcher_refcount := n;
     backend := backend w; coinit_ok := coinit_ok w; schedule := schedule w;
     history := history w |}.

Definition set_backend (e : E) (w : world) : world :=
  {| com_dispatcher := com_dispatcher w;
     com_dispatcher_refcount := com_dispatcher_refcount w;
     backend := e; coinit_ok := coinit_ok w; schedule := schedule w;
     history := history w |}.

Definition set_schedule (sch : list turn) (w : world) : world :=
  {| com_dispatcher := com_dispatcher w;
     com_dispatcher_refcount := com_dispatcher_refcount w;
     backend := backend w; coinit_ok := coinit_ok w; schedule := sch;
     history := history w |}.

Definition record (ev : reg_event) (w : world) : world :=
  {| com_dispatcher := com_dispatcher w;
     com_dispatcher_refcount := com_dispatcher_refcount w;
     backend := backend w; coinit_ok := coinit_ok w; schedule := schedule w;
     history := history w ++ [ev] |}.

(** Computations of a host thread: they change the world and return, or
    never return ([None]: the thread blocks for ever, or the behaviour is
    undefined). *)
Definition M (A : Type) : Type := world → option (A * world).

Definition ret {A} (a : A) : M A := λ w, Some (a, w).

Definition bind {A B} (m : M A) (k : A → M B) : M B :=
  λ w, match m w with
       | Some (a, w') => k a w'
       | None => None
       end.

Definition modify (f : world → world) : M unit := λ w, Some (tt, f w).

Definition actor_of (i : nat) (t : turn) : actor :=
  match t with
  | WorkerTurn => Worker
  | CallerTurn => Caller i
  end.

(** Call [i] runs against the worker under the given turns until it has
    returned; a turn given to a blocked thread passes. The turns left over
    are handed back. [None]: the call has not returned when the turns end. *)
Fixpoint await (i : nat) (sch : list turn) (s : system E T)
  : option (outcome T * system E T * list turn) :=
  match returned i s with
  | Some o => Some (o, s, sch)
  | None =>
      match sch with
      | [] => None
      | t :: sch' => await i sch' (default s (step (actor_of i t) s))
      end
  end.

(** A call [k] into the dispatcher [d] by the current host thread. *)
Definition enter (k : call E T) (d : dispatcher E T)
  : M (outcome T * dispatcher E T) :=
  λ w, match await (length (callers d)) (schedule w) (backend w, submit k d) with
       | Some (o, (e', d'), sch') =>
           Some ((o, d'), set_schedule sch' (set_backend e' w))
       | None => None
       end.

(** [com_dispatcher->dispatch(f)]. *)
Definition dispatch (f : E → E * outcome T) : M (outcome T) :=
  λ w, match com_dispatcher w with
       | None => None                          (* null pointer dereferenced *)
       | Some d =>
           bind (enter (CallDispatch f) d)
                (λ '(o, d'), bind (modify (set_dispatcher (Some d'))) (λ _, ret o)) w
       end.

(** Deleting the object a [unique_ptr] gave up: [~CoThreadDispatcher()],
    lines 67-71. *)
Definition delete_dispatcher (old : option (dispatcher E T)) : M unit :=
  match old with
  | None => ret tt
  | Some d =>
      bind (enter CallDestructor d) (λ '(_, d'), modify (record (EvDestroy d')))
  end.

(** Line 131-132: [com_dispatcher = std::make_unique<CoThreadDispatcher>()]
    when the count is 0; the move assignment deletes what was held. *)
Definition construct_if_first : M unit :=
  λ w, if com_dispatcher_refcount w =? 0
       then bind (modify (λ w, record EvConstruct
                                 (set_dispatcher
                                    (Some (CoThreadDispatcher_new (coinit_ok w))) w)))
                 (λ _, delete_dispatcher (com_dispatcher w)) w
       else ret tt w.

(** Line 133: [++com_dispatcher_refcount]. *)
Definition increment : M unit :=
  modify (λ w, set_refcount (wrap32 (com_dispatcher_refcount w + 1)) w).

(** [com_dispatcher_addref] (lines 128-134); the lock guard of line 130
    spans the body. *)
Definition com_dispatcher_addref : M unit :=
  bind (modify (record EvAddref))
       (λ _, bind construct_if_first (λ _, increment)).

(** Line 139-140: [com_dispatcher.reset()] when the count is 1. *)
Definition reset_if_last : M unit :=
  λ w, if com_dispatcher_refcount w =? 1
       then bind (modify (set_dispatcher None))
                 (λ _, delete_dispatcher (com_dispatcher w)) w
       else ret tt w.

(** Line 141: [--com_dispatcher_refcount]. *)
Definition decrement : M unit :=
  modify (λ w, set_refcount (wrap32 (com_dispatcher_refcount w - 1)) w).

(** [com_dispatcher_release] (lines 136-142); the lock guard of line 138
    spans the body. *)
Definition com_dispatcher_release : M unit :=
  bind (modify (record EvRelease))
       (λ _, bind reset_if_last (λ _, decrement)).

(** [n] rounds in which the worker and then the calling thread get a turn. *)
Fixpoint rounds (n : nat) : list turn :=
  match n with
  | O => []
  | S n' => WorkerTurn :: CallerTurn :: rounds n'
  end.

(** The same computation [n] times in a row. *)
Fixpoint repeatM (n : nat) (m : M unit) : M unit :=
  match n with
  | O => ret tt
  | S n' => bind m (λ _, repeatM n' m)
  end.

(** The process before the first acquisition. *)
Definition unused (w : world) : Prop :=
  com_dispatcher_refcount w = 0 ∧ com_dispatcher w = None.

(** The states the registry reaches when it is used as the design
    demands: a reference is released only while one is held, and no more
    than [UINT32_MAX] are held at once. *)
Inductive in_contract : world → Prop :=
  | contract_unused w : unused w → in_contract w
  | contract_addref w w' :
      in_contract w → com_dispatcher_refcount w < UINT32_MAX →
      com_dispatcher_addref w = Some (tt, w') → in_contract w'
  | contract_release w w' :
      in_contract w → 0 < com_dispatcher_refcount w →
      com_dispatcher_release w = Some (tt, w') → in_contract w'
  | contract_dispatch w f o w' :
      in_contract w → dispatch f w = Some (o, w') → in_contract w'.

(** Ghost counts read off the history. *)
Definition is_construct (ev : reg_event) : bool :=
  match ev with EvConstruct => true | _ => false end.
Definition is_addref (ev : reg_event) : bool :=
  match ev with EvAddref => true | _ => false end.
Definition is_release (ev : reg_event) : bool :=
  match ev with EvRelease => true | _ => false end.

Definition constructions (w : world) : nat :=
  length (filter (λ ev, is_construct ev = true) (history w)).
Definition addrefs (w : world) : nat :=
  length (filter (λ ev, is_addref ev = true) (history w)).
Definition releases (w : world) : nat :=
  length (filter (λ ev, is_release ev = true) (history w)).

(** The registry invariant of the design: the count is positive exactly
    when the shared dispatcher exists. *)
Definition registry_inv (w : world) : Prop :=
  0 < com_dispatcher_refcount w ↔ is_Some (com_dispatcher w).

(** Every host thread that enters a call finds the dispatcher just
    constructed or settled. *)
Definition orderly (w : world) : Prop :=
  ∀ d, com_dispatcher w = Some d → usable d.

(** The count is a [uint32_t]. *)
Definition count_in_range (w : world) : Prop :=
  0 ≤ com_dispatcher_refcount w ≤ UINT32_MAX.

End Model.
End Registry.

Arguments Registry.world : clear implicits.
Arguments Registry.M : clear implicits.
Arguments Registry.reg_event : clear implicits.

Module Provider.
Import Dispatcher Registry.

(** ** Windows and COM data *)

Definition HRESULT : Type := Z.
Definition S_OK : HRESULT := 0.
Definition S_FALSE : HRESULT := 1.
Definition FAILED (hr : HRESULT) : bool := hr <? 0.

(** Lines 146-147. *)
Definition kMaxWordLength : Z := 128.
Definition kMaxUTF8WordLengthInBytes : Z := kMaxWordLength * 4.

Definition bytes : Type := list Z.        (* char *)
Definition wstring : Type := list Z.      (* wchar_t *)

(** COM interface pointers are handles; a null [ComPtr] is [None]. *)
Definition factory : Type := nat.         (* ISpellCheckerFactory *)
Definition checker : Type := nat.         (* ISpellChecker *)

(** An [IEnumString]: for each entry, what [Next] answers and yields. *)
Definition enum_string : Type := list (HRESULT * wstring).

(** The calls made into COM and the spell checking API. *)
Inductive com_call : Type :=
  | ComCoCreateInstance
  | ComCreateSpellChecker (f : factory) (lang : wstring)
  | ComGetSupportedLanguages (f : factory)
  | ComIsSupported (f : factory) (lang : wstring)
  | ComCheck (c : checker) (word : wstring)
  | ComSuggest (c : checker) (word : wstring).

(** The state the worker thread owns: the calls made so far. *)
Definition com_world : Type := list com_call.

(** The operating system side, which is not part of the repository: what
    each API answers, given the calls made before. *)
Record com_api : Type := {
  MultiByteToWideChar : bytes → Z → wstring;
  WideCharToMultiByte : wstring → Z → bytes;
  CoCreateInstance : com_world → HRESULT * option factory;
  CreateSpellChecker : com_world → factory → wstring → HRESULT * option checker;
  get_SupportedLanguages : com_world → factory → HRESULT * enum_string;
  IsSupported : com_world → factory → wstring → bool;
  ISpellChecker_Check : com_world → checker → wstring → HRESULT * list nat;
  ISpellChecker_Suggest : com_world → checker → wstring → HRESULT * enum_string
}.

(** ** Enchant data (lines 149-157 and enchant-provider.h) *)

(** The functions of this file that are stored in the structures. *)
Inductive fn : Type :=
  | fn_windows_dict_check
  | fn_windows_dict_suggest
  | fn_windows_dict_add_to_personal
  | fn_windows_dict_store_replacement
  | fn_windows_dict_add_to_exclude
  | fn_windows_provider_dispose
  | fn_windows_provider_request_dict
  | fn_windows_provider_dispose_dict
  | fn_windows_provider_dictionary_exists
  | fn_windows_provider_identify
  | fn_windows_provider_describe
  | fn_windows_provider_list_dicts
  | fn_windows_provider_free_string_list.

Record ProviderUserData : Type := { spellCheckerFactory : option factory }.
Record DictUserData : Type := { spellChecker : option checker }.

Record EnchantProvider : Type := {
  provider_user_data : option ProviderUserData;
  dispose : option fn;
  request_dict : option fn;
  dispose_dict : option fn;
  dictionary_exists : option fn;
  identify : option fn;
  describe : option fn;
  list_dicts : option fn;
  free_string_list : option fn
}.

Record EnchantDict : Type := {
  dict_user_data : option DictUserData;
  check : option fn;
  suggest : option fn;
  add_to_personal : option fn;
  add_to_session : option fn;
  store_replacement : option fn;
  add_to_exclude : option fn
}.

(** A null-terminated vector of strings; an entry may itself be null. *)
Definition string_list : Type := list (option bytes).

(** What the dispatched callables of this file return. *)
Inductive value : Type :=
  | VInt (z : Z)
  | VStrings (l : option string_list) (n : option Z)  (* char**, and what went to the size_t* *)
  | VDict (d : option EnchantDict)
  | VProvider (p : option EnchantProvider).

(** A null pointer dereferenced inside a callable ([userdata(dict)] or
    [spellChecker] null at lines 268, 302, 328, 351 and 368,
    [userdata(provider)] null at lines 380, 427 and 447). The behaviour is
    undefined; on Windows it is an access violation on the worker thread,
    which no C++ handler catches. The callable is marked with this
    outcome, and the entry point that dispatched it does not return:
    [c_entry]. *)
Definition null_deref {A} : outcome A := Raised "access violation".

(** A dispatched call made by an entry point. The entry points are called
    by Enchant, which is C code: what goes back to it is the value the
    callable returned. When the callable ended in an access violation the
    process has ended, and an exception rethrown by [result.get()] (line
    96) has no handler in this file and cannot pass into C: in both cases
    the call does not return. *)
Definition c_entry {E T} (m : M E T (outcome T)) : M E T (outcome T) :=
  bind m (λ o, match o with
               | Raised _ => λ _, None
               | _ => ret o
               end).

Section Api.
Variable api : com_api.

(** ** String conversion (lines 169-254) *)

(** [copy_utf8_to_utf16] (lines 170-185): null above the length limit,
    otherwise the converted characters followed by a terminator. *)
Definition copy_utf8_to_utf16 (u8str : bytes) (len : Z) : option wstring :=
  if len >? kMaxUTF8WordLengthInBytes then None
  else Some (MultiByteToWideChar api u8str len ++ [0]).

(** [copy_utf16_to_utf8] (lines 188-204). *)
Definition copy_utf16_to_utf8 (u16str : wstring) (len : Z) : option bytes :=
  if len >? kMaxWordLength then None
  else Some (WideCharToMultiByte api u16str len ++ [0]).

(** [strnlen_s] and [wcsnlen_s] on a buffer: the characters before the
    first terminator, at most [maxn]. *)
Fixpoint strnlen (s : list Z) (maxn : nat) : nat :=
  match maxn, s with
  | S m, c :: s' => if c =? 0 then O else S (strnlen s' m)
  | _, _ => O
  end.

Definition strnlen_s (s : list Z) (maxn : Z) : Z :=
  Z.of_nat (strnlen s (Z.to_nat maxn)).

(** [copy_string_list_from_enumerator] (lines 208-236): the entries are
    counted, then fetched and converted one by one; a failing [Next]
    returns without storing through the two result pointers. *)
Fixpoint convert_entries (entries : enum_string) : option string_list :=
  match entries with
  | [] => Some []
  | (hr, name) :: rest =>
      if FAILED hr then None
      else
        match convert_entries rest with
        | Some l =>
            Some (copy_utf16_to_utf8 name (strnlen_s name kMaxWordLength + 1) :: l)
        | None => None
        end
  end.

Definition copy_string_list_from_enumerator (enumerator : enum_string)
  : option (string_list * Z) :=
  match convert_entries enumerator with
  | Some l => Some (l, Z.of_nat (length enumerator))
  | None => None
  end.

(** The loop of lines 245-251: every ['_'] before the first terminator
    becomes ['-']. *)
Fixpoint underscores_to_dashes (s : wstring) : wstring :=
  match s with
  | [] => []
  | c :: s' =>
      if c =? 0 then c :: s'
      else (if c =? 95 then 45 else c) :: underscores_to_dashes s'
  end.

(** [copy_from_enchant_tag_to_windows_language] (lines 239-254). The tag
    is a C string, given with its terminator. *)
Definition copy_from_enchant_tag_to_windows_language (tag : bytes) : option wstring :=
  match copy_utf8_to_utf16 tag (strnlen_s tag kMaxUTF8WordLengthInBytes + 1) with
  | None => None
  | Some langTag => Some (underscores_to_dashes langTag)
  end.

(** ** The dispatched callables *)

Definition work : Type := com_world → com_world * outcome value.

(** The callable of [windows_dict_check] (lines 262-285). *)
Definition windows_dict_check_work (dict : EnchantDict) (word : bytes) (len : Z) : work :=
  λ cw,
    match copy_utf8_to_utf16 word len with
    | None => (cw, Returned (VInt (-1)))
    | Some utf16Word =>
        match dict_user_data dict with
        | Some {| spellChecker := Some c |} =>
            let '(hr, errors) := ISpellChecker_Check api cw c utf16Word in
            let cw' := cw ++ [ComCheck c utf16Word] in
            if FAILED hr then (cw', Returned (VInt (-1)))
            else
              match errors with
              | _ :: _ => (cw', Returned (VInt 1))       (* Next answered S_OK *)
              | [] => (cw', Returned (VInt 0))
              end
        | _ => (cw, null_deref)
        end
    end.

(** The callable of [windows_dict_suggest] (lines 296-314). *)
Definition windows_dict_suggest_work (dict : EnchantDict) (word : bytes) (len : Z) : work :=
  λ cw,
    match copy_utf8_to_utf16 word len with
    | None => (cw, Returned (VStrings None None))
    | Some utf16Word =>
        match dict_user_data dict with
        | Some {| spellChecker := Some c |} =>
            let '(hr, suggestionEnumerator) := ISpellChecker_Suggest api cw c utf16Word in
            let cw' := cw ++ [ComSuggest c utf16Word] in
            if FAILED hr then (cw', Returned (VStrings None None))
            else if hr =? S_FALSE then (cw', Returned (VStrings None None))
            else
              match copy_string_list_from_enumerator suggestionEnumerator with
              | Some (l, n) => (cw', Returned (VStrings (Some l) (Some n)))
              | None => (cw', Returned (VStrings None None))
              end
        | _ => (cw, null_deref)
        end
    end.

(** The dictionary built at lines 387-393. *)
Definition new_dict (data : option DictUserData) : EnchantDict :=
  {| dict_user_data := data;
     check := Some fn_windows_dict_check;
     suggest := Some fn_windows_dict_suggest;
     add_to_personal := Some fn_windows_dict_add_to_personal;
     add_to_session := None;
     store_replacement := Some fn_windows_dict_store_replacement;
     add_to_exclude := Some fn_windows_dict_add_to_exclude |}.

(** The callable of [windows_provider_request_dict] (lines 379-404). *)
Definition windows_provider_request_dict_work (provider : EnchantProvider) (tag : bytes)
  : work :=
  λ cw,
    match provider_user_data provider with
    | None => (cw, null_deref)
    | Some {| spellCheckerFactory := None |} => (cw, Returned (VDict None))
    | Some {| spellCheckerFactory := Some f |} =>
        match copy_from_enchant_tag_to_windows_language tag with
        | None => (cw, Returned (VDict None))
        | Some wtag =>
            let '(hr, c) := CreateSpellChecker api cw f wtag in
            let cw' := cw ++ [ComCreateSpellChecker f wtag] in
            if FAILED hr then (cw', Returned (VDict None))
            else (cw', Returned (VDict (Some (new_dict (Some {| spellChecker := c |})))))
        end
    end.

(** The callable of [windows_provider_list_dicts] (lines 426-438). *)
Definition windows_provider_list_dicts_work (provider : EnchantProvider) : work :=
  λ cw,
    match provider_user_data provider with
    | None => (cw, null_deref)
    | Some {| spellCheckerFactory := None |} => (cw, Returned (VStrings None None))
    | Some {| spellCheckerFactory := Some f |} =>
        let '(hr, langEnumerator) := get_SupportedLanguages api cw f in
        let cw' := cw ++ [ComGetSupportedLanguages f] in
        if FAILED hr then (cw', Returned (VStrings None None))
        else
          match copy_string_list_from_enumerator langEnumerator with
          | Some (l, n) => (cw', Returned (VStrings (Some l) (Some n)))
          | None => (cw', Returned (VStrings None None))
          end
    end.

(** The callable of [windows_provider_dictionary_exists] (lines 446-457). *)
Definition windows_provider_dictionary_exists_work (provider : EnchantProvider)
  (tag : bytes) : work :=
  λ cw,
    match provider_user_data provider with
    | None => (cw, null_deref)
    | Some {| spellCheckerFactory := None |} => (cw, Returned (VInt (-1)))
    | Some {| spellCheckerFactory := Some f |} =>
        match copy_from_enchant_tag_to_windows_language tag with
        | None => (cw, Returned (VInt (-1)))
        | Some wtag =>
            let isSupported := IsSupported api cw f wtag in
            (cw ++ [ComIsSupported f wtag],
             Returned (VInt (if isSupported then 1 else 0)))
        end
    end.

(** The callable of [windows_provider_dispose] (lines 486-493): it frees
    the two structures and returns nothing. *)
Definition windows_provider_dispose_work (provider : EnchantProvider) : work :=
  λ cw, (cw, ReturnedVoid).

(** The provider built at lines 522-541. *)
Definition new_provider (data : option ProviderUserData) : EnchantProvider :=
  {| provider_user_data := data;
     dispose := Some fn_windows_provider_dispose;
     request_dict := Some fn_windows_provider_request_dict;
     dispose_dict := Some fn_windows_provider_dispose_dict;
     dictionary_exists := Some fn_windows_provider_dictionary_exists;
     identify := Some fn_windows_provider_identify;
     describe := Some fn_windows_provider_describe;
     list_dicts := Some fn_windows_provider_list_dicts;
     free_string_list := Some fn_windows_provider_free_string_list |}.

(** The callable of [init_enchant_provider] (lines 520-544): the result of
    [CoCreateInstance] is not looked at; on failure the factory pointer
    stays null and the provider is returned all the same. *)
Definition init_enchant_provider_work : work :=
  λ cw,
    let '(hr, f) := CoCreateInstance api cw in
    (cw ++ [ComCoCreateInstance],
     Returned (VProvider (Some (new_provider (Some {| spellCheckerFactory := f |}))))).

(** ** The entry points *)

Definition host : Type → Type := M com_world value.

Definition windows_dict_check (dict : EnchantDict) (word : bytes) (len : Z)
  : host (outcome value) :=
  c_entry (dispatch (windows_dict_check_work dict word len)).

Definition windows_dict_suggest (dict : EnchantDict) (word : bytes) (len : Z)
  : host (outcome value) :=
  c_entry (dispatch (windows_dict_suggest_work dict word len)).

Definition windows_provider_request_dict (provider : EnchantProvider) (tag : bytes)
  : host (outcome value) :=
  c_entry (dispatch (windows_provider_request_dict_work provider tag)).

Definition windows_provider_list_dicts (provider : EnchantProvider)
  : host (outcome value) :=
  c_entry (dispatch (windows_provider_list_dicts_work provider)).

Definition windows_provider_dictionary_exists (provider : EnchantProvider) (tag : bytes)
  : host (outcome value) :=
  c_entry (dispatch (windows_provider_dictionary_exists_work provider tag)).

(** [windows_provider_dispose] (lines 484-497). *)
Definition windows_provider_dispose (provider : EnchantProvider) : host unit :=
  bind (dispatch (windows_provider_dispose_work provider))
       (λ _, com_dispatcher_release).

(** Lines 515-551 for any callable creating the provider: the reference
    is taken first and given back when no provider comes out. The function
    is declared not to throw: an exception reaching it ends the process. *)
Definition init_enchant_provider_with (create : work) : host (option EnchantProvider) :=
  bind com_dispatcher_addref (λ _,
  bind (dispatch create) (λ o,
    match o with
    | Returned (VProvider None) => bind com_dispatcher_release (λ _, ret None)
    | Returned (VProvider (Some p)) => ret (Some p)
    | _ => λ _, None
    end)).

(** [init_enchant_provider] (lines 515-551). *)
Definition init_enchant_provider : host (option EnchantProvider) :=
  init_enchant_provider_with init_enchant_provider_work.

End Api.
End Provider.

(** ** One call against a settled dispatcher: the states it goes through *)

Module Sole.
Import Dispatcher.

(** How far the worker is on its way out after [running] was cleared. *)
Inductive leaving : Type :=
  | LLoop        (* at the loop test *)
  | LTeardown    (* about to run ~CoInitializer *)
  | LUnlock      (* about to unlock and return *)
  | LExited.

Inductive phase : Type :=
  | PHeld                                (* worker on its way to wait, lock held *)
  | PIdle                                (* worker inside wait *)
  | PStore
  | PNotify
  | PUnlock
  | PWake                                (* worker notified, lock free *)
  | PCall                                (* worker about to run the task *)
  | PRan (waiting : bool) (got : bool)   (* dispatch: task run *)
  | PStop (l : leaving) (joining : bool) (* destructor: running cleared *)
  | PJoined.                             (* destructor: join returned *)

Section Conf.
Context {E T : Type}.
Variables (e0 : E) (cs : list (caller E T)) (sl0 : option nat) (hr : bool)
          (tr0 : list event) (k : call E T).

Definition me : nat := length cs.

Definition mk (r : bool) (m : option actor) (sl : option nat) (w : worker_pc)
  (c : caller E T) (tr : list event) : dispatcher E T :=
  {| running := r; processing_mutex := m; dispatched_function := sl;
     dispatch_thread := w; CoInitializeEx_ok := hr;
     callers := cs ++ [c]; trace := tr |}.

Definition cl (pc : caller_pc) (fut ret : option (outcome T)) : caller E T :=
  {| c_call := k; c_pc := pc; c_future := fut; c_ret := ret |}.

(** What the task does to the state of the worker, and its outcome. *)
Definition ran : E * outcome T :=
  match k with
  | CallDispatch f => f e0
  | CallDestructor => (e0, ReturnedVoid)
  end.

Definition tr1 : list event := tr0 ++ [EvInvoke me].

Definition leaving_pc (l : leaving) : worker_pc :=
  match l with
  | LLoop => WLoop | LTeardown => WTeardown | LUnlock => WUnlock | LExited => WExited
  end.

Definition leaving_mutex (l : leaving) : option actor :=
  match l with LExited => None | _ => Some Worker end.

Definition teardown : list event := if hr then [EvCoUninitialize] else [].

Definition leaving_trace (l : leaving) : list event :=
  match l with
  | LLoop | LTeardown => tr1
  | LUnlock => tr1 ++ teardown
  | LExited => (tr1 ++ teardown) ++ [EvThreadExit]
  end.

Definition conf (p : phase) : system E T :=
  match p with
  | PHeld => (e0, mk true (Some Worker) sl0 WLoop (cl CLock None None) tr0)
  | PIdle => (e0, mk true None sl0 WWaiting (cl CLock None None) tr0)
  | PStore => (e0, mk true (Some (Caller me)) sl0 WWaiting (cl CStore None None) tr0)
  | PNotify =>
      (e0, mk true (Some (Caller me)) (Some me) WWaiting (cl CNotify None None) tr0)
  | PUnlock =>
      (e0, mk true (Some (Caller me)) (Some me) WNotified (cl CUnlock None None) tr0)
  | PWake => (e0, mk true None (Some me) WNotified (cl CWait None None) tr0)
  | PCall => (e0, mk true (Some Worker) (Some me) WCall (cl CWait None None) tr0)
  | PRan waiting got =>
      (ran.1,
       mk true (if waiting then None else Some Worker) (Some me)
          (if waiting then WWaiting else WLoop)
          (if got then cl CDone (Some ran.2) (Some ran.2)
           else cl CWait (Some ran.2) None)
          tr1)
  | PStop l joining =>
      (e0,
       mk false (leaving_mutex l) (Some me) (leaving_pc l)
          (if joining then cl CJoin (Some ReturnedVoid) (Some ReturnedVoid)
           else cl CWait (Some ReturnedVoid) None)
          (leaving_trace l))
  | PJoined =>
      (e0,
       mk false None (Some me) WExited
          (cl CDone (Some ReturnedVoid) (Some ReturnedVoid))
          (leaving_trace LExited ++ [EvJoin me]))
  end.

(** The phases a call of kind [k] can be in. *)
Definition phase_ok (p : phase) : bool :=
  match p, k with
  | PRan _ _, CallDestructor => false
  | (PStop _ _ | PJoined), CallDispatch _ => false
  | _, _ => true
  end.

(** The phase after a step of the worker ([true]) or of the caller. *)
Definition next (worker : bool) (p : phase) : option phase :=
  match worker, p with
  | true, PHeld => Some PIdle
  | true, PWake => Some PCall
  | true, PCall =>
      Some (match k with
            | CallDispatch _ => PRan false false
            | CallDestructor => PStop LLoop false
            end)
  | true, PRan false got => Some (PRan true got)
  | true, PStop LLoop j => Some (PStop LTeardown j)
  | true, PStop LTeardown j => Some (PStop LUnlock j)
  | true, PStop LUnlock j => Some (PStop LExited j)
  | false, PIdle => Some PStore
  | false, PStore => Some PNotify
  | false, PNotify => Some PUnlock
  | false, PUnlock => Some PWake
  | false, PRan w false => Some (PRan w true)
  | false, PStop l false => Some (PStop l true)
  | false, PStop LExited true => Some PJoined
  | _, _ => None
  end.

(** Steps still to be taken, at most. *)
Definition tail_rank : nat :=
  match k with CallDispatch _ => 2%nat | CallDestructor => 5%nat end.

Definition rank (p : phase) : nat :=
  match p with
  | PHeld => tail_rank + 7
  | PIdle => tail_rank + 6
  | PStore => tail_rank + 5
  | PNotify => tail_rank + 4
  | PUnlock => tail_rank + 3
  | PWake => tail_rank + 2
  | PCall => tail_rank + 1
  | PRan w g => (if w then 0 else 1) + (if g then 0 else 1)
  | PStop l j =>
      match l with LLoop => 3 | LTeardown => 2 | LUnlock => 1 | LExited => 0 end
      + (if j then 1 else 2)
  | PJoined => 0
  end%nat.

(** The call has returned. *)
Definition finished (p : phase) : bool :=
  match p with
  | PRan _ true | PJoined => true
  | _ => false
  end.

End Conf.
End Sole.

(** ** The first call against a new dispatcher: the states it goes through *)

Module Startup.
Import Dispatcher.

Inductive phase : Type :=
  | FEntry     (* worker spawned, caller about to lock *)
  | FInit      (* worker locked first *)
  | FStore     (* caller locked first *)
  | FNotify
  | FUnlock
  | FWait      (* caller unlocked, worker not yet started *)
  | FLateInit
  | FLateLoop
  | FMissed.   (* worker waits, caller waits *)

Section Conf.
Context {E T : Type}.
Variables (e0 : E) (hr : bool) (k : call E T).

Definition mk (r : bool) (m : option actor) (sl : option nat) (w : worker_pc)
  (pc : caller_pc) (tr : list event) : dispatcher E T :=
  {| running := r; processing_mutex := m; dispatched_function := sl;
     dispatch_thread := w; CoInitializeEx_ok := hr;
     callers := [{| c_call := k; c_pc := pc; c_future := None; c_ret := None |}];
     trace := tr |}.

Definition conf (p : phase) : system E T :=
  match p with
  | FEntry => (e0, mk false None None WEntry CLock [])
  | FInit => (e0, mk false (Some Worker) None WInit CLock [])
  | FStore => (e0, mk false (Some (Caller 0)) None WEntry CStore [])
  | FNotify => (e0, mk false (Some (Caller 0)) (Some 0%nat) WEntry CNotify [])
  | FUnlock => (e0, mk false (Some (Caller 0)) (Some 0%nat) WEntry CUnlock [])
  | FWait => (e0, mk false None (Some 0%nat) WEntry CWait [])
  | FLateInit => (e0, mk false (Some Worker) (Some 0%nat) WInit CWait [])
  | FLateLoop =>
      (e0, mk true (Some Worker) (Some 0%nat) WLoop CWait [EvCoInitializeEx hr])
  | FMissed => (e0, mk true None (Some 0%nat) WWaiting CWait [EvCoInitializeEx hr])
  end.

(** The phase after a turn of the worker ([true]) or of the caller; [None]
    when the worker has reached the loop with the lock held and the caller
    still about to lock, from where [Sole.PHeld] takes over. *)
Definition next (worker : bool) (p : phase) : option phase :=
  match worker, p with
  | true, FEntry => Some FInit
  | true, FInit => None
  | true, FWait => Some FLateInit
  | true, FLateInit => Some FLateLoop
  | true, FLateLoop => Some FMissed
  | false, FEntry => Some FStore
  | false, FStore => Some FNotify
  | false, FNotify => Some FUnlock
  | false, FUnlock => Some FWait
  | _, _ => Some p
  end.

(** The phases in which the notification has been missed. *)
Definition missed (p : phase) : bool :=
  match p with
  | FWait | FLateInit | FLateLoop | FMissed => true
  | _ => false
  end.

End Conf.
End Startup.

(** ** Concrete runs *)

Module Scenario.
Import Dispatcher.

Definition answer (z : Z) : unit → unit * outcome Z := λ e, (e, Returned z).
Definition throw (x : string) : unit → unit * outcome Z := λ e, (e, Raised x).

(** A dispatcher whose worker has started and is inside [wait]. *)
Definition ready {E T} : dispatcher E T :=
  {| running := true; processing_mutex := None; dispatched_function := None;
     dispatch_thread := WWaiting; CoInitializeEx_ok := true;
     callers := []; trace := [EvCoInitializeEx true] |}.

(** One call against [ready], run to the end: the caller locks, stores,
    notifies and unlocks; the worker takes the lock, runs the task and
    waits again; the caller reads its future. *)
Definition one_call : list actor :=
  [Caller 0; Caller 0; Caller 0; Caller 0; Worker; Worker; Worker; Caller 0].

Definition after_call (o : outcome Z) (f : unit → unit * outcome Z) : system unit Z :=
  (tt,
   {| running := true; processing_mutex := None; dispatched_function := Some 0%nat;
      dispatch_thread := WWaiting; CoInitializeEx_ok := true;
      callers := [{| c_call := CallDispatch f; c_pc := CDone;
                     c_future := Some o; c_ret := Some o |}];
      trace := [EvCoInitializeEx true; EvInvoke 0] |}).

(** A new dispatcher whose first two calls, [dispatch(f1)] and
    [dispatch(f2)], come from two threads at once. *)
Definition two_calls {E T} (e : E) (ok : bool) (f1 f2 : E → E * outcome T)
  : system E T :=
  (e, submit (CallDispatch f2) (submit (CallDispatch f1) (CoThreadDispatcher_new ok))).

(** The worker starts and waits; caller 0 stores its task, notifies and
    unlocks; caller 1 takes the lock before the woken worker does, stores
    its own task over it, notifies and unlocks; the worker runs the slot
    and waits again; caller 1 returns. *)
Definition overtaking : list actor :=
  [Worker; Worker; Worker;
   Caller 0; Caller 0; Caller 0; Caller 0;
   Caller 1; Caller 1; Caller 1; Caller 1;
   Worker; Worker; Worker;
   Caller 1].

Definition overtaken {E T} (e : E) (ok : bool) (f1 f2 : E → E * outcome T)
  : system E T :=
  ((f2 e).1,
   {| running := true; processing_mutex := None; dispatched_function := Some 1%nat;
      dispatch_thread := WWaiting; CoInitializeEx_ok := ok;
      callers := [{| c_call := CallDispatch f1; c_pc := CWait;
                     c_future := None; c_ret := None |};
                  {| c_call := CallDispatch f2; c_pc := CDone;
                     c_future := Some (f2 e).2; c_ret := Some (f2 e).2 |}];
      trace := [EvCoInitializeEx ok; EvInvoke 1] |}).

(** A new dispatcher and its first call, [dispatch(f)]. *)
Definition first_call {E T} (e : E) (ok : bool) (f : E → E * outcome T)
  : system E T :=
  (e, submit (CallDispatch f) (CoThreadDispatcher_new ok)).

(** The caller locks, stores, notifies and unlocks before the new thread
    has locked; then the worker starts and waits. *)
Definition caller_first : list actor :=
  [Caller 0; Caller 0; Caller 0; Caller 0; Worker; Worker; Worker].

(** The same as turns: the calling thread gets the first four. *)
Definition caller_first_turns : list Registry.turn :=
  [Registry.CallerTurn; Registry.CallerTurn; Registry.CallerTurn; Registry.CallerTurn].

(** The worker locks, initialises and waits before the caller locks. *)
Definition worker_first : list actor :=
  [Worker; Worker; Worker;
   Caller 0; Caller 0; Caller 0; Caller 0; Worker; Worker; Worker; Caller 0].

Definition never_woken {E T} (e : E) (ok : bool) (f : E → E * outcome T)
  : system E T :=
  (e,
   {| running := true; processing_mutex := None; dispatched_function := Some 0%nat;
      dispatch_thread := WWaiting; CoInitializeEx_ok := ok;
      callers := [{| c_call := CallDispatch f; c_pc := CWait;
                     c_future := None; c_ret := None |}];
      trace := [EvCoInitializeEx ok] |}).









(** A process that has not used the registry yet, with turns to come. *)
Definition fresh_world (n : nat) : Registry.world unit Z :=
  {| Registry.com_dispatcher := None; Registry.com_dispatcher_refcount := 0;
     Registry.backend := tt; Registry.coinit_ok := true;
     Registry.schedule := Registry.rounds n; Registry.history := [] |}.

(** One reference held on a settled dispatcher. *)
Definition held_world (n : nat) : Registry.world unit Z :=
  {| Registry.com_dispatcher := Some ready; Registry.com_dispatcher_refcount := 1;
     Registry.backend := tt; Registry.coinit_ok := true;
     Registry.schedule := Registry.rounds n;
     Registry.history := [Registry.EvAddref; Registry.EvConstruct] |}.

(** As many references held as the count can hold. *)
Definition full_world : Registry.world unit Z :=
  {| Registry.com_dispatcher := Some ready;
     Registry.com_dispatcher_refcount := UINT32_MAX;
     Registry.backend := tt; Registry.coinit_ok := true;
     Registry.schedule := []; Registry.history := [] |}.

(** The world a computation leaves, when it returns. *)
Definition world_after {E T A} (m : Registry.M E T A) (w : Registry.world E T)
  : Registry.world E T :=
  match m w with
  | Some (_, w') => w'
  | None => w
  end.

Definition held_world_released : Registry.world unit Z :=
  world_after Registry.com_dispatcher_release (held_world 12).

Definition fresh_world_acquired : Registry.world unit Z :=
  world_after Registry.com_dispatcher_addref (fresh_world 0).

(** An operating system on which everything succeeds and every word is
    spelled correctly, and one on which the factory cannot be created. *)
Definition sample_api : Provider.com_api :=
  {| Provider.MultiByteToWideChar := λ s len, take (Z.to_nat len) s;
     Provider.WideCharToMultiByte := λ s len, take (Z.to_nat len) s;
     Provider.CoCreateInstance := λ _, (0, Some 7%nat);
     Provider.CreateSpellChecker := λ _ _ _, (0, Some 9%nat);
     Provider.get_SupportedLanguages := λ _ _, (0, []);
     Provider.IsSupported := λ _ _ _, true;
     Provider.ISpellChecker_Check := λ _ _ _, (0, []);
     Provider.ISpellChecker_Suggest := λ _ _ _, (1, []) |}.

Definition failing_api : Provider.com_api :=
  {| Provider.MultiByteToWideChar := λ s len, take (Z.to_nat len) s;
     Provider.WideCharToMultiByte := λ s len, take (Z.to_nat len) s;
     Provider.CoCreateInstance := λ _, (-2147221164, None);
     Provider.CreateSpellChecker := λ _ _ _, (-2147467259, None);
     Provider.get_SupportedLanguages := λ _ _, (-2147467259, []);
     Provider.IsSupported := λ _ _ _, false;
     Provider.ISpellChecker_Check := λ _ _ _, (-2147467259, []);
     Provider.ISpellChecker_Suggest := λ _ _ _, (-2147467259, []) |}.

(** A host process before [init_enchant_provider]. *)
Definition host_world (n : nat) : Registry.world Provider.com_world Provider.value :=
  {| Registry.com_dispatcher := None; Registry.com_dispatcher_refcount := 0;
     Registry.backend := []; Registry.coinit_ok := true;
     Registry.schedule := Registry.rounds n; Registry.history := [] |}.

(** A host process holding one provider on a settled dispatcher. *)
Definition serving_world (n : nat) : Registry.world Provider.com_world Provider.value :=
  {| Registry.com_dispatcher := Some ready; Registry.com_dispatcher_refcount := 1;
     Registry.backend := [Provider.ComCoCreateInstance]; Registry.coinit_ok := true;
     Registry.schedule := Registry.rounds n;
     Registry.history := [Registry.EvAddref; Registry.EvConstruct] |}.

Definition sample_provider : Provider.EnchantProvider :=
  Provider.new_provider (Some {| Provider.spellCheckerFactory := Some 7%nat |}).

Definition crippled_provider : Provider.EnchantProvider :=
  Provider.new_provider (Some {| Provider.spellCheckerFactory := None |}).

Definition sample_dict : Provider.EnchantDict :=
  Provider.new_dict (Some {| Provider.spellChecker := Some 9%nat |}).

Definition host_world_inited : Registry.world Provider.com_world Provider.value :=
  world_after (Provider.init_enchant_provider sample_api) (host_world 40).

Definition host_world_disposed : Registry.world Provider.com_world Provider.value :=
  world_after (Provider.windows_provider_dispose sample_provider) host_world_inited.

(** A word of 513 bytes. *)
Definition long_word : Provider.bytes := repeat 97 513.

End Scenario.
(** ** Handing memory back (lines 407-419 and 460-479) *)

Module Memory.
Import Dispatcher Registry Provider.

(** The loop of lines 471-475 of [windows_provider_free_string_list]: the
    strings given to [delete[]], in order. It walks the vector up to the
    first null entry, which is the terminator unless an entry is null. *)
Fixpoint deleted_strings (l : string_list) : list bytes :=
  match l with
  | Some s :: l' => s :: deleted_strings l'
  | _ => []
  end.

(** The strings a vector holds, null entries apart. *)
Definition held_strings (l : string_list) : list bytes := omap id l.

(** [windows_provider_free_string_list] (lines 463-479) on a vector:
    nothing is done for a null pointer. *)
Definition windows_provider_free_string_list_deletes (str_list : option string_list)
  : list bytes :=
  match str_list with
  | None => []
  | Some l => deleted_strings l
  end.

(** The callable of [windows_provider_dispose_dict] (lines 412-418): it
    frees the two structures and returns nothing. *)
Definition windows_provider_dispose_dict_work (dict : EnchantDict) : work :=
  λ cw, (cw, ReturnedVoid).

(** [windows_provider_dispose_dict] (lines 408-419). *)
Definition windows_provider_dispose_dict (provider : EnchantProvider)
  (dict : EnchantDict) : host (outcome value) :=
  dispatch (windows_provider_dispose_dict_work dict).

End Memory.
(** ** The functions that change the user's dictionaries (lines 317-372) *)

Module UserDictionary.
Import Dispatcher Registry Provider.

(** The calls these functions make on the spell checker. *)
Inductive user_call : Type :=
  | ComAdd (c : checker) (word : wstring)
  | ComAutoCorrect (c : checker) (from to : wstring)
  | ComIgnore (c : checker) (word : wstring).

(** The state the worker thread owns, with these calls among the others. *)
Definition user_world : Type := list (com_call + user_call).

(** What the spell checker answers to them, given the calls made before. *)
Record user_api : Type := {
  ISpellChecker_Add : user_world → checker → wstring → HRESULT;
  ISpellChecker_AutoCorrect : user_world → checker → wstring → wstring → HRESULT;
  ISpellChecker_Ignore : user_world → checker → wstring → HRESULT
}.

Section Api.
Variables (api : com_api) (uapi : user_api).

Definition user_work : Type := user_world → user_world * outcome value.

(** The callable of [windows_dict_add_to_personal] (lines 323-331). *)
Definition windows_dict_add_to_personal_work (dict : EnchantDict) (word : bytes)
  (len : Z) : user_work :=
  λ cw,
    match copy_utf8_to_utf16 api word len with
    | None => (cw, ReturnedVoid)
    | Some utf16Word =>
        match dict_user_data dict with
        | Some {| spellChecker := Some c |} =>
            let hr := ISpellChecker_Add uapi cw c utf16Word in
            let cw' := cw ++ [inr (ComAdd c utf16Word)] in
            if FAILED hr then (cw', ReturnedVoid) else (cw', ReturnedVoid)
        | _ => (cw, null_deref)
        end
    end.

(** The callable of [windows_dict_store_replacement] (lines 342-354). *)
Definition windows_dict_store_replacement_work (dict : EnchantDict)
  (mis : bytes) (mis_len : Z) (cor : bytes) (cor_len : Z) : user_work :=
  λ cw,
    match copy_utf8_to_utf16 api mis mis_len with
    | None => (cw, ReturnedVoid)
    | Some from =>
        match copy_utf8_to_utf16 api cor cor_len with
        | None => (cw, ReturnedVoid)
        | Some to =>
            match dict_user_data dict with
            | Some {| spellChecker := Some c |} =>
                let hr := ISpellChecker_AutoCorrect uapi cw c from to in
                let cw' := cw ++ [inr (ComAutoCorrect c from to)] in
                if FAILED hr then (cw', ReturnedVoid) else (cw', ReturnedVoid)
            | _ => (cw, null_deref)
            end
        end
    end.

(** The callable of [windows_dict_add_to_exclude] (lines 363-371), which
    calls [ISpellChecker::Ignore]. *)
Definition windows_dict_add_to_exclude_work (dict : EnchantDict) (word : bytes)
  (len : Z) : user_work :=
  λ cw,
    match copy_utf8_to_utf16 api word len with
    | None => (cw, ReturnedVoid)
    | Some utf16Word =>
        match dict_user_data dict with
        | Some {| spellChecker := Some c |} =>
            let hr := ISpellChecker_Ignore uapi cw c utf16Word in
            let cw' := cw ++ [inr (ComIgnore c utf16Word)] in
            if FAILED hr then (cw', ReturnedVoid) else (cw', ReturnedVoid)
        | _ => (cw, null_deref)
        end
    end.

(** The entry points. *)
Definition user_host : Type → Type := M user_world value.

Definition windows_dict_add_to_personal (dict : EnchantDict) (word : bytes) (len : Z)
  : user_host (outcome value) :=
  c_entry (dispatch (windows_dict_add_to_personal_work dict word len)).

Definition windows_dict_store_replacement (dict : EnchantDict)
  (mis : bytes) (mis_len : Z) (cor : bytes) (cor_len : Z) : user_host (outcome value) :=
  c_entry (dispatch (windows_dict_store_replacement_work dict mis mis_len cor cor_len)).

Definition windows_dict_add_to_exclude (dict : EnchantDict) (word : bytes) (len : Z)
  : user_host (outcome value) :=
  c_entry (dispatch (windows_dict_add_to_exclude_work dict word len)).

End Api.
End UserDictionary.
(** ** Any number of threads inside one dispatcher *)

Module Interleaving.
Import Dispatcher.

Section Model.
Context {E T : Type}.

(** The states a dispatcher can be in: it is constructed, threads enter
    [dispatch] or the destructor whenever they like, and every thread
    steps whenever it can. *)
Inductive reachable : system E T → Prop :=
  | reach_new e ok : reachable (e, CoThreadDispatcher_new ok)
  | reach_submit e d k : reachable (e, d) → reachable (e, submit k d)
  | reach_step a s s' : reachable s → step a s = Some s' → reachable s'.

(** The calls whose task the worker has run, oldest first. *)
Definition invoked (tr : list event) : list nat :=
  omap (λ ev, match ev with EvInvoke i => Some i | _ => None end) tr.

(** Program points at which a thread holds [processing_mutex]. *)
Definition holds_lock (pc : caller_pc) : bool :=
  match pc with
  | CStore | CNotify | CUnlock => true
  | _ => false
  end.

Definition worker_holds (w : worker_pc) : bool :=
  match w with
  | WInit | WLoop | WCall | WTeardown | WUnlock => true
  | _ => false
  end.

(** The caller has assigned [dispatched_function]. *)
Definition has_stored (pc : caller_pc) : bool :=
  match pc with
  | CLock | CStore => false
  | _ => true
  end.

(** The caller has left [result.wait()]. *)
Definition past_wait (pc : caller_pc) : bool :=
  match pc with
  | CJoin | CDone => true
  | _ => false
  end.

(** The worker has left [wait] and is about to run the slot. *)
Definition woken (w : worker_pc) : bool :=
  match w with
  | WNotified | WCall => true
  | _ => false
  end.

(** What holds of one call in a state of the dispatcher. *)
Record caller_coherent (d : dispatcher E T) (j : nat) (c : caller E T) : Prop := {
  coh_lock : processing_mutex d = Some (Caller j) ↔ holds_lock (c_pc c) = true;
  coh_run : is_Some (c_future c) ↔ j ∈ invoked (trace d);
  coh_early : is_Some (c_future c) →
              has_stored (c_pc c) = true ∧ holds_lock (c_pc c) = false;
  coh_got : past_wait (c_pc c) = true → is_Some (c_future c);
  coh_stored : c_pc c = CNotify ∨ c_pc c = CUnlock → dispatched_function d = Some j;
  coh_own : ∀ o, c_future c = Some o → ∃ r e, o = (task_of (c_call c) r e).2;
  coh_ret : ∀ o, c_ret c = Some o → c_future c = Some o
}.

(** What holds of every state the dispatcher can be in. *)
Record coherent (s : system E T) : Prop := {
  coh_alive : dispatch_thread s.2 ≠ WTerminated;
  coh_worker : processing_mutex s.2 = Some Worker
               ↔ worker_holds (dispatch_thread s.2) = true;
  coh_callers : ∀ j c, callers s.2 !! j = Some c → caller_coherent s.2 j c;
  coh_slot : ∀ j, dispatched_function s.2 = Some j →
             ∃ c, callers s.2 !! j = Some c ∧ has_stored (c_pc c) = true;
  coh_woken : woken (dispatch_thread s.2) = true →
              ∃ j c, dispatched_function s.2 = Some j ∧
                     callers s.2 !! j = Some c ∧ c_future c = None;
  coh_owner : ∀ j, processing_mutex s.2 = Some (Caller j) → is_Some (callers s.2 !! j);
  coh_known : ∀ j, j ∈ invoked (trace s.2) → is_Some (callers s.2 !! j);
  coh_once : NoDup (invoked (trace s.2))
}.

(** The destructor has been entered and its task has been run. *)
Definition stop_requested (d : dispatcher E T) : Prop :=
  ∃ i c, callers d !! i = Some c ∧ c_call c = CallDestructor ∧ is_Some (c_future c).

(** The life of the worker thread, read off its program point: what it
    has recorded so far, and whether [running] is set. *)
Definition worker_life (d : dispatcher E T) : Prop :=
  match dispatch_thread d with
  | WEntry | WInit => trace d = [] ∧ running d = false
  | WLoop =>
      (∃ js, trace d = EvCoInitializeEx (CoInitializeEx_ok d) :: map EvInvoke js) ∧
      (running d = false → stop_requested d)
  | WWaiting | WNotified | WCall =>
      (∃ js, trace d = EvCoInitializeEx (CoInitializeEx_ok d) :: map EvInvoke js) ∧
      running d = true
  | WTeardown =>
      (∃ js, trace d = EvCoInitializeEx (CoInitializeEx_ok d) :: map EvInvoke js) ∧
      running d = false ∧ stop_requested d
  | WUnlock =>
      (∃ js, trace d = EvCoInitializeEx (CoInitializeEx_ok d) :: map EvInvoke js
                       ++ CoInitializer_dtor d) ∧
      running d = false ∧ stop_requested d
  | WExited =>
      (∃ js ks, trace d = EvCoInitializeEx (CoInitializeEx_ok d) :: map EvInvoke js
                          ++ CoInitializer_dtor d ++ EvThreadExit :: map EvJoin ks) ∧
      running d = false ∧ stop_requested d
  | WTerminated => True
  end.

(** [dispatch_begin.wait] returning without a notification, which the
    C++ library allows: the worker goes on as if it had been notified. *)
Definition spurious_wakeup (s : system E T) : option (system E T) :=
  match dispatch_thread s.2 with
  | WWaiting => Some (s.1, set_thread WNotified s.2)
  | _ => None
  end.

End Model.
End Interleaving.
(** ** One thread making call after call *)

Module Session.
Import Dispatcher Registry.

(** How often, in the turns to come, a turn of the worker is followed
    by a turn of the calling thread, counted from the front;
    [worker_seen] tells that a turn of the worker is waiting for its
    partner. *)
Fixpoint alternations_from (worker_seen : bool) (sch : list turn) : nat :=
  match sch with
  | [] => O
  | WorkerTurn :: sch' => alternations_from true sch'
  | CallerTurn :: sch' =>
      if worker_seen then S (alternations_from false sch')
      else alternations_from false sch'
  end.

Definition alternations (sch : list turn) : nat := alternations_from false sch.

Section Model.
Context {E T : Type}.

(** [dispatch] called for one callable after the other by one thread. *)
Fixpoint dispatch_all (fs : list (E → E * outcome T)) : M E T (list (outcome T)) :=
  match fs with
  | [] => ret []
  | f :: fs' =>
      bind (dispatch f) (λ o, bind (dispatch_all fs') (λ os, ret (o :: os)))
  end.

(** The callables run in place, one after the other. *)
Fixpoint run_all (fs : list (E → E * outcome T)) (e : E) : E * list (outcome T) :=
  match fs with
  | [] => (e, [])
  | f :: fs' =>
      let '(e1, o) := f e in
      let '(e2, os) := run_all fs' e1 in
      (e2, o :: os)
  end.

End Model.
End Session.
(** ** A client of the provider *)

Module Client.
Import Dispatcher Registry Provider Session.

Section Api.
Variable api : com_api.

(** One thread creates a provider, makes calls that are dispatched on the
    worker thread, one after the other, and disposes of the provider. *)
Definition provider_session (fs : list work)
  : host (option (EnchantProvider * list (outcome value))) :=
  bind (init_enchant_provider api) (λ p,
    match p with
    | None => ret None
    | Some prov =>
        bind (dispatch_all fs) (λ os,
        bind (windows_provider_dispose prov) (λ _, ret (Some (prov, os))))
    end).

End Api.
End Client.
(** ** The registry from the start of the process *)

Module Ledger.
Import Dispatcher Registry.

Section Model.
Context {E T : Type}.

Definition is_destroy (ev : reg_event E T) : bool :=
  match ev with EvDestroy _ => true | _ => false end.

Definition destructions (w : world E T) : nat :=
  length (filter (λ ev, is_destroy ev = true) (history w)).

(** The process at its start: nothing acquired and nothing recorded. *)
Definition pristine (w : world E T) : Prop := unused w ∧ history w = [].

(** The states reached from the start when the registry is used as the
    design demands. *)
Inductive lifecycle : world E T → Prop :=
  | life_start w : pristine w → lifecycle w
  | life_addref w w' :
      lifecycle w → com_dispatcher_refcount w < UINT32_MAX →
      com_dispatcher_addref w = Some (tt, w') → lifecycle w'
  | life_release w w' :
      lifecycle w → 0 < com_dispatcher_refcount w →
      com_dispatcher_release w = Some (tt, w') → lifecycle w'
  | life_dispatch w f o w' :
      lifecycle w → dispatch f w = Some (o, w') → lifecycle w'.

End Model.
End Ledger.
(** ** More concrete runs *)

Module Samples.
Import Dispatcher Registry Provider UserDictionary Session.

(** Three suggestions; the second has 128 characters. *)
Definition suggestions : enum_string :=
  [(0, [104; 105]); (0, repeat 97 128%nat); (0, [111; 107])].

Definition suggestion_list : string_list :=
  [Some [104; 105; 0]; None; Some [111; 107; 0]].

(** The tag [en_US] as a C string. *)
Definition en_US : bytes := [101; 110; 95; 85; 83; 0].

Definition hi : bytes := [104; 105].

(** A spell checker that accepts every change. *)
Definition sample_user_api : user_api :=
  {| ISpellChecker_Add := λ _ _ _, 0;
     ISpellChecker_AutoCorrect := λ _ _ _ _, 0;
     ISpellChecker_Ignore := λ _ _ _, 0 |}.

(** A host process holding one provider on a settled dispatcher, for the
    functions that change the user's dictionaries. *)
Definition editing_world (n : nat) : world user_world value :=
  {| com_dispatcher := Some Scenario.ready; com_dispatcher_refcount := 1;
     backend := [inl ComCoCreateInstance]; coinit_ok := true;
     schedule := rounds n;
     history := [EvAddref; EvConstruct] |}.

(** A process that has just constructed its dispatcher; the worker gets
    the first turn. *)
Definition started_world (n : nat) : world unit Z :=
  {| com_dispatcher := Some (CoThreadDispatcher_new true);
     com_dispatcher_refcount := 1;
     backend := tt; coinit_ok := true;
     schedule := WorkerTurn :: rounds n;
     history := [EvAddref; EvConstruct] |}.

(** A host process before [init_enchant_provider]; the worker gets the
    first turn. *)
Definition client_world (n : nat) : world com_world value :=
  {| com_dispatcher := None; com_dispatcher_refcount := 0;
     backend := []; coinit_ok := true;
     schedule := WorkerTurn :: rounds n; history := [] |}.

(** A dictionary is requested for [en_US] and a word is checked. *)
Definition sample_calls : list work :=
  [windows_provider_request_dict_work Scenario.sample_api Scenario.sample_provider en_US;
   windows_dict_check_work Scenario.sample_api Scenario.sample_dict hi 2].

End Samples.

(** * Theorems *)

(** ** A call against a settled dispatcher *)

Section SoleFacts.
Import Dispatcher Sole.
Context {E T : Type}.
Variables (e0 : E) (cs : list (caller E T)) (sl0 : option nat) (hr : bool)
          (tr0 : list event) (k : call E T).
Hypothesis cs_done : Forall call_done cs.

Local Abbreviation conf := (Sole.conf e0 cs sl0 hr tr0 k).
Local Abbreviation next := (Sole.next k).
Local Abbreviation rank := (Sole.rank k).
Local Abbreviation ok := (Sole.phase_ok k).
Local Abbreviation ran := (Sole.ran e0 k).
Local Abbreviation me := (Sole.me cs).

Lemma lookup_me (c : caller E T) : (cs ++ [c]) !! me = Some c.
Proof. unfold Sole.me. apply list_lookup_middle. reflexivity. Qed.

Lemma insert_me (c c' : caller E T) : <[me := c']> (cs ++ [c]) = cs ++ [c'].
Proof.
  unfold Sole.me. rewrite insert_app_r_alt by lia.
  rewrite Nat.sub_diag. reflexivity.
Qed.

Lemma lookup_other (c c' : caller E T) (j : nat) :
  j ≠ me → (cs ++ [c]) !! j = Some c' → c_pc c' = CDone.
Proof using cs_done.
  intros Hj Hl. apply lookup_app_Some in Hl as [Hl | [Hge Hl]].
  - exact (Forall_lookup_1 _ _ _ _ cs_done Hl).
  - unfold Sole.me in Hj. destruct (j - length cs)%nat eqn:Hd; [lia | discriminate].
Qed.

Ltac phases p :=
  destruct p as [| | | | | | | [|] [|] | [| | |] [|] |].

Ltac crunch :=
  unfold step, worker_step, caller_step; cbn -[lookup insert];
  rewrite ?lookup_me; cbn -[lookup insert];
  try (destruct (_ e0) as [? ?]);
  unfold put_caller, mk; cbn -[lookup insert];
  rewrite ?insert_me; try reflexivity.

(** The worker's step, phase by phase. *)
Lemma step_worker p : ok p = true → step Worker (conf p) = Sole.conf e0 cs sl0 hr tr0 k <$> next true p.
Proof. intros Hok. phases p; destruct k as [f|]; try discriminate Hok; crunch. Qed.

(** The caller's step, phase by phase. *)
Lemma step_me p : ok p = true → step (Caller me) (conf p) = Sole.conf e0 cs sl0 hr tr0 k <$> next false p.
Proof. intros Hok. phases p; destruct k as [f|]; try discriminate Hok; crunch. Qed.

(** The calls that have returned take no step. *)
Lemma step_other p j : j ≠ me → step (Caller j) (conf p) = None.
Proof using cs_done.
  intros Hj. unfold step.
  destruct (dispatch_thread (conf p).2); try reflexivity.
  all: destruct (callers (conf p).2 !! j) as [c'|] eqn:Hl; [|reflexivity].
  all: assert (c_pc c' = CDone) as Hd
      by (phases p; cbn -[lookup] in Hl; eapply lookup_other; eauto).
  all: unfold caller_step; destruct (conf p); rewrite Hd; reflexivity.
Qed.

Lemma next_ok b p p' : ok p = true → next b p = Some p' → ok p' = true.
Proof.
  intros Hok H. phases p; destruct b, k; try discriminate;
    cbn in H; inversion H; reflexivity.
Qed.

Lemma next_rank b p p' : ok p = true → next b p = Some p' → (rank p' < rank p)%nat.
Proof.
  intros Hok H. phases p; destruct b, k; try discriminate;
    cbn in H; inversion H; cbn; lia.
Qed.

Lemma next_progress p :
  ok p = true → finished p = false → is_Some (next true p) ∨ is_Some (next false p).
Proof.
  intros Hok H. phases p; destruct k; try discriminate; cbn; eauto.
Qed.

Lemma returned_conf p :
  ok p = true → returned me (conf p) = if finished p then Some ran.2 else None.
Proof.
  intros Hok. unfold returned.
  phases p; destruct k; try discriminate Hok;
    cbn -[lookup]; rewrite lookup_me; reflexivity.
Qed.

(** Any step out of a phase leads to a phase of smaller rank. *)
Lemma step_conf a p s' :
  ok p = true → step a (conf p) = Some s' →
  ∃ p', ok p' = true ∧ s' = conf p' ∧ (rank p' < rank p)%nat.
Proof using cs_done.
  intros Hok H. destruct a as [|j].
  - rewrite step_worker in H by done.
    destruct (next true p) as [p'|] eqn:Hn; [|discriminate]. inversion H.
    exists p'. eauto using next_ok, next_rank.
  - destruct (decide (j = me)) as [->|Hj].
    + rewrite step_me in H by done.
      destruct (next false p) as [p'|] eqn:Hn; [|discriminate]. inversion H.
      exists p'. eauto using next_ok, next_rank.
    + rewrite step_other in H by done. discriminate.
Qed.

(** Executions are bounded by the rank and stay inside the phases. *)
Lemma run_conf sch : ∀ p s',
  ok p = true → run sch (conf p) = Some s' →
  ∃ p', ok p' = true ∧ s' = conf p' ∧ (length sch + rank p' ≤ rank p)%nat.
Proof using cs_done.
  induction sch as [|a sch IH]; intros p s' Hok H; cbn in H.
  - inversion H. exists p. cbn. eauto with lia.
  - destruct (step a (conf p)) as [s1|] eqn:Hs; [|discriminate].
    destruct (step_conf _ _ _ Hok Hs) as (p1 & Hok1 & -> & Hr).
    destruct (IH _ _ Hok1 H) as (p' & Hok' & -> & Hr').
    exists p'. cbn. eauto with lia.
Qed.

(** Until the call has returned, one of the two threads can move. *)
Lemma conf_progress p :
  ok p = true → finished p = false → ∃ a, is_Some (step a (conf p)).
Proof.
  intros Hok Hf. destruct (next_progress p Hok Hf) as [[p' H]|[p' H]].
  - exists Worker. rewrite step_worker, H by done. eauto.
  - exists (Caller me). rewrite step_me, H by done. eauto.
Qed.

(** A dispatched callable leaves the worker inside its loop, running. *)
Lemma conf_in_loop p f :
  k = CallDispatch f → ok p = true →
  running (conf p).2 = true ∧ in_loop (dispatch_thread (conf p).2) = true.
Proof. intros -> Hok. phases p; try discriminate Hok; done. Qed.

(** Once [dispatch] has returned the dispatcher is settled again. *)
Lemma conf_ran_settled w : settled (conf (PRan w true)).2.
Proof using cs_done.
  unfold settled. cbn. split; [done|]. split.
  - apply Forall_app. split; [done|]. by repeat constructor.
  - destruct w; eauto.
Qed.

(** The same under turns: a turn of a blocked thread passes. *)
Lemma turn_conf t p :
  ok p = true →
  ∃ p', ok p' = true ∧ (rank p' ≤ rank p)%nat ∧
        default (conf p) (step (Registry.actor_of me t) (conf p)) = conf p' ∧
        (is_Some (next (match t with Registry.WorkerTurn => true | _ => false end) p) →
         (rank p' < rank p)%nat) ∧
        (next (match t with Registry.WorkerTurn => true | _ => false end) p = None →
         p' = p).
Proof.
  intros Hok. destruct t; cbn [Registry.actor_of].
  - rewrite step_worker by done. destruct (next true p) as [p'|] eqn:Hn; cbn.
    + exists p'. pose proof (next_rank _ _ _ Hok Hn). pose proof (next_ok _ _ _ Hok Hn).
      repeat split; eauto with lia. discriminate.
    + exists p. repeat split; eauto. intros [? ?]. discriminate.
  - rewrite step_me by done. destruct (next false p) as [p'|] eqn:Hn; cbn.
    + exists p'. pose proof (next_rank _ _ _ Hok Hn). pose proof (next_ok _ _ _ Hok Hn).
      repeat split; eauto with lia. discriminate.
    + exists p. repeat split; eauto. intros [? ?]. discriminate.
Qed.

(** When [await] hands the call back, it has returned the outcome of its
    task. *)
Lemma await_conf sch : ∀ p o s' rest,
  ok p = true → Registry.await me sch (conf p) = Some (o, s', rest) →
  ∃ p', ok p' = true ∧ finished p' = true ∧ s' = conf p' ∧ o = ran.2.
Proof.
  induction sch as [|t sch IH]; intros p o s' rest Hok H; cbn [Registry.await] in H;
    rewrite returned_conf in H by done; destruct (finished p) eqn:Hf.
  - inversion H; subst. eauto.
  - discriminate.
  - inversion H; subst. eauto.
  - destruct (turn_conf t p Hok) as (p1 & Hok1 & _ & Heq & _).
    rewrite Heq in H. eauto.
Qed.

(** With enough rounds the call returns. *)
Lemma await_rounds n : ∀ p rest,
  ok p = true → (rank p ≤ n)%nat →
  is_Some (Registry.await me (Registry.rounds n ++ rest) (conf p)).
Proof.
  induction n as [|n IH]; intros p rest Hok Hr.
  - assert (finished p = true) as Hf
        by (phases p; destruct k; try discriminate Hok; cbn in Hr; done || lia).
    destruct rest; cbn [Registry.rounds app Registry.await];
      rewrite returned_conf, Hf by done; eauto.
  - cbn [Registry.rounds app Registry.await]. rewrite returned_conf by done.
    destruct (finished p) eqn:Hf; [eauto|].
    destruct (turn_conf Registry.WorkerTurn p Hok) as (p1 & Hok1 & Hr1 & -> & Hlt1 & Hsame1).
    rewrite returned_conf by done.
    destruct (finished p1) eqn:Hf1; [eauto|].
    destruct (turn_conf Registry.CallerTurn p1 Hok1) as (p2 & Hok2 & Hr2 & -> & Hlt2 & _).
    apply IH; [done|].
    destruct (next true p) as [q|] eqn:Hn.
    + specialize (Hlt1 (ltac:(eauto))). lia.
    + specialize (Hsame1 eq_refl). subst p1.
      destruct (next_progress p Hok Hf) as [[? Hq]|Hq]; [congruence|].
      specialize (Hlt2 Hq). lia.
Qed.

End SoleFacts.

(** ** The first call against a new dispatcher *)

Section StartupFacts.
Import Dispatcher Registry.
Context {E T : Type}.
Variables (e0 : E) (hr : bool) (k : call E T).

Local Abbreviation confS := (Startup.conf e0 hr k).
Local Abbreviation confM := (Sole.conf e0 [] None hr [EvCoInitializeEx hr] k).

Lemma startup_turn t p :
  default (confS p) (step (actor_of 0 t) (confS p))
  = match Startup.next (match t with WorkerTurn => true | _ => false end) p with
    | Some p' => confS p'
    | None => confM Sole.PHeld
    end.
Proof. destruct t, p; reflexivity. Qed.

Lemma startup_not_returned p : returned 0 (confS p) = None.
Proof. destruct p; reflexivity. Qed.

(** When the first call returns it has gone through the phases of a call
    against a settled dispatcher. *)
Lemma await_startup sch : ∀ p o s' rest,
  await 0 sch (confS p) = Some (o, s', rest) →
  ∃ p', Sole.phase_ok k p' = true ∧ Sole.finished p' = true ∧
        s' = confM p' ∧ o = (Sole.ran e0 k).2.
Proof.
  induction sch as [|t sch IH]; intros p o s' rest H; cbn [await] in H;
    rewrite startup_not_returned in H; [discriminate|].
  rewrite startup_turn in H.
  destruct (Startup.next _ p) as [p'|]; [eauto|].
  eapply (await_conf e0 [] None hr [EvCoInitializeEx hr] k); [|exact H].
  by destruct k.
Qed.

(** With the worker first and enough rounds the first call returns. *)
Lemma await_startup_rounds n rest :
  (14 ≤ n)%nat → is_Some (await 0 (rounds n ++ rest) (confS Startup.FEntry)).
Proof.
  intros Hn. do 2 (destruct n as [|n]; [lia|]).
  cbn [rounds app await].
  rewrite !startup_not_returned, !startup_turn. cbn [Startup.next].
  rewrite startup_not_returned, startup_turn. cbn [Startup.next].
  rewrite startup_not_returned, startup_turn. cbn [Startup.next].
  assert (returned 0 (confM Sole.PHeld) = None) as -> by (by destruct k).
  assert (default (confM Sole.PHeld) (step (actor_of 0 CallerTurn) (confM Sole.PHeld))
          = confM Sole.PHeld) as -> by (by destruct k).
  apply (await_rounds e0 [] None hr [EvCoInitializeEx hr] k); [by destruct k|].
  destruct k; cbn; lia.
Qed.

(** Once the notification has been missed the call does not return,
    whatever turns follow. *)
Lemma await_missed sch : ∀ p,
  Startup.missed p = true → await 0 sch (confS p) = None.
Proof.
  induction sch as [|t sch IH]; intros p Hp; cbn [await];
    rewrite startup_not_returned; [done|].
  rewrite startup_turn.
  destruct t, p; try discriminate Hp; cbn [Startup.next]; by apply IH.
Qed.

(** The calling thread first: the call does not return. *)
Lemma await_caller_first sch :
  await 0 (CallerTurn :: CallerTurn :: CallerTurn :: CallerTurn :: sch)
    (confS Startup.FEntry) = None.
Proof.
  cbn [await].
  rewrite startup_not_returned, startup_turn. cbn [Startup.next].
  rewrite startup_not_returned, startup_turn. cbn [Startup.next].
  rewrite startup_not_returned, startup_turn. cbn [Startup.next].
  rewrite startup_not_returned, startup_turn. cbn [Startup.next].
  by apply await_missed.
Qed.

End StartupFacts.

(** ** Theorems on the dispatcher *)

Section DispatcherFacts.
Import Dispatcher Sole.
Context {E T : Type}.

(** A call entering a settled dispatcher starts in one of the first two
    phases. *)
Lemma settled_submit (e : E) (d : dispatcher E T) (k : call E T) :
  settled d →
  ∃ p, (p = PIdle ∨ p = PHeld) ∧
       (e, submit k d)
       = conf e (callers d) (dispatched_function d) (CoInitializeEx_ok d) (trace d) k p.
Proof.
  destruct d as [r m sl w ok cs tr]. unfold settled. cbn.
  intros (-> & _ & [[-> ->]|[-> ->]]); [exists PIdle | exists PHeld]; eauto.
Qed.

Lemma settled_done (d : dispatcher E T) : settled d → Forall call_done (callers d).
Proof. intros (_ & H & _). exact H. Qed.

(** [dispatch(f)] on a dispatcher that is between calls runs [f] on the
    worker thread and hands the outcome of [f], a value or the exception it
    raised, back to the calling thread. Every execution of the caller and
    the worker has at most 9 steps; as long as the call has not returned
    one of the two threads can move; and what it returns is the outcome of
    [f] on the worker's state, with the effect of [f] applied once and the
    invocation recorded last in the worker's trace. *)
Lemma dispatch_on_settled (e : E) (d : dispatcher E T) (f : E → E * outcome T)
  (sch : list actor) (s' : system E T) :
  settled d →
  run sch (e, submit (CallDispatch f) d) = Some s' →
  (length sch ≤ 9)%nat ∧
  (returned (length (callers d)) s' = None → ∃ a, is_Some (step a s')) ∧
  (stuck s' → returned (length (callers d)) s' = Some (f e).2) ∧
  (∀ o, returned (length (callers d)) s' = Some o →
        o = (f e).2 ∧ s'.1 = (f e).1 ∧
        trace s'.2 = trace d ++ [EvInvoke (length (callers d))]).
Proof.
  intros Hs Hrun.
  pose proof (settled_done d Hs) as Hd.
  destruct (settled_submit e d (CallDispatch f) Hs) as (p & Hp & Heq).
  rewrite Heq in Hrun.
  assert (phase_ok (CallDispatch f) p = true) as Hok by (by destruct Hp as [->| ->]).
  destruct (run_conf _ _ _ _ _ _ Hd sch p s' Hok Hrun) as (p' & Hok' & -> & Hr).
  assert (rank (CallDispatch f) p ≤ 9)%nat by (destruct Hp as [->| ->]; cbn; lia).
  pose proof (returned_conf e (callers d) (dispatched_function d) (CoInitializeEx_ok d)
                (trace d) (CallDispatch f) p' Hok') as Hret.
  fold (me (callers d)). rewrite Hret.
  split; [lia|]. split; [|split].
  - intros Hn. apply conf_progress; [done|]. by destruct (finished p').
  - intros Hst. destruct (finished p') eqn:Hf; [done|].
    destruct (conf_progress e (callers d) (dispatched_function d) (CoInitializeEx_ok d)
                (trace d) (CallDispatch f) p' Hok' Hf) as (a & b & Hb).
    rewrite Hst in Hb. discriminate.
  - intros o Ho. destruct p' as [| | | | | | | w [|] | |]; try discriminate.
    inversion Ho. done.
Qed.

(** On a dispatcher that is between calls, with no other thread inside
    it: whatever the callable handed to [dispatch] produces, an error
    value or a raised exception included, is what the calling thread
    observes, exactly as the outcome of a local call: an exception raised
    on the worker is re-raised in the caller. At every point of every
    execution the worker is still inside its loop with [running] set, and
    when the call has returned the dispatcher is settled, ready for the
    next call. The call does return: while it has not, one of the two
    threads can move, and executions are bounded. *)
Lemma raised_error_on_settled (e : E) (d : dispatcher E T)
  (f : E → E * outcome T) (sch : list actor) (s' : system E T) :
  settled d →
  run sch (e, submit (CallDispatch f) d) = Some s' →
  running s'.2 = true ∧ in_loop (dispatch_thread s'.2) = true ∧
  (length sch ≤ 9)%nat ∧
  (returned (length (callers d)) s' = None → ∃ a, is_Some (step a s')) ∧
  (∀ o, returned (length (callers d)) s' = Some o →
        o = (f e).2 ∧ (∀ x, (f e).2 = Raised x → o = Raised x) ∧ settled s'.2).
Proof.
  intros Hs Hrun.
  pose proof (settled_done d Hs) as Hd.
  destruct (settled_submit e d (CallDispatch f) Hs) as (p & Hp & Heq).
  rewrite Heq in Hrun.
  assert (phase_ok (CallDispatch f) p = true) as Hok by (by destruct Hp as [->| ->]).
  destruct (run_conf _ _ _ _ _ _ Hd sch p s' Hok Hrun) as (p' & Hok' & -> & Hr).
  assert (rank (CallDispatch f) p ≤ 9)%nat by (destruct Hp as [->| ->]; cbn; lia).
  pose proof (returned_conf e (callers d) (dispatched_function d) (CoInitializeEx_ok d)
                (trace d) (CallDispatch f) p' Hok') as Hret.
  fold (me (callers d)). rewrite Hret.
  destruct (conf_in_loop e (callers d) (dispatched_function d) (CoInitializeEx_ok d)
              (trace d) (CallDispatch f) p' f eq_refl Hok') as [Hrun' Hloop].
  split; [done|]. split; [done|]. split; [lia|]. split.
  - intros Hn. apply conf_progress; [done|]. by destruct (finished p').
  - intros o Ho. destruct p' as [| | | | | | | w [|] | |]; try discriminate.
    inversion Ho. cbn [ran snd]. split; [done|]. split; [by intros x ->|].
    by apply conf_ran_settled.
Qed.

End DispatcherFacts.

Section ScenarioFacts.
Import Dispatcher Scenario.

Lemma ready_settled {E T} : settled (@ready E T).
Proof. split; [done|]. split; [constructor|]. left. done. Defined.

Lemma ready_reached {E T} (e : E) :
  run [Worker; Worker; Worker] (e, CoThreadDispatcher_new true)
  = Some (e, @ready E T).
Proof. reflexivity. Qed.

Lemma after_call_stuck o f : stuck (after_call o f).
Proof. intros [|[|j]]; reflexivity. Defined.

(** On a settled dispatcher [dispatch] of a callable returning 42
    returns 42. *)
Lemma dispatch_42_on_settled :
  run one_call (tt, submit (CallDispatch (answer 42)) ready)
  = Some (after_call (Returned 42) (answer 42)) ∧
  returned 0 (after_call (Returned 42) (answer 42)) = Some (Returned 42).
Proof.
  split; [reflexivity|].
  exact (proj1 (proj2 (proj2
           (dispatch_on_settled tt ready (answer 42) one_call
              (after_call (Returned 42) (answer 42)) ready_settled eq_refl)))
           (after_call_stuck _ _)).
Qed.

(** On a settled dispatcher [dispatch] of a callable raising "x" raises
    "x" in the caller and leaves the dispatcher settled. *)
Lemma raised_x_on_settled :
  run one_call (tt, submit (CallDispatch (throw "x")) ready)
  = Some (after_call (Raised "x") (throw "x")) ∧
  returned 0 (after_call (Raised "x") (throw "x")) = Some (Raised "x") ∧
  settled (after_call (Raised "x") (throw "x")).2.
Proof.
  split; [reflexivity|].
  destruct (raised_error_on_settled tt ready (throw "x") one_call
              (after_call (Raised "x") (throw "x")) ready_settled eq_refl)
    as (_ & _ & _ & _ & H5).
  assert (returned 0 (after_call (Raised "x") (throw "x")) = Some (Raised "x")) as Hret
      by reflexivity.
  split; [exact Hret|]. exact (proj2 (proj2 (H5 (Raised "x") Hret))).
Qed.

(** C2 (defect): two calls of [dispatch] issued at once on a new
    dispatcher, for any two callables. The second caller takes the lock
    after the first has unlocked and before the woken worker has, and
    overwrites the slot. The worker then runs only the second task and goes
    back to wait: one unit of work has run instead of two, the first call
    has not returned, and no thread can move any more. *)
Theorem overtaken_submission_is_lost {E T} (e : E) (ok : bool)
  (f1 f2 : E → E * outcome T) :
  run overtaking (two_calls e ok f1 f2) = Some (overtaken e ok f1 f2) ∧
  stuck (overtaken e ok f1 f2) ∧
  returned 0 (overtaken e ok f1 f2) = None ∧
  returned 1 (overtaken e ok f1 f2) = Some (f2 e).2 ∧
  trace (overtaken e ok f1 f2).2 = [EvCoInitializeEx ok; EvInvoke 1].
Proof.
  split; [|split; [|split; [|split]]]; try reflexivity.
  - unfold overtaken. vm_compute. destruct (f2 e). reflexivity.
  - intros [|[|[|j]]]; reflexivity.
Qed.

(** The two calls of that execution, for callables returning 1 and 2;
    only 2 is ever returned. *)
Lemma overtaken_1_and_2 :
  run overtaking (two_calls tt true (answer 1) (answer 2))
  = Some (overtaken tt true (answer 1) (answer 2)) ∧
  returned 0 (overtaken tt true (answer 1) (answer 2)) = None ∧
  returned 1 (overtaken tt true (answer 1) (answer 2)) = Some (Returned 2).
Proof. repeat split; reflexivity. Qed.

(** When the new worker thread locks first, the first call returns 42. *)
Lemma first_call_worker_first :
  run worker_first (first_call tt true (answer 42))
  = Some (after_call (Returned 42) (answer 42)) ∧
  returned 0 (after_call (Returned 42) (answer 42)) = Some (Returned 42).
Proof. split; reflexivity. Qed.

(** C1 (defect): the first [dispatch] on a new dispatcher, for any
    callable (one returning 42, say), in the execution where the calling
    thread takes the lock before the new worker thread does. The caller
    stores its task and notifies while nobody waits; the worker then
    starts, sets [running] and waits for a notification that does not come.
    The task has not run, the call has returned neither the result of the
    callable nor anything else, and no thread can move any more: the call
    hangs, whatever turns the two threads are given afterwards. *)
Theorem first_call_not_woken {E T} (e : E) (ok : bool) (f : E → E * outcome T) :
  run caller_first (first_call e ok f) = Some (never_woken e ok f) ∧
  stuck (never_woken e ok f) ∧
  returned 0 (never_woken e ok f) = None ∧
  trace (never_woken e ok f).2 = [EvCoInitializeEx ok] ∧
  (∀ sch, Registry.await 0 (caller_first_turns ++ sch) (first_call e ok f) = None).
Proof.
  split; [reflexivity|]. split; [|split; [done|split; [done|]]].
  - intros [|[|j]]; reflexivity.
  - intros sch. apply (await_caller_first e ok (CallDispatch f)).
Qed.

(** That execution for a callable returning 42. *)
Lemma first_call_42_not_woken :
  run caller_first (first_call tt true (answer 42))
  = Some (never_woken tt true (answer 42)) ∧
  returned 0 (never_woken tt true (answer 42)) = None.
Proof. split; reflexivity. Qed.



End ScenarioFacts.

(** ** What a call can return, in any state of the dispatcher *)

Section OutcomeFacts.
Import Dispatcher.
Context {E T : Type}.
Variables (P : outcome T → Prop) (i : nat).

Local Abbreviation outcome_inv := (@Dispatcher.outcome_inv E T P i).

Lemma outcome_inv_put j (c c' : caller E T) e e' (d d' : dispatcher E T) :
  outcome_inv (e, d) →
  callers d !! j = Some c →
  callers d' = <[j := c']> (callers d) →
  c_call c' = c_call c →
  (∀ o, c_future c' = Some o → c_future c = Some o ∨ ∃ r e0, o = (task_of (c_call c) r e0).2) →
  (∀ o, c_ret c' = Some o → c_ret c = Some o ∨ c_future c = Some o) →
  outcome_inv (e', d').
Proof.
  intros Hinv Hj Hcs Hcall Hfut Hret c0. cbn. rewrite Hcs.
  destruct (decide (j = i)) as [->|Hne].
  - rewrite list_lookup_insert_eq by (by eapply lookup_lt_Some).
    intros [= <-]. destruct (Hinv c Hj) as (Hf & Hr & Ht).
    rewrite Hcall. split; [|split; [|done]].
    + intros o Ho. destruct (Hfut o Ho) as [?|(r & e0 & ->)]; eauto.
    + intros o Ho. destruct (Hret o Ho); eauto.
  - rewrite list_lookup_insert_ne by done. apply Hinv.
Qed.

Lemma outcome_inv_same e e' (d d' : dispatcher E T) :
  outcome_inv (e, d) → callers d' = callers d → outcome_inv (e', d').
Proof. intros Hinv Hcs c. cbn. rewrite Hcs. apply Hinv. Qed.

Lemma worker_step_outcome_inv s s' :
  worker_step s = Some s' → outcome_inv s → outcome_inv s'.
Proof.
  destruct s as [e d]. unfold worker_step. intros H Hinv.
  repeat case_match; simplify_eq;
    try (eapply outcome_inv_same; [exact Hinv|reflexivity]).
  all: eapply outcome_inv_put; [exact Hinv|eassumption|reflexivity|reflexivity|..]; cbn;
    [ intros o' [= <-]; right; eexists _, _;
      match goal with Ht : task_of _ _ _ = _ |- _ => by rewrite Ht end
    | eauto ].
Qed.

Lemma caller_step_outcome_inv j c s s' :
  callers s.2 !! j = Some c →
  caller_step j c s = Some s' → outcome_inv s → outcome_inv s'.
Proof.
  destruct s as [e d]. unfold caller_step. cbn [snd]. intros Hj H Hinv.
  repeat case_match; simplify_eq;
    (eapply outcome_inv_put; [exact Hinv|eassumption|reflexivity|reflexivity|..]);
    cbn; eauto.
  intros o' [= <-]. eauto.
Qed.

Lemma step_outcome_inv a s s' :
  step a s = Some s' → outcome_inv s → outcome_inv s'.
Proof.
  unfold step. intros H Hinv. repeat case_match; simplify_eq;
    eauto using worker_step_outcome_inv, caller_step_outcome_inv.
Qed.

Lemma await_outcome_inv sch : ∀ s o s' rest,
  outcome_inv s → Registry.await i sch s = Some (o, s', rest) → P o.
Proof.
  induction sch as [|t sch IH]; intros s o s' rest Hinv H; cbn [Registry.await] in H.
  - unfold returned in H. destruct (callers s.2 !! i) as [c|] eqn:Hc; [|discriminate].
    destruct (c_pc c), (c_ret c) eqn:Hr; try discriminate.
    inversion H; subst. by apply (Hinv c Hc).
  - destruct (returned i s) as [o1|] eqn:Hret.
    + inversion H; subst. unfold returned in Hret.
      destruct (callers s'.2 !! i) as [c|] eqn:Hc; [|discriminate].
      destruct (c_pc c); try discriminate. by apply (Hinv c Hc).
    + destruct (step (Registry.actor_of i t) s) as [s1|] eqn:Hs; cbn in H.
      * eapply IH; [|exact H]. eapply step_outcome_inv; eauto.
      * eapply IH; eauto.
Qed.

End OutcomeFacts.

Section DispatchOutcome.
Import Dispatcher Registry.
Context {E T : Type}.

(** Whatever state the dispatcher is in, what [dispatch(f)] returns is an
    outcome of [f]. *)
Lemma dispatch_outcome (P : outcome T → Prop) (f : E → E * outcome T)
  (w : world E T) o w' :
  (∀ e, P (f e).2) → dispatch f w = Some (o, w') → P o.
Proof.
  intros HP. unfold dispatch. destruct (com_dispatcher w) as [d|]; [|discriminate].
  unfold bind, enter.
  destruct (await _ _ _) as [[[o1 [e1 d1]] sch1]|] eqn:Ha; [|discriminate].
  cbn. intros [= <- <-].
  eapply (await_outcome_inv P (length (callers d))); [|exact Ha].
  intros c. cbn. unfold Sole.me. rewrite list_lookup_middle by done.
  intros [= <-]. cbn. split; [discriminate|]. split; [discriminate|].
  intros r e. specialize (HP e). by destruct (f e).
Qed.

End DispatchOutcome.

(** ** Calls made through the registry *)

Section WorldFacts.
Import Dispatcher Registry Sole.
Context {E T : Type}.
Implicit Types (w : world E T) (d : dispatcher E T).

(** A call into the dispatcher touches only the worker's state and the
    turns. *)
Lemma enter_frame k d w o d' w' :
  enter k d w = Some ((o, d'), w') →
  com_dispatcher w' = com_dispatcher w ∧
  com_dispatcher_refcount w' = com_dispatcher_refcount w ∧
  coinit_ok w' = coinit_ok w ∧
  history w' = history w.
Proof.
  unfold enter. destruct (await _ _ _) as [[[o1 [e1 d1]] sch1]|]; [|discriminate].
  intros H. inversion H. done.
Qed.

Lemma enter_dispatch_settled f d w o d' w' :
  settled d →
  enter (CallDispatch f) d w = Some ((o, d'), w') →
  o = (f (backend w)).2 ∧ backend w' = (f (backend w)).1 ∧ settled d' ∧
  trace d' = trace d ++ [EvInvoke (length (callers d))].
Proof.
  intros Hs. unfold enter.
  destruct (await _ _ _) as [[[o1 [e1 d1]] sch1]|] eqn:Ha; [|discriminate].
  intros H. inversion H; subst. clear H.
  destruct (settled_submit (backend w) d (CallDispatch f) Hs) as (p & Hp & Heq).
  rewrite Heq in Ha.
  assert (phase_ok (CallDispatch f) p = true) as Hok by (by destruct Hp as [->| ->]).
  destruct (await_conf _ _ _ _ _ _ _ _ _ _ _ Hok Ha) as (p' & Hok' & Hf & Hc & ->).
  destruct p' as [| | | | | | | wt [|] | |]; try discriminate.
  inversion Hc; subst. cbn [ran]. split; [done|]. split; [done|]. split; [|done].
  apply (conf_ran_settled (backend w) (callers d) (dispatched_function d)
           (CoInitializeEx_ok d) (trace d) (CallDispatch f) (settled_done d Hs) wt).
Qed.

Lemma enter_destructor_settled d w o d' w' :
  settled d →
  enter CallDestructor d w = Some ((o, d'), w') →
  backend w' = backend w ∧
  dispatch_thread d' = WExited ∧ running d' = false ∧ processing_mutex d' = None ∧
  trace d' = trace d ++ [EvInvoke (length (callers d))] ++ CoInitializer_dtor d
                     ++ [EvThreadExit; EvJoin (length (callers d))].
Proof.
  intros Hs. unfold enter.
  destruct (await _ _ _) as [[[o1 [e1 d1]] sch1]|] eqn:Ha; [|discriminate].
  intros H. inversion H; subst. clear H.
  destruct (settled_submit (backend w) d CallDestructor Hs) as (p & Hp & Heq).
  rewrite Heq in Ha.
  assert (phase_ok (@CallDestructor E T) p = true) as Hok by (by destruct Hp as [->| ->]).
  destruct (await_conf _ _ _ _ _ _ _ _ _ _ _ Hok Ha) as (p' & Hok' & Hf & Hc & ->).
  destruct p' as [| | | | | | | wt [|] | |]; try discriminate.
  inversion Hc; subst. cbn. repeat split; try done.
  unfold tr1, teardown, CoInitializer_dtor, me. rewrite <- !app_assoc. done.
Qed.

Lemma enter_rounds k d w n rest :
  settled d → (12 ≤ n)%nat → schedule w = rounds n ++ rest →
  is_Some (enter k d w).
Proof.
  intros Hs Hn Hsch. unfold enter. rewrite Hsch.
  destruct (settled_submit (backend w) d k Hs) as (p & Hp & ->).
  assert (phase_ok k p = true) as Hok by (by destruct Hp as [->| ->]; destruct k).
  assert (rank k p ≤ n)%nat as Hr by (destruct Hp as [->| ->]; destruct k; cbn; lia).
  destruct (await_rounds (backend w) (callers d) (dispatched_function d)
              (CoInitializeEx_ok d) (trace d) k n p rest Hok Hr)
    as [[[o1 [e1 d1]] sch1] Hx].
  unfold me in Hx. rewrite Hx. eauto.
Qed.

(** The same for a call that finds the dispatcher just constructed. *)
Lemma enter_dispatch_usable f d w o d' w' :
  usable d →
  enter (CallDispatch f) d w = Some ((o, d'), w') →
  o = (f (backend w)).2 ∧ backend w' = (f (backend w)).1 ∧ settled d'.
Proof.
  intros [Hs|[ok ->]] He.
  - by destruct (enter_dispatch_settled _ _ _ _ _ _ Hs He) as (? & ? & ? & _).
  - revert He. unfold enter.
    destruct (await _ _ _) as [[[o1 [e1 d1]] sch1]|] eqn:Ha; [|discriminate].
    intros H. inversion H; subst. clear H.
    destruct (await_startup (backend w) ok (CallDispatch f) _ Startup.FEntry _ _ _ Ha)
      as (p' & Hok' & Hf & Hc & ->).
    destruct p' as [| | | | | | | wt [|] | |]; try discriminate.
    inversion Hc; subst. cbn [ran]. split; [done|]. split; [done|].
    apply (conf_ran_settled (backend w) [] None ok [EvCoInitializeEx ok]
             (CallDispatch f) (Forall_nil_2 _) wt).
Qed.

Lemma enter_rounds_usable k d w n rest :
  usable d → (14 ≤ n)%nat → schedule w = rounds n ++ rest →
  is_Some (enter k d w).
Proof.
  intros [Hs|[ok ->]] Hn Hsch.
  - eapply (enter_rounds k d w n rest); [done|lia|done].
  - unfold enter. rewrite Hsch.
    destruct (await_startup_rounds (backend w) ok k n rest Hn)
      as [[[o1 [e1 d1]] sch1] Hx].
    change (backend w, submit k (CoThreadDispatcher_new ok))
      with (Startup.conf (backend w) ok k Startup.FEntry).
    cbn [length callers CoThreadDispatcher_new]. rewrite Hx. eauto.
Qed.

(** A call that finds the dispatcher just constructed and gets the first
    four turns does not return. *)
Lemma enter_caller_first k ok w sch :
  schedule w = Scenario.caller_first_turns ++ sch →
  enter k (CoThreadDispatcher_new ok) w = None.
Proof.
  intros Hsch. unfold enter. rewrite Hsch.
  change (backend w, submit k (CoThreadDispatcher_new ok))
    with (Startup.conf (backend w) ok k Startup.FEntry).
  change (length (callers (@CoThreadDispatcher_new E T ok))) with 0%nat.
  change (Scenario.caller_first_turns ++ sch)
    with (CallerTurn :: CallerTurn :: CallerTurn :: CallerTurn :: sch).
  by rewrite await_caller_first.
Qed.

(** [dispatch] on a dispatcher just constructed or settled. *)
Lemma dispatch_usable f w d :
  com_dispatcher w = Some d → usable d →
  (∀ o w', dispatch f w = Some (o, w') →
     o = (f (backend w)).2 ∧ backend w' = (f (backend w)).1 ∧
     (∃ d', com_dispatcher w' = Some d' ∧ settled d') ∧
     com_dispatcher_refcount w' = com_dispatcher_refcount w ∧
     history w' = history w) ∧
  (∀ n rest, (14 ≤ n)%nat → schedule w = rounds n ++ rest → is_Some (dispatch f w)).
Proof.
  intros Hd Hs. unfold dispatch. rewrite Hd. unfold bind. split.
  - intros o w'. destruct (enter _ _ _) as [[[o1 d1] w1]|] eqn:He; [|discriminate].
    cbn. intros H. inversion H; subst. clear H.
    destruct (enter_frame _ _ _ _ _ _ He) as (_ & Hrc & _ & Hh).
    destruct (enter_dispatch_usable _ _ _ _ _ _ Hs He) as (-> & Hb & Hs').
    cbn. eauto 10.
  - intros n rest Hn Hsch.
    destruct (enter_rounds_usable (CallDispatch f) d w n rest Hs Hn Hsch)
      as [[[o1 d1] w1] ->].
    cbn. eauto.
Qed.

(** [dispatch] on a settled dispatcher: what it returns when it returns,
    and that it returns when both threads get their turns. *)
Lemma dispatch_settled f w d :
  com_dispatcher w = Some d → settled d →
  (∀ o w', dispatch f w = Some (o, w') →
     o = (f (backend w)).2 ∧ backend w' = (f (backend w)).1 ∧
     (∃ d', com_dispatcher w' = Some d' ∧ settled d') ∧
     com_dispatcher_refcount w' = com_dispatcher_refcount w ∧
     history w' = history w) ∧
  (∀ n rest, (12 ≤ n)%nat → schedule w = rounds n ++ rest → is_Some (dispatch f w)).
Proof.
  intros Hd Hs. unfold dispatch. rewrite Hd. unfold bind. split.
  - intros o w'. destruct (enter _ _ _) as [[[o1 d1] w1]|] eqn:He; [|discriminate].
    cbn. intros H. inversion H; subst. clear H.
    destruct (enter_frame _ _ _ _ _ _ He) as (_ & Hrc & _ & Hh).
    destruct (enter_dispatch_settled _ _ _ _ _ _ Hs He) as (-> & Hb & Hs' & _).
    cbn. eauto 10.
  - intros n rest Hn Hsch.
    destruct (enter_rounds (CallDispatch f) d w n rest Hs Hn Hsch) as [[[o1 d1] w1] ->].
    cbn. eauto.
Qed.

(** [dispatch] never touches the registry, whatever state the dispatcher
    is in. *)
Lemma dispatch_frame f w o w' :
  dispatch f w = Some (o, w') →
  com_dispatcher_refcount w' = com_dispatcher_refcount w ∧
  history w' = history w ∧
  (is_Some (com_dispatcher w) ∧ is_Some (com_dispatcher w')).
Proof.
  unfold dispatch. destruct (com_dispatcher w) as [d|] eqn:Hd; [|discriminate].
  unfold bind. destruct (enter _ _ _) as [[[o1 d1] w1]|] eqn:He; [|discriminate].
  cbn. intros H. inversion H; subst. clear H.
  destruct (enter_frame _ _ _ _ _ _ He) as (_ & Hrc & _ & Hh). cbn. eauto.
Qed.

(** What deleting a dispatcher leaves behind. *)
Lemma delete_dispatcher_spec old w w' :
  delete_dispatcher old w = Some (tt, w') →
  com_dispatcher w' = com_dispatcher w ∧
  com_dispatcher_refcount w' = com_dispatcher_refcount w ∧
  match old with
  | None => history w' = history w ∧ backend w' = backend w
  | Some d =>
      ∃ d', history w' = history w ++ [EvDestroy d'] ∧
            (settled d →
             backend w' = backend w ∧
             dispatch_thread d' = WExited ∧ running d' = false ∧
             trace d' = trace d ++ [EvInvoke (length (callers d))]
                                ++ CoInitializer_dtor d
                                ++ [EvThreadExit; EvJoin (length (callers d))])
  end.
Proof.
  destruct old as [d|]; cbn.
  - unfold bind. destruct (enter _ _ _) as [[[o1 d1] w1]|] eqn:He; [|discriminate].
    cbn. intros H. inversion H; subst. clear H.
    destruct (enter_frame _ _ _ _ _ _ He) as (Hd & Hrc & _ & Hh). cbn.
    split; [done|]. split; [done|]. exists d1. rewrite Hh. split; [done|].
    intros Hs. destruct (enter_destructor_settled _ _ _ _ _ Hs He) as (? & ? & ? & _ & ?).
    done.
  - intros H. inversion H. done.
Qed.

Lemma delete_dispatcher_rounds d w n rest :
  settled d → (12 ≤ n)%nat → schedule w = rounds n ++ rest →
  is_Some (delete_dispatcher (Some d) w).
Proof.
  intros Hs Hn Hsch. cbn. unfold bind.
  destruct (enter_rounds CallDestructor d w n rest Hs Hn Hsch) as [[[o1 d1] w1] ->].
  cbn. eauto.
Qed.

End WorldFacts.

(** ** The registry *)

Section RegistryFacts.
Import Dispatcher Registry.
Context {E T : Type}.
Implicit Types (w : world E T) (d : dispatcher E T).

Lemma wrap32_small z : 0 ≤ z ≤ UINT32_MAX → wrap32 z = z.
Proof. unfold wrap32, UINT32_MAX. intros H. apply Z.mod_small. lia. Qed.

Lemma wrap32_range z : 0 ≤ wrap32 z ≤ UINT32_MAX.
Proof.
  unfold wrap32, UINT32_MAX.
  pose proof (Z.mod_pos_bound z 4294967296 ltac:(lia)). lia.
Qed.

Lemma constructions_app w (h : list (reg_event E T)) w' :
  history w' = history w ++ h →
  constructions w' = (constructions w + length (filter (λ ev, is_construct ev = true) h))%nat.
Proof. unfold constructions. intros ->. by rewrite filter_app, length_app. Qed.



Ltac count_events :=
  rewrite ?filter_cons, ?filter_nil; cbn; repeat case_decide; try done; cbn; lia.

(** What [com_dispatcher_addref] does when it returns. *)
Lemma addref_spec w w' :
  com_dispatcher_addref w = Some (tt, w') →
  com_dispatcher_refcount w' = wrap32 (com_dispatcher_refcount w + 1) ∧
  if com_dispatcher_refcount w =? 0
  then com_dispatcher w' = Some (CoThreadDispatcher_new (coinit_ok w)) ∧
       match com_dispatcher w with
       | None => history w' = history w ++ [EvAddref; EvConstruct]
       | Some _ => ∃ d', history w' = history w ++ [EvAddref; EvConstruct; EvDestroy d']
       end
  else com_dispatcher w' = com_dispatcher w ∧ history w' = history w ++ [EvAddref].
Proof.
  unfold com_dispatcher_addref, bind, modify, construct_if_first, increment, ret. cbn.
  destruct (com_dispatcher_refcount w =? 0) eqn:Hz.
  - unfold bind. cbn.
    destruct (delete_dispatcher _ _) as [[[] w1]|] eqn:Hdel; [|discriminate].
    intros H. inversion H; subst. clear H. cbn.
    destruct (delete_dispatcher_spec _ _ _ Hdel) as (Hd & Hrc & Hh). cbn in *.
    split; [by rewrite Hrc|]. split; [exact Hd|].
    destruct (com_dispatcher w).
    + destruct Hh as (d' & -> & _). exists d'. by rewrite <- !app_assoc.
    + destruct Hh as [-> _]. by rewrite <- !app_assoc.
  - intros H. inversion H; subst. done.
Qed.

(** What [com_dispatcher_release] does when it returns. *)
Lemma release_spec w w' :
  com_dispatcher_release w = Some (tt, w') →
  com_dispatcher_refcount w' = wrap32 (com_dispatcher_refcount w - 1) ∧
  if com_dispatcher_refcount w =? 1
  then com_dispatcher w' = None ∧
       ∃ w1, reset_if_last (record EvRelease w) = Some (tt, w1) ∧
             decrement w1 = Some (tt, w') ∧
             com_dispatcher_refcount w1 = 1 ∧ com_dispatcher w1 = None ∧
             match com_dispatcher w with
             | None => history w1 = history w ++ [EvRelease]
             | Some d =>
                 ∃ d', history w1 = history w ++ [EvRelease; EvDestroy d'] ∧
                       (settled d →
                        backend w1 = backend w ∧
                        dispatch_thread d' = WExited ∧ running d' = false ∧
                        trace d' = trace d ++ [EvInvoke (length (callers d))]
                                           ++ CoInitializer_dtor d
                                           ++ [EvThreadExit; EvJoin (length (callers d))])
             end
  else com_dispatcher w' = com_dispatcher w ∧ history w' = history w ++ [EvRelease].
Proof.
  unfold com_dispatcher_release, bind, modify. cbn.
  destruct (reset_if_last _) as [[[] w1]|] eqn:Hres; [|discriminate].
  unfold decrement at 1, modify. intros H. inversion H; subst. clear H. cbn.
  unfold reset_if_last in Hres. cbn in Hres.
  destruct (com_dispatcher_refcount w =? 1) eqn:Hz.
  - unfold bind, modify in Hres. cbn in Hres.
    destruct (delete_dispatcher_spec _ _ _ Hres) as (Hd & Hrc & Hh). cbn in *.
    apply Z.eqb_eq in Hz.
    split; [by rewrite Hrc|]. split; [done|]. exists w1.
    split; [|split; [reflexivity|split; [lia|split; [done|]]]].
    { reflexivity. }
    destruct (com_dispatcher w) as [d|].
    + destruct Hh as (d' & -> & Hs). exists d'. by rewrite <- !app_assoc.
    + destruct Hh as [-> _]. done.
  - inversion Hres; subst. done.
Qed.

Lemma addref_returns w : registry_inv w → is_Some (com_dispatcher_addref w).
Proof.
  intros Hinv.
  unfold com_dispatcher_addref, bind, modify, construct_if_first, increment, ret. cbn.
  destruct (com_dispatcher_refcount w =? 0) eqn:Hz; [|eauto].
  apply Z.eqb_eq in Hz. unfold bind. cbn.
  destruct (com_dispatcher w) as [d|] eqn:Hd; [|cbn; eauto].
  destruct Hinv as [_ Hinv]. rewrite Hd in Hinv. specialize (Hinv ltac:(eauto)). lia.
Qed.

Lemma release_returns w :
  (com_dispatcher_refcount w ≠ 1 → is_Some (com_dispatcher_release w)) ∧
  (∀ d n rest, com_dispatcher w = Some d → settled d → (12 ≤ n)%nat →
               schedule w = rounds n ++ rest → is_Some (com_dispatcher_release w)).
Proof.
  split.
  - intros Hz. apply Z.eqb_neq in Hz.
    unfold com_dispatcher_release, bind, modify, reset_if_last, decrement, ret. cbn.
    rewrite Hz. eauto.
  - intros d n rest Hd Hs Hn Hsch.
    unfold com_dispatcher_release, bind, modify, reset_if_last, decrement, ret. cbn.
    destruct (com_dispatcher_refcount w =? 1); [|eauto].
    unfold bind. cbn. rewrite Hd.
    destruct (delete_dispatcher_rounds d (set_dispatcher None (record EvRelease w))
                n rest Hs Hn Hsch) as [[[] w1] ->].
    eauto.
Qed.

(** Acquisitions on top of a held reference only count. *)
Lemma repeat_addref_held n : ∀ w,
  0 < com_dispatcher_refcount w →
  com_dispatcher_refcount w + Z.of_nat n ≤ UINT32_MAX →
  ∃ w', repeatM n com_dispatcher_addref w = Some (tt, w') ∧
        com_dispatcher_refcount w' = com_dispatcher_refcount w + Z.of_nat n ∧
        constructions w' = constructions w ∧
        com_dispatcher w' = com_dispatcher w.
Proof.
  induction n as [|n IH]; intros w Hpos Hmax.
  - exists w. cbn. split; [done|]. split; [lia|done].
  - cbn [repeatM]. unfold bind at 1.
    destruct (com_dispatcher_addref w) as [[[] w1]|] eqn:Ha.
    + destruct (addref_spec _ _ Ha) as [Hrc Hcase].
      destruct (com_dispatcher_refcount w =? 0) eqn:Hz; [apply Z.eqb_eq in Hz; lia|].
      destruct Hcase as [Hd Hh].
      rewrite wrap32_small in Hrc by lia.
      destruct (IH w1 ltac:(lia) ltac:(lia)) as (w' & Hrep & Hrc' & Hc' & Hd').
      exists w'. split; [done|]. split; [lia|]. split; [|congruence].
      rewrite Hc'. rewrite (constructions_app w _ w1 Hh). count_events.
    + exfalso. revert Ha.
      unfold com_dispatcher_addref, bind, modify, construct_if_first, increment, ret. cbn.
      destruct (com_dispatcher_refcount w =? 0) eqn:Hz; [apply Z.eqb_eq in Hz; lia|].
      discriminate.
Qed.






Lemma addref_keeps_inv w w' :
  registry_inv w → count_in_range w →
  com_dispatcher_refcount w < UINT32_MAX →
  com_dispatcher_addref w = Some (tt, w') →
  registry_inv w' ∧ count_in_range w'.
Proof.
  unfold registry_inv, count_in_range. intros Hinv Hr Hlt H.
  destruct (addref_spec _ _ H) as [Hrc Hcase].
  rewrite wrap32_small in Hrc by lia. rewrite Hrc.
  split; [|lia].
  destruct (com_dispatcher_refcount w =? 0) eqn:Hz.
  - destruct Hcase as [-> _]. split; [eauto|lia].
  - destruct Hcase as [-> _]. apply Z.eqb_neq in Hz.
    split; [intros _; apply Hinv; lia|lia].
Qed.

Lemma release_keeps_inv w w' :
  registry_inv w → count_in_range w →
  0 < com_dispatcher_refcount w →
  com_dispatcher_release w = Some (tt, w') →
  registry_inv w' ∧ count_in_range w'.
Proof.
  unfold registry_inv, count_in_range. intros Hinv Hr Hpos H.
  destruct (release_spec _ _ H) as [Hrc Hcase].
  rewrite wrap32_small in Hrc by lia. rewrite Hrc.
  split; [|lia].
  destruct (com_dispatcher_refcount w =? 1) eqn:Hz.
  - destruct Hcase as [-> _]. apply Z.eqb_eq in Hz. rewrite Hz.
    split; [lia|]. intros [? ?]. discriminate.
  - destruct Hcase as [-> _]. apply Z.eqb_neq in Hz.
    split; [intros _; apply Hinv; lia|lia].
Qed.

Lemma in_contract_inv w : in_contract w → registry_inv w ∧ count_in_range w.
Proof.
  induction 1 as [w [Hrc Hd]|w w' _ [Hinv Hr] Hlt Ha|w w' _ [Hinv Hr] Hpos Hrel
                 |w f o w' _ [Hinv Hr] Hdis].
  - unfold registry_inv, count_in_range, UINT32_MAX. rewrite Hrc, Hd.
    split; [|lia]. split; [lia|]. intros [? ?]. discriminate.
  - eapply addref_keeps_inv; eauto.
  - eapply release_keeps_inv; eauto.
  - destruct (dispatch_frame _ _ _ _ Hdis) as (Hrc & _ & Hs & Hs').
    unfold registry_inv, count_in_range in *. rewrite Hrc.
    split; [|done]. split; [done|]. intros _. by apply Hinv.
Qed.

(** An acquisition that constructs nothing or constructs on an empty
    pointer leaves the state of the worker alone. *)
Lemma addref_backend w w' :
  registry_inv w → com_dispatcher_addref w = Some (tt, w') →
  backend w' = backend w ∧ schedule w' = schedule w ∧ coinit_ok w' = coinit_ok w.
Proof.
  intros Hinv.
  unfold com_dispatcher_addref, bind, modify, construct_if_first, increment, ret. cbn.
  destruct (com_dispatcher_refcount w =? 0) eqn:Hz.
  - apply Z.eqb_eq in Hz. unfold bind. cbn.
    destruct (com_dispatcher w) as [d|] eqn:Hd.
    + destruct Hinv as [_ Hinv]. specialize (Hinv ltac:(eauto)). lia.
    + cbn. by intros [= <-].
  - by intros [= <-].
Qed.

Lemma addref_orderly w w' :
  orderly w → com_dispatcher_addref w = Some (tt, w') → orderly w'.
Proof.
  intros Ho H d Hd. destruct (addref_spec _ _ H) as [_ Hcase].
  destruct (com_dispatcher_refcount w =? 0).
  - destruct Hcase as [Hnew _]. rewrite Hnew in Hd. inversion Hd. right. eauto.
  - destruct Hcase as [Hsame _]. rewrite Hsame in Hd. by apply Ho.
Qed.

Lemma release_orderly w w' :
  orderly w → com_dispatcher_release w = Some (tt, w') → orderly w'.
Proof.
  intros Ho H d Hd. destruct (release_spec _ _ H) as [_ Hcase].
  destruct (com_dispatcher_refcount w =? 1).
  - destruct Hcase as [Hnone _]. rewrite Hnone in Hd. discriminate.
  - destruct Hcase as [Hsame _]. rewrite Hsame in Hd. by apply Ho.
Qed.

Lemma dispatch_orderly f w o w' :
  orderly w → dispatch f w = Some (o, w') → orderly w'.
Proof.
  intros Ho H d' Hd'.
  destruct (dispatch_frame _ _ _ _ H) as (_ & _ & [d Hd] & _).
  destruct (dispatch_usable f w d Hd (Ho d Hd)) as [Hpart _].
  destruct (Hpart o w' H) as (_ & _ & (d1 & Hd1 & Hs1) & _).
  rewrite Hd1 in Hd'. inversion Hd'; subst. by left.
Qed.

(** Kept to its contract, the registry is orderly. *)
Lemma in_contract_orderly w : in_contract w → orderly w.
Proof.
  induction 1 as [w [_ Hd]|w w' _ IH _ Ha|w w' _ IH _ Hrel|w f o w' _ IH Hdis].
  - intros d Hd'. rewrite Hd in Hd'. discriminate.
  - eapply addref_orderly; eauto.
  - eapply release_orderly; eauto.
  - eapply dispatch_orderly; eauto.
Qed.

(** C3 (amended): the registry invariant, count positive exactly when the
    shared dispatcher exists, holds in every state reached through calls
    that keep to the contract of the design, and it is preserved by every
    [com_dispatcher_addref] made while the count is below [UINT32_MAX] and
    by every [com_dispatcher_release] made while the count is positive;
    each call is one transition, made under the one mutex. *)
Theorem registry_inv_in_contract w :
  (in_contract w → registry_inv w) ∧
  (registry_inv w → count_in_range w → ∀ w',
     (com_dispatcher_refcount w < UINT32_MAX →
      com_dispatcher_addref w = Some (tt, w') → registry_inv w') ∧
     (0 < com_dispatcher_refcount w →
      com_dispatcher_release w = Some (tt, w') → registry_inv w')).
Proof.
  split.
  - intros H. by apply in_contract_inv.
  - intros Hinv Hr w'. split.
    + intros Hlt H. by destruct (addref_keeps_inv _ _ Hinv Hr Hlt H).
    + intros Hpos H. by destruct (release_keeps_inv _ _ Hinv Hr Hpos H).
Qed.

(** C5: [com_dispatcher_release] decrements the count, and when the count
    reaches 0 the shared dispatcher has been destroyed before the call
    returns: the pointer is null, the destructor has returned, and for a
    dispatcher that was between calls the destructor's unit of work was the
    last one run, the worker has left its loop and the thread has exited
    and been joined. A release that does not bring the count to 0 leaves
    the dispatcher alone. The call returns whenever no destruction is due,
    and also when it is, given turns for the two threads. *)
Theorem release_decrements_and_destroys w :
  count_in_range w →
  (∀ w', com_dispatcher_release w = Some (tt, w') →
     com_dispatcher_refcount w' = wrap32 (com_dispatcher_refcount w - 1) ∧
     (com_dispatcher_refcount w' = 0 →
      com_dispatcher w' = None ∧
      ∀ d, com_dispatcher w = Some d →
           ∃ d', history w' = history w ++ [EvRelease; EvDestroy d'] ∧
                 (settled d →
                  dispatch_thread d' = WExited ∧ running d' = false ∧
                  trace d' = trace d ++ [EvInvoke (length (callers d))]
                                     ++ CoInitializer_dtor d
                                     ++ [EvThreadExit; EvJoin (length (callers d))])) ∧
     (com_dispatcher_refcount w' ≠ 0 →
      com_dispatcher w' = com_dispatcher w ∧ history w' = history w ++ [EvRelease])) ∧
  (com_dispatcher_refcount w ≠ 1 → is_Some (com_dispatcher_release w)) ∧
  (∀ d n rest, com_dispatcher w = Some d → settled d → (12 ≤ n)%nat →
               schedule w = rounds n ++ rest → is_Some (com_dispatcher_release w)).
Proof.
  intros Hr. split; [|apply release_returns].
  intros w' H. destruct (release_spec _ _ H) as [Hrc Hcase].
  split; [done|].
  destruct (com_dispatcher_refcount w =? 1) eqn:Hz.
  - apply Z.eqb_eq in Hz. split.
    + intros _. destruct Hcase as (Hd & w1 & _ & Hdec & _ & _ & Hh).
      split; [done|]. intros d Hwd. rewrite Hwd in Hh.
      destruct Hh as (d' & Hh & Hs). exists d'.
      assert (history w' = history w1) as -> by (inversion Hdec; done).
      split; [done|]. intros Hsd. by destruct (Hs Hsd) as (_ & ? & ? & ?).
    + intros Hne. rewrite Hrc, Hz in Hne. by compute in Hne.
  - apply Z.eqb_neq in Hz. split; [|done].
    intros H0. rewrite Hrc in H0. unfold count_in_range, UINT32_MAX in Hr.
    destruct (decide (com_dispatcher_refcount w = 0)) as [Hw|Hw].
    + rewrite Hw in H0. by compute in H0.
    + unfold wrap32 in H0. rewrite Z.mod_small in H0 by lia. lia.
Qed.

(** One acquisition on a registry that satisfies its invariant. *)
Lemma addref_once w :
  registry_inv w → count_in_range w →
  ∃ w', com_dispatcher_addref w = Some (tt, w') ∧
        com_dispatcher_refcount w' = wrap32 (com_dispatcher_refcount w + 1) ∧
        is_Some (com_dispatcher w') ∧
        (if com_dispatcher_refcount w =? 0
         then constructions w' = S (constructions w) ∧
              com_dispatcher w' = Some (CoThreadDispatcher_new (coinit_ok w))
         else constructions w' = constructions w ∧
              com_dispatcher w' = com_dispatcher w).
Proof.
  intros Hinv Hr.
  destruct (addref_returns w Hinv) as [[[] w'] H]. exists w'.
  destruct (addref_spec _ _ H) as [Hrc Hcase].
  split; [done|]. split; [done|].
  destruct (com_dispatcher_refcount w =? 0) eqn:Hz.
  - destruct Hcase as [Hd Hh]. rewrite Hd. split; [eauto|]. split; [|done].
    apply Z.eqb_eq in Hz. destruct (com_dispatcher w) as [d|] eqn:Hwd.
    + destruct Hinv as [_ Hinv]. specialize (Hinv ltac:(eauto)). lia.
    + rewrite (constructions_app w _ w' Hh). count_events.
  - destruct Hcase as [Hd Hh]. apply Z.eqb_neq in Hz. rewrite Hd.
    split; [apply Hinv; unfold count_in_range in Hr; lia|].
    split; [|done]. rewrite (constructions_app w _ w' Hh). count_events.
Qed.

(** [n] acquisitions on an unused registry, for [n] a positive value of
    the count. *)
Lemma repeat_addref_unused w n :
  unused w → (0 < n)%nat → Z.of_nat n ≤ UINT32_MAX →
  ∃ w', repeatM n com_dispatcher_addref w = Some (tt, w') ∧
        com_dispatcher_refcount w' = Z.of_nat n ∧
        constructions w' = S (constructions w) ∧
        com_dispatcher w' = Some (CoThreadDispatcher_new (coinit_ok w)).
Proof.
  intros [Hrc0 Hd0] Hn Hmax. destruct n as [|n]; [lia|].
  assert (registry_inv w) as Hinv.
  { unfold registry_inv. rewrite Hrc0, Hd0. split; [lia|]. intros [? ?]. discriminate. }
  assert (count_in_range w) as Hr.
  { unfold count_in_range, UINT32_MAX. rewrite Hrc0. lia. }
  destruct (addref_once w Hinv Hr) as (w1 & Ha & Hrc1 & _ & Hcase).
  rewrite Hrc0 in Hrc1, Hcase.
  change (0 =? 0) with true in Hcase. cbv iota in Hcase. destruct Hcase as [Hc1 Hd1].
  change (wrap32 (0 + 1)) with 1 in Hrc1.
  destruct (repeat_addref_held n w1 ltac:(lia) ltac:(lia)) as (w' & Hrep & Hrc' & Hc' & Hd').
  exists w'. cbn [repeatM]. unfold bind at 1. rewrite Ha.
  split; [exact Hrep|]. split; [lia|]. split; congruence.
Qed.

Lemma repeatM_add (m : M E T unit) a b w :
  repeatM (a + b) m w = bind (repeatM a m) (λ _, repeatM b m) w.
Proof.
  revert w. induction a as [|a IH]; intros w.
  - reflexivity.
  - change (S a + b)%nat with (S (a + b)). cbn [repeatM]. unfold bind.
    destruct (m w) as [[[] w1]|]; [|reflexivity].
    rewrite IH. reflexivity.
Qed.

(** C6 (amended): [com_dispatcher_addref] constructs a new dispatcher,
    whose thread starts at [threadProc], exactly when the count is 0,
    increments the count and leaves the shared dispatcher in place for the
    caller; [n] acquisitions from an unused registry, for [n] from 1 to
    [UINT32_MAX], construct exactly once and leave the count at [n]. Every
    one of these calls returns. *)
Theorem addref_constructs_once w :
  registry_inv w → count_in_range w →
  (∃ w', com_dispatcher_addref w = Some (tt, w') ∧
         com_dispatcher_refcount w' = wrap32 (com_dispatcher_refcount w + 1) ∧
         is_Some (com_dispatcher w') ∧
         (if com_dispatcher_refcount w =? 0
          then constructions w' = S (constructions w) ∧
               com_dispatcher w' = Some (CoThreadDispatcher_new (coinit_ok w))
          else constructions w' = constructions w ∧
               com_dispatcher w' = com_dispatcher w)) ∧
  (∀ n, unused w → (0 < n)%nat → Z.of_nat n ≤ UINT32_MAX →
        ∃ w', repeatM n com_dispatcher_addref w = Some (tt, w') ∧
              com_dispatcher_refcount w' = Z.of_nat n ∧
              constructions w' = S (constructions w) ∧
              com_dispatcher w' = Some (CoThreadDispatcher_new (coinit_ok w))).
Proof.
  intros Hinv Hr. split.
  - by apply addref_once.
  - intros n. apply repeat_addref_unused.
Qed.

(** Outside that range the count of acquisitions and the registry part
    ways: no acquisition constructs nothing, and 2^32 acquisitions wrap
    the [uint32_t] count to 0. *)
Lemma acquisitions_outside_range w :
  unused w →
  (∃ w', repeatM 0 com_dispatcher_addref w = Some (tt, w') ∧
         constructions w' = constructions w ∧
         constructions w' ≠ S (constructions w)) ∧
  (∃ w', repeatM (Z.to_nat 4294967296) com_dispatcher_addref w = Some (tt, w') ∧
         com_dispatcher_refcount w' = 0 ∧
         com_dispatcher_refcount w' ≠ 4294967296).
Proof.
  intros Hu. split.
  - exists w. split; [reflexivity|]. split; [reflexivity|]. lia.
  - destruct (repeat_addref_unused w (Z.to_nat UINT32_MAX) Hu)
      as (w1 & Hrep & Hrc1 & _ & Hd1).
    { unfold UINT32_MAX. lia. }
    { unfold UINT32_MAX. lia. }
    assert (com_dispatcher_refcount w1 = UINT32_MAX) as Hmax
        by (rewrite Hrc1; unfold UINT32_MAX; lia).
    assert (registry_inv w1) as Hinv1.
    { unfold registry_inv. rewrite Hmax, Hd1. unfold UINT32_MAX. split; [eauto|lia]. }
    destruct (addref_returns w1 Hinv1) as [[[] w'] Ha].
    destruct (addref_spec _ _ Ha) as [Hrc' _].
    exists w'.
    assert (Z.to_nat 4294967296 = (Z.to_nat UINT32_MAX + 1)%nat) as ->
        by (unfold UINT32_MAX; lia).
    rewrite repeatM_add. unfold bind at 1. rewrite Hrep.
    change (repeatM 1 com_dispatcher_addref w1)
      with (bind com_dispatcher_addref (λ _ : unit, ret tt) w1).
    unfold bind. rewrite Ha. cbv beta iota. unfold ret.
    rewrite Hrc', Hmax.
    change (wrap32 (UINT32_MAX + 1)) with 0.
    split; [reflexivity|]. split; [reflexivity|]. lia.
Qed.

(** The destruction of the shared dispatcher inside
    [com_dispatcher_release] when the dispatcher is between calls, with no
    other thread inside it. The shutdown request goes through the same
    slot as any unit of work and is invoked after all work already done;
    then [CoUninitialize] runs (when COM had been initialised), then the
    worker thread exits, then [join] returns and with it the destructor;
    at that point the count is still 1, and only the decrement that follows
    brings it to 0, with the pointer null. *)
Lemma shutdown_on_settled w d w' :
  com_dispatcher w = Some d → settled d →
  com_dispatcher_refcount w = 1 →
  com_dispatcher_release w = Some (tt, w') →
  ∃ w1 d',
    reset_if_last (record EvRelease w) = Some (tt, w1) ∧
    com_dispatcher_refcount w1 = 1 ∧
    com_dispatcher w1 = None ∧
    history w1 = history w ++ [EvRelease; EvDestroy d'] ∧
    trace d' = trace d ++ [EvInvoke (length (callers d))]
                       ++ (if CoInitializeEx_ok d then [EvCoUninitialize] else [])
                       ++ [EvThreadExit; EvJoin (length (callers d))] ∧
    dispatch_thread d' = WExited ∧
    decrement w1 = Some (tt, w') ∧
    com_dispatcher_refcount w' = 0 ∧
    com_dispatcher w' = None ∧
    history w' = history w1.
Proof.
  intros Hd Hs Hrc H. destruct (release_spec _ _ H) as [Hrc' Hcase].
  rewrite Hrc in Hrc', Hcase. cbn in Hcase.
  destruct Hcase as (Hd' & w1 & Hres & Hdec & Hrc1 & Hd1 & Hh).
  rewrite Hd in Hh. destruct Hh as (d' & Hh & Hex).
  destruct (Hex Hs) as (_ & Hth & _ & Htr).
  exists w1, d'. do 8 (split; [done|]). split; [done|].
  unfold decrement, modify in Hdec. by inversion Hdec.
Qed.

End RegistryFacts.

(** ** The provider entry points *)

Section EntryFacts.
Import Dispatcher Registry Provider.
Context {E T : Type}.

(** An entry point that returns hands back what its dispatched call
    returned, and that is no exception. *)
Lemma c_entry_sound (m : M E T (outcome T)) w o w' :
  c_entry m w = Some (o, w') → m w = Some (o, w') ∧ ∀ x, o ≠ Raised x.
Proof.
  unfold c_entry, bind. destruct (m w) as [[o1 w1]|]; [|discriminate].
  destruct o1; try discriminate; unfold ret; intros [= <- <-]; done.
Qed.

Lemma c_entry_exact (m : M E T (outcome T)) w o w' :
  m w = Some (o, w') → (∀ x, o ≠ Raised x) → c_entry m w = Some (o, w').
Proof.
  intros H Ho. unfold c_entry, bind. rewrite H.
  destruct o; try reflexivity. by destruct (Ho e).
Qed.

(** An entry point whose callable ends in no exception and no access
    violation returns when its dispatched call does. *)
Lemma c_entry_returns (f : E → E * outcome T) w :
  (∀ e x, (f e).2 ≠ Raised x) →
  is_Some (dispatch f w) → is_Some (c_entry (dispatch f) w).
Proof.
  intros Hf [[o w'] H]. exists (o, w'). apply c_entry_exact; [done|].
  exact (dispatch_outcome (λ o, ∀ x, o ≠ Raised x) f w o w' Hf H).
Qed.

End EntryFacts.

Section ProviderFacts.
Import Dispatcher Registry Provider.
Variable api : com_api.
Implicit Types (w : world com_world value) (d : dispatcher com_world value).

(** The callables that need the factory give up without calling COM when
    it is absent. *)
Lemma absent_factory_work prov tag cw :
  provider_user_data prov = Some {| spellCheckerFactory := None |} →
  windows_provider_request_dict_work api prov tag cw = (cw, Returned (VDict None)) ∧
  windows_provider_list_dicts_work api prov cw = (cw, Returned (VStrings None None)) ∧
  windows_provider_dictionary_exists_work api prov tag cw = (cw, Returned (VInt (-1))).
Proof.
  intros H.
  unfold windows_provider_request_dict_work, windows_provider_list_dicts_work,
    windows_provider_dictionary_exists_work.
  rewrite H. done.
Qed.

(** Above the length limit the conversion yields null and the callables of
    [windows_dict_check] and [windows_dict_suggest] return at once. *)
Lemma overlong_work dict word len cw :
  kMaxUTF8WordLengthInBytes < len →
  copy_utf8_to_utf16 api word len = None ∧
  windows_dict_check_work api dict word len cw = (cw, Returned (VInt (-1))) ∧
  windows_dict_suggest_work api dict word len cw = (cw, Returned (VStrings None None)).
Proof.
  intros H.
  assert (copy_utf8_to_utf16 api word len = None) as Hc.
  { unfold copy_utf8_to_utf16. destruct (len >? kMaxUTF8WordLengthInBytes) eqn:Hg; [done|].
    rewrite Z.gtb_ltb in Hg. apply Z.ltb_ge in Hg. lia. }
  unfold windows_dict_check_work, windows_dict_suggest_work. rewrite Hc. done.
Qed.

(** A dictionary without user data or without a spell checker, and a word
    within the length limit: the callable dereferences a null pointer
    (line 268) and [windows_dict_check] does not return, whatever state
    the dispatcher is in. *)
Lemma null_checker_no_return dict word len w :
  len ≤ kMaxUTF8WordLengthInBytes →
  dict_user_data dict = None ∨ dict_user_data dict = Some {| spellChecker := None |} →
  windows_dict_check api dict word len w = None.
Proof.
  intros Hlen Hnull. unfold windows_dict_check, c_entry, bind.
  destruct (dispatch _ w) as [[o w']|] eqn:H; [|done].
  assert (o = null_deref) as ->; [|done].
  apply (dispatch_outcome (λ o, o = null_deref)
           (windows_dict_check_work api dict word len) w o w'); [|exact H].
  intros e. unfold windows_dict_check_work, copy_utf8_to_utf16.
  destruct (len >? kMaxUTF8WordLengthInBytes) eqn:Hg.
  { rewrite Z.gtb_ltb in Hg. apply Z.ltb_lt in Hg. lia. }
  by destruct Hnull as [-> | ->].
Qed.

(** [init_enchant_provider] on an orderly registry: when it returns, the
    provider holds whatever factory [CoCreateInstance] gave, null
    included, and the dispatcher is settled. *)
Lemma init_enchant_provider_serves w p w' :
  registry_inv w → count_in_range w → orderly w →
  init_enchant_provider api w = Some (p, w') →
  p = Some (new_provider
              (Some {| spellCheckerFactory := (CoCreateInstance api (backend w)).2 |})) ∧
  backend w' = backend w ++ [ComCoCreateInstance] ∧
  com_dispatcher_refcount w' = wrap32 (com_dispatcher_refcount w + 1) ∧
  ∃ d', com_dispatcher w' = Some d' ∧ settled d'.
Proof.
  intros Hinv Hr Ho. unfold init_enchant_provider, init_enchant_provider_with, bind.
  destruct (com_dispatcher_addref w) as [[[] w1]|] eqn:Ha; [|discriminate].
  destruct (dispatch _ w1) as [[o w2]|] eqn:Hdis; [|discriminate].
  pose proof (proj1 (addref_backend _ _ Hinv Ha)) as Hb1.
  pose proof (addref_orderly _ _ Ho Ha) as Ho1.
  destruct (addref_spec _ _ Ha) as [Hrc1 _].
  destruct (dispatch_frame _ _ _ _ Hdis) as (_ & _ & [d1 Hd1] & _).
  destruct (dispatch_usable (init_enchant_provider_work api) w1 d1 Hd1 (Ho1 d1 Hd1))
    as [Hpart _].
  destruct (Hpart o w2 Hdis) as (-> & Hb2 & Hd2 & Hrc2 & _).
  clear Hpart Hdis. unfold init_enchant_provider_work in *. rewrite Hb1 in Hb2 |- *.
  destruct (CoCreateInstance api (backend w)) as [hr f]. cbn in *.
  unfold ret. intros [= <- <-]. rewrite Hrc2, Hrc1. done.
Qed.

(** [init_enchant_provider] on an unused registry does not return when
    the calling thread gets the first four turns. *)
Lemma init_enchant_provider_caller_first w sch :
  unused w → schedule w = Scenario.caller_first_turns ++ sch →
  init_enchant_provider api w = None.
Proof.
  intros [Hrc Hd] Hsch.
  assert (registry_inv w) as Hinv.
  { unfold registry_inv. rewrite Hrc, Hd. split; [lia|]. intros [? ?]. discriminate. }
  unfold init_enchant_provider, init_enchant_provider_with, bind at 1.
  destruct (com_dispatcher_addref w) as [[[] w1]|] eqn:Ha; [|done].
  destruct (addref_backend _ _ Hinv Ha) as (_ & Hs1 & _).
  destruct (addref_spec _ _ Ha) as [_ Hcase]. rewrite Hrc in Hcase. cbn in Hcase.
  destruct Hcase as [Hd1 _].
  unfold dispatch, bind. rewrite Hd1.
  rewrite (enter_caller_first _ _ w1 sch); [done|]. by rewrite Hs1.
Qed.

(** C8: losing the thread's root resource does not stop the dispatcher.
    Whatever [CoInitializeEx] answers, the new worker sets [running] and
    reaches its wait; when [CoCreateInstance] yields no factory,
    [init_enchant_provider] still hands out a provider, with a null
    factory, and leaves the dispatcher settled; each of
    [windows_provider_request_dict], [windows_provider_list_dicts] and
    [windows_provider_dictionary_exists] on such a provider is then
    executed, returns (given turns for the two threads) null, null and -1
    without calling COM, and leaves the dispatcher ready for further
    work. *)
Theorem absent_factory_fails_calls prov w d :
  provider_user_data prov = Some {| spellCheckerFactory := None |} →
  com_dispatcher w = Some d → usable d →
  (∀ (ok : bool) (e : com_world),
     ∃ d1 : dispatcher com_world value,
       run [Worker; Worker; Worker] (e, CoThreadDispatcher_new ok) = Some (e, d1) ∧
       settled d1 ∧ CoInitializeEx_ok d1 = ok) ∧
  (∀ w0 p w1,
     registry_inv w0 → count_in_range w0 → orderly w0 →
     (CoCreateInstance api (backend w0)).2 = None →
     init_enchant_provider api w0 = Some (p, w1) →
     p = Some (new_provider (Some {| spellCheckerFactory := None |})) ∧
     ∃ d1, com_dispatcher w1 = Some d1 ∧ settled d1) ∧
  (∀ tag o w', windows_provider_request_dict api prov tag w = Some (o, w') →
     o = Returned (VDict None) ∧ backend w' = backend w ∧
     ∃ d', com_dispatcher w' = Some d' ∧ settled d') ∧
  (∀ o w', windows_provider_list_dicts api prov w = Some (o, w') →
     o = Returned (VStrings None None) ∧ backend w' = backend w ∧
     ∃ d', com_dispatcher w' = Some d' ∧ settled d') ∧
  (∀ tag o w', windows_provider_dictionary_exists api prov tag w = Some (o, w') →
     o = Returned (VInt (-1)) ∧ backend w' = backend w ∧
     ∃ d', com_dispatcher w' = Some d' ∧ settled d') ∧
  (∀ n rest tag, (14 ≤ n)%nat → schedule w = rounds n ++ rest →
     is_Some (windows_provider_request_dict api prov tag w) ∧
     is_Some (windows_provider_list_dicts api prov w) ∧
     is_Some (windows_provider_dictionary_exists api prov tag w)).
Proof.
  intros Hp Hd Hs.
  split; [|split; [|split; [|split; [|split]]]].
  - intros ok e. eexists. split; [reflexivity|]. split; [|done].
    split; [done|]. split; [constructor|]. left. done.
  - intros w0 p w1 Hinv Hr Ho Hnone Hinit.
    destruct (init_enchant_provider_serves _ _ _ Hinv Hr Ho Hinit) as (-> & _ & _ & Hd1).
    by rewrite Hnone.
  - intros tag o w' H. apply c_entry_sound in H as [H _].
    destruct (dispatch_usable (windows_provider_request_dict_work api prov tag) w d Hd Hs)
      as [Hpart _].
    destruct (Hpart o w' H) as (-> & -> & Hd' & _).
    destruct (absent_factory_work prov tag (backend w) Hp) as (-> & _ & _). done.
  - intros o w' H. apply c_entry_sound in H as [H _].
    destruct (dispatch_usable (windows_provider_list_dicts_work api prov) w d Hd Hs)
      as [Hpart _].
    destruct (Hpart o w' H) as (-> & -> & Hd' & _).
    destruct (absent_factory_work prov [] (backend w) Hp) as (_ & -> & _). done.
  - intros tag o w' H. apply c_entry_sound in H as [H _].
    destruct (dispatch_usable (windows_provider_dictionary_exists_work api prov tag)
                w d Hd Hs) as [Hpart _].
    destruct (Hpart o w' H) as (-> & -> & Hd' & _).
    destruct (absent_factory_work prov tag (backend w) Hp) as (_ & _ & ->). done.
  - intros n rest tag Hn Hsch.
    unfold windows_provider_request_dict, windows_provider_list_dicts,
      windows_provider_dictionary_exists.
    repeat split; (apply c_entry_returns;
      [intros e x; destruct (absent_factory_work prov tag e Hp) as (H1 & H2 & H3);
       rewrite ?H1, ?H2, ?H3; discriminate
      |eapply (proj2 (dispatch_usable _ w d Hd Hs)); eauto]).
Qed.

(** C10: a word whose given length exceeds
    [kMaxUTF8WordLengthInBytes] = 4 * [kMaxWordLength] = 512 bytes is not
    converted; [windows_dict_check] returns -1 and [windows_dict_suggest]
    returns null, for every dictionary, and the state of COM is the same
    after the call as before, so the spell checker has not been called.
    Both calls return, given turns for the two threads. *)
Theorem overlong_word_rejected dict word len w d :
  kMaxUTF8WordLengthInBytes < len →
  com_dispatcher w = Some d → usable d →
  kMaxUTF8WordLengthInBytes = 4 * kMaxWordLength ∧
  kMaxUTF8WordLengthInBytes = 512 ∧
  copy_utf8_to_utf16 api word len = None ∧
  (∀ o w', windows_dict_check api dict word len w = Some (o, w') →
     o = Returned (VInt (-1)) ∧ backend w' = backend w) ∧
  (∀ o w', windows_dict_suggest api dict word len w = Some (o, w') →
     o = Returned (VStrings None None) ∧ backend w' = backend w) ∧
  (∀ n rest, (14 ≤ n)%nat → schedule w = rounds n ++ rest →
     is_Some (windows_dict_check api dict word len w) ∧
     is_Some (windows_dict_suggest api dict word len w)).
Proof.
  intros Hlen Hd Hs.
  split; [done|]. split; [done|].
  destruct (overlong_work dict word len (backend w) Hlen) as (Hc & Hck & Hsg).
  split; [done|]. split; [|split].
  - intros o w' H. apply c_entry_sound in H as [H _].
    destruct (dispatch_usable (windows_dict_check_work api dict word len) w d Hd Hs)
      as [Hpart _].
    destruct (Hpart o w' H) as (-> & -> & _). by rewrite Hck.
  - intros o w' H. apply c_entry_sound in H as [H _].
    destruct (dispatch_usable (windows_dict_suggest_work api dict word len) w d Hd Hs)
      as [Hpart _].
    destruct (Hpart o w' H) as (-> & -> & _). by rewrite Hsg.
  - intros n rest Hn Hsch. unfold windows_dict_check, windows_dict_suggest.
    split; (apply c_entry_returns;
      [intros e x; destruct (overlong_work dict word len e Hlen) as (_ & H1 & H2);
       rewrite ?H1, ?H2; discriminate
      |eapply (proj2 (dispatch_usable _ w d Hd Hs)); eauto]).
Qed.


End ProviderFacts.

(** ** The theorems at concrete inputs *)

Section Witnesses.
Import Dispatcher Registry Provider Scenario.

Lemma fresh_world_inv : registry_inv (fresh_world 0) ∧ count_in_range (fresh_world 0).
Proof.
  split; [split|].
  - intros H. by compute in H.
  - intros [? H]. discriminate H.
  - split; by compute.
Defined.

Lemma fresh_world_unused n : unused (fresh_world n).
Proof. split; reflexivity. Defined.

Lemma registry_inv_in_contract_witness :
  in_contract (world_after com_dispatcher_addref (fresh_world 20)) ∧
  registry_inv (world_after com_dispatcher_addref (fresh_world 20)) ∧
  (∃ w', com_dispatcher_addref (world_after com_dispatcher_addref (fresh_world 20))
         = Some (tt, w') ∧ registry_inv w') ∧
  (∃ w', com_dispatcher_release (world_after com_dispatcher_addref (fresh_world 20))
         = Some (tt, w') ∧ registry_inv w').
Proof.
  assert (in_contract (world_after com_dispatcher_addref (fresh_world 20))) as Hc.
  { eapply (contract_addref (fresh_world 20));
      [apply contract_unused, fresh_world_unused|by compute|reflexivity]. }
  pose proof (registry_inv_in_contract (world_after com_dispatcher_addref (fresh_world 20)))
    as [Hinv Hkeep].
  split; [exact Hc|]. split; [exact (Hinv Hc)|].
  assert (count_in_range (world_after com_dispatcher_addref (fresh_world 20))) as Hr
      by (split; by compute).
  split.
  - exists (world_after com_dispatcher_addref
              (world_after com_dispatcher_addref (fresh_world 20))).
    assert (com_dispatcher_addref (world_after com_dispatcher_addref (fresh_world 20))
            = Some (tt, world_after com_dispatcher_addref
                          (world_after com_dispatcher_addref (fresh_world 20)))) as Ha
        by (vm_compute; reflexivity).
    split; [exact Ha|].
    exact (proj1 (Hkeep (Hinv Hc) Hr _) ltac:(by compute) Ha).
  - exists (world_after com_dispatcher_release
              (world_after com_dispatcher_addref (fresh_world 20))).
    assert (com_dispatcher_release (world_after com_dispatcher_addref (fresh_world 20))
            = Some (tt, world_after com_dispatcher_release
                          (world_after com_dispatcher_addref (fresh_world 20)))) as Hrel
        by (vm_compute; reflexivity).
    split; [exact Hrel|].
    exact (proj2 (Hkeep (Hinv Hc) Hr _) ltac:(by compute) Hrel).
Defined.

(** C3, as stated, fails on the code: a release at count 0 wraps the
    count to [UINT32_MAX] with no dispatcher, and an acquisition at count
    [UINT32_MAX] wraps it to 0 with the dispatcher still there. *)
Lemma registry_inv_broken_by_wrap :
  (registry_inv (fresh_world 0) ∧
   ∃ w', com_dispatcher_release (fresh_world 0) = Some (tt, w') ∧
         com_dispatcher_refcount w' = UINT32_MAX ∧ com_dispatcher w' = None ∧
         ¬ registry_inv w') ∧
  (registry_inv full_world ∧
   ∃ w', com_dispatcher_addref full_world = Some (tt, w') ∧
         com_dispatcher_refcount w' = 0 ∧ is_Some (com_dispatcher w') ∧
         ¬ registry_inv w').
Proof.
  split.
  - split; [apply fresh_world_inv|].
    eexists. split; [reflexivity|]. split; [reflexivity|]. split; [reflexivity|].
    intros [H _]. destruct (H ltac:(by compute)) as [? ?]. discriminate.
  - split.
    + split; [intros _; cbn; eauto|intros _; by compute].
    + eexists. split; [reflexivity|]. split; [reflexivity|]. split; [cbn; eauto|].
      intros [_ H]. specialize (H ltac:(cbn; eauto)). by compute in H.
Qed.

Lemma release_decrements_and_destroys_witness :
  count_in_range (held_world 12) ∧
  com_dispatcher_release (held_world 12) = Some (tt, held_world_released) ∧
  com_dispatcher_refcount held_world_released = 0 ∧
  com_dispatcher held_world_released = None.
Proof.
  assert (count_in_range (held_world 12)) as Hr by (split; by compute).
  assert (com_dispatcher_release (held_world 12) = Some (tt, held_world_released)) as Hrel
      by (vm_compute; reflexivity).
  destruct (release_decrements_and_destroys (held_world 12) Hr) as [Hspec _].
  destruct (Hspec _ Hrel) as (Hrc & Hzero & _).
  split; [exact Hr|]. split; [exact Hrel|].
  assert (com_dispatcher_refcount held_world_released = 0) as H0 by (vm_compute; reflexivity).
  split; [exact H0|]. exact (proj1 (Hzero H0)).
Defined.

Lemma addref_constructs_once_witness :
  registry_inv (fresh_world 0) ∧ count_in_range (fresh_world 0) ∧
  unused (fresh_world 0) ∧ (0 < 3)%nat ∧ Z.of_nat 3 ≤ UINT32_MAX ∧
  ∃ w', repeatM 3 com_dispatcher_addref (fresh_world 0) = Some (tt, w') ∧
        com_dispatcher_refcount w' = 3 ∧
        constructions w' = 1%nat.
Proof.
  destruct fresh_world_inv as [Hinv Hr].
  split; [exact Hinv|]. split; [exact Hr|]. split; [apply fresh_world_unused|].
  split; [lia|]. split; [by compute|].
  destruct (addref_constructs_once (fresh_world 0) Hinv Hr) as [_ Hn].
  destruct (Hn 3%nat (fresh_world_unused 0) ltac:(lia) ltac:(by compute))
    as (w' & H1 & H2 & H3 & _).
  exists w'. split; [exact H1|]. split; [exact H2|exact H3].
Defined.

(** C6, as stated, fails on the code at both ends of the range. From the
    unused registry, no acquisition at all leaves the number of
    constructions where it was, not one higher; and 2^32 acquisitions, all
    of which return, leave the [uint32_t] count at 0, not at 2^32. *)
Lemma acquisitions_none_or_wrapped :
  (∃ w', repeatM 0 com_dispatcher_addref (fresh_world 0) = Some (tt, w') ∧
         constructions w' = constructions (fresh_world 0) ∧
         constructions w' ≠ S (constructions (fresh_world 0))) ∧
  (∃ w', repeatM (Z.to_nat 4294967296) com_dispatcher_addref (fresh_world 0)
           = Some (tt, w') ∧
         com_dispatcher_refcount w' = 0 ∧
         com_dispatcher_refcount w' ≠ 4294967296).
Proof. exact (acquisitions_outside_range (fresh_world 0) (fresh_world_unused 0)). Qed.


Lemma absent_factory_fails_calls_witness :
  provider_user_data crippled_provider = Some {| spellCheckerFactory := None |} ∧
  com_dispatcher (serving_world 12) = Some ready ∧
  usable (@ready com_world value) ∧
  ∃ w', windows_provider_dictionary_exists failing_api crippled_provider [101; 110; 0]
          (serving_world 12) = Some (Returned (VInt (-1)), w') ∧
        backend w' = backend (serving_world 12).
Proof.
  split; [reflexivity|]. split; [reflexivity|]. split; [left; exact ready_settled|].
  destruct (absent_factory_fails_calls failing_api crippled_provider (serving_world 12)
              ready eq_refl eq_refl (or_introl ready_settled)) as (_ & _ & _ & _ & Hex & _).
  eexists. split; [vm_compute; reflexivity|].
  refine (proj1 (proj2 (Hex [101; 110; 0] _ _ _))). vm_compute; reflexivity.
Defined.

Lemma overlong_word_rejected_witness :
  kMaxUTF8WordLengthInBytes < 513 ∧
  com_dispatcher (serving_world 12) = Some ready ∧
  usable (@ready com_world value) ∧
  ∃ w', windows_dict_check sample_api sample_dict long_word 513 (serving_world 12)
        = Some (Returned (VInt (-1)), w') ∧
        backend w' = backend (serving_world 12).
Proof.
  split; [by compute|]. split; [reflexivity|]. split; [left; exact ready_settled|].
  destruct (overlong_word_rejected sample_api sample_dict long_word 513 (serving_world 12)
              ready ltac:(by compute) eq_refl (or_introl ready_settled))
    as (_ & _ & _ & Hck & _).
  eexists. split; [vm_compute; reflexivity|].
  refine (proj2 (Hck _ _ _)). vm_compute; reflexivity.
Defined.


End Witnesses.
(** ** The string conversions *)

Section StringFacts.
Import Provider.
Variable api : com_api.

Lemma underscores_to_dashes_closed (s : wstring) :
  underscores_to_dashes s
  = map (λ c, if c =? 95 then 45 else c) (take (strnlen s (length s)) s)
    ++ drop (strnlen s (length s)) s.
Proof.
  induction s as [|c s IH]; [reflexivity|].
  cbn. destruct (c =? 0) eqn:Hc; [reflexivity|].
  cbn. by rewrite <- IH.
Qed.

Lemma underscores_to_dashes_length (s : wstring) :
  length (underscores_to_dashes s) = length s.
Proof.
  induction s as [|c s IH]; [reflexivity|].
  cbn. destruct (c =? 0); cbn; congruence.
Qed.

Lemma underscores_to_dashes_strnlen (s : wstring) n :
  strnlen (underscores_to_dashes s) n = strnlen s n.
Proof.
  revert n. induction s as [|c s IH]; intros [|n]; try reflexivity.
  - cbn. destruct (c =? 0); reflexivity.
  - cbn. destruct (c =? 0) eqn:Hc; cbn; [by rewrite Hc|].
    destruct (c =? 95) eqn:Hu; cbn; [|by rewrite Hc, IH].
    by rewrite IH.
Qed.

Lemma underscores_to_dashes_clean (s : wstring) :
  Forall (λ c, c ≠ 95 ∧ c ≠ 0)
         (take (strnlen s (length s)) (underscores_to_dashes s)).
Proof.
  induction s as [|c s IH]; [constructor|].
  cbn. destruct (c =? 0) eqn:Hc; cbn; [constructor|].
  constructor; [|exact IH].
  destruct (c =? 95) eqn:Hu; [lia|]. lia.
Qed.

Lemma underscores_to_dashes_idem (s : wstring) :
  underscores_to_dashes (underscores_to_dashes s) = underscores_to_dashes s.
Proof.
  induction s as [|c s IH]; [reflexivity|].
  cbn. destruct (c =? 0) eqn:Hc; cbn; [by rewrite Hc|].
  destruct (c =? 95) eqn:Hu; cbn; [by rewrite IH|].
  by rewrite Hc, Hu, IH.
Qed.

(** X1: the loop of [copy_from_enchant_tag_to_windows_language] rewrites
    the string in place up to its first terminator: every ['_'] before it
    becomes ['-'], every other character and everything from the
    terminator on stays, so the length and the position of the terminator
    are kept, no ['_'] is left before the terminator, and a second pass
    changes nothing. *)
Theorem underscores_to_dashes_spec (s : wstring) :
  underscores_to_dashes s
  = map (λ c, if c =? 95 then 45 else c) (take (strnlen s (length s)) s)
    ++ drop (strnlen s (length s)) s ∧
  length (underscores_to_dashes s) = length s ∧
  strnlen (underscores_to_dashes s) (length s) = strnlen s (length s) ∧
  Forall (λ c, c ≠ 95 ∧ c ≠ 0)
         (take (strnlen s (length s)) (underscores_to_dashes s)) ∧
  underscores_to_dashes (underscores_to_dashes s) = underscores_to_dashes s.
Proof.
  split; [apply underscores_to_dashes_closed|].
  split; [apply underscores_to_dashes_length|].
  split; [apply underscores_to_dashes_strnlen|].
  split; [apply underscores_to_dashes_clean|].
  apply underscores_to_dashes_idem.
Qed.

Lemma strnlen_terminated (s rest : list Z) n :
  Forall (λ c, c ≠ 0) s → (length s < n)%nat →
  strnlen (s ++ 0 :: rest) n = length s.
Proof.
  intros Hs. revert n. induction Hs as [|c s Hc _ IH]; intros [|n] Hn; cbn in *;
    try lia.
  destruct (c =? 0) eqn:Hz; [lia|]. rewrite IH by lia. reflexivity.
Qed.

Lemma strnlen_unterminated (s rest : list Z) n :
  Forall (λ c, c ≠ 0) s → (n ≤ length s)%nat → strnlen (s ++ rest) n = n.
Proof.
  intros Hs. revert n. induction Hs as [|c s Hc _ IH]; intros [|n] Hn; cbn in *;
    try (reflexivity || lia).
  - destruct rest; reflexivity.
  - destruct (c =? 0) eqn:Hz; [lia|]. rewrite IH by lia. reflexivity.
Qed.

Lemma tag_conversion (tag : bytes) :
  copy_from_enchant_tag_to_windows_language api tag
  = if (512 <=? strnlen tag 512)%nat then None
    else Some (underscores_to_dashes
                 (MultiByteToWideChar api tag (Z.of_nat (strnlen tag 512) + 1) ++ [0])).
Proof.
  unfold copy_from_enchant_tag_to_windows_language, copy_utf8_to_utf16, strnlen_s.
  change (Z.to_nat kMaxUTF8WordLengthInBytes) with 512%nat.
  change kMaxUTF8WordLengthInBytes with 512.
  destruct (512 <=? strnlen tag 512)%nat eqn:Hn.
  - apply Nat.leb_le in Hn.
    destruct (Z.of_nat (strnlen tag 512) + 1 >? 512) eqn:Hg; [reflexivity|].
    rewrite Z.gtb_ltb in Hg. apply Z.ltb_ge in Hg. lia.
  - apply Nat.leb_gt in Hn.
    destruct (Z.of_nat (strnlen tag 512) + 1 >? 512) eqn:Hg; [|reflexivity].
    rewrite Z.gtb_ltb in Hg. apply Z.ltb_lt in Hg. lia.
Qed.

Lemma tag_short (s rest : bytes) :
  Forall (λ c, c ≠ 0) s → (length s ≤ 511)%nat →
  copy_from_enchant_tag_to_windows_language api (s ++ 0 :: rest)
  = Some (underscores_to_dashes
            (MultiByteToWideChar api (s ++ 0 :: rest) (Z.of_nat (length s) + 1) ++ [0])).
Proof.
  intros Hs Hn. rewrite tag_conversion.
  rewrite strnlen_terminated by (done || lia).
  destruct (512 <=? length s)%nat eqn:Hl; [apply Nat.leb_le in Hl; lia|reflexivity].
Qed.

Lemma tag_long (s rest : bytes) :
  Forall (λ c, c ≠ 0) s → (512 ≤ length s)%nat →
  copy_from_enchant_tag_to_windows_language api (s ++ rest) = None.
Proof.
  intros Hs Hn. rewrite tag_conversion.
  rewrite strnlen_unterminated by done. reflexivity.
Qed.

(** X2: the length limit of language tags. The tag is measured with
    [strnlen_s] up to 512 bytes and converted together with its
    terminator, so a tag of 511 bytes or fewer is converted (the
    conversion is asked for the tag and its terminator, and every ['_'] of
    the result becomes ['-']), while a tag whose first 512 bytes hold no
    terminator yields null: the limit for a tag is one byte below the 512
    bytes that [copy_utf8_to_utf16] accepts for a word. *)
Theorem tag_length_limit :
  (∀ tag,
     copy_from_enchant_tag_to_windows_language api tag
     = if (512 <=? strnlen tag 512)%nat then None
       else Some (underscores_to_dashes
                    (MultiByteToWideChar api tag (Z.of_nat (strnlen tag 512) + 1) ++ [0]))) ∧
  (∀ s rest, Forall (λ c, c ≠ 0) s → (length s ≤ 511)%nat →
     copy_from_enchant_tag_to_windows_language api (s ++ 0 :: rest)
     = Some (underscores_to_dashes
               (MultiByteToWideChar api (s ++ 0 :: rest) (Z.of_nat (length s) + 1) ++ [0]))) ∧
  (∀ s rest, Forall (λ c, c ≠ 0) s → (512 ≤ length s)%nat →
     copy_from_enchant_tag_to_windows_language api (s ++ rest) = None) ∧
  (∀ word, is_Some (copy_utf8_to_utf16 api word 512)).
Proof.
  split; [exact tag_conversion|]. split; [exact tag_short|]. split; [exact tag_long|].
  intros word. unfold copy_utf8_to_utf16. cbn. eauto.
Qed.

Lemma entry_conversion (name : wstring) :
  copy_utf16_to_utf8 api name (strnlen_s name kMaxWordLength + 1)
  = if (128 <=? strnlen name 128)%nat then None
    else Some (WideCharToMultiByte api name (Z.of_nat (strnlen name 128) + 1) ++ [0]).
Proof.
  unfold copy_utf16_to_utf8, strnlen_s.
  change (Z.to_nat kMaxWordLength) with 128%nat. change kMaxWordLength with 128.
  destruct (128 <=? strnlen name 128)%nat eqn:Hn.
  - apply Nat.leb_le in Hn.
    destruct (Z.of_nat (strnlen name 128) + 1 >? 128) eqn:Hg; [reflexivity|].
    rewrite Z.gtb_ltb in Hg. apply Z.ltb_ge in Hg. lia.
  - apply Nat.leb_gt in Hn.
    destruct (Z.of_nat (strnlen name 128) + 1 >? 128) eqn:Hg; [|reflexivity].
    rewrite Z.gtb_ltb in Hg. apply Z.ltb_lt in Hg. lia.
Qed.

Lemma convert_entries_none (en : enum_string) :
  convert_entries api en = None ↔ Exists (λ x, FAILED x.1 = true) en.
Proof.
  induction en as [|[hr name] en IH]; cbn.
  - split; [discriminate|]. intros H. inversion H.
  - destruct (FAILED hr) eqn:Hf.
    + split; [|done]. intros _. by left.
    + destruct (convert_entries api en) as [l|].
      * split; [discriminate|]. intros H. inversion H as [? ? Hx|? ? Hx]; subst.
        -- cbn in Hx. congruence.
        -- apply IH in Hx. discriminate.
      * split; [|done]. intros _. right. by apply IH.
Qed.

Lemma convert_entries_some (en : enum_string) l :
  convert_entries api en = Some l →
  length l = length en ∧
  ∀ i hr name, en !! i = Some (hr, name) →
    l !! i = Some (if (128 <=? strnlen name 128)%nat then None
                   else Some (WideCharToMultiByte api name
                                (Z.of_nat (strnlen name 128) + 1) ++ [0])).
Proof.
  revert l. induction en as [|[hr name] en IH]; intros l; cbn.
  - intros [= <-]. split; [done|]. intros i ? ? H. by destruct i.
  - destruct (FAILED hr); [discriminate|].
    destruct (convert_entries api en) as [l'|]; [|discriminate].
    intros [= <-]. destruct (IH l' eq_refl) as [Hlen Hent].
    split; [cbn; congruence|].
    intros [|i] hr' name' H; cbn in *.
    + inversion H; subst. by rewrite entry_conversion.
    + eauto.
Qed.

Lemma string_list_none (en : enum_string) :
  copy_string_list_from_enumerator api en = None
  ↔ Exists (λ x, FAILED x.1 = true) en.
Proof.
  unfold copy_string_list_from_enumerator. rewrite <- convert_entries_none.
  destruct (convert_entries api en); split; (done || discriminate).
Qed.

Lemma string_list_some (en : enum_string) l n :
  copy_string_list_from_enumerator api en = Some (l, n) →
  n = Z.of_nat (length en) ∧ length l = length en ∧
  ∀ i hr name, en !! i = Some (hr, name) →
    l !! i = Some (if (128 <=? strnlen name 128)%nat then None
                   else Some (WideCharToMultiByte api name
                                (Z.of_nat (strnlen name 128) + 1) ++ [0])).
Proof.
  unfold copy_string_list_from_enumerator.
  destruct (convert_entries api en) as [l'|] eqn:Hc; [|discriminate].
  intros [= <- <-]. destruct (convert_entries_some en l' Hc). done.
Qed.

(** X3: [copy_string_list_from_enumerator] stores nothing exactly when a
    [Next] fails. Otherwise the count it stores is the number of entries
    of the enumerator and the vector has that many slots before its
    terminator; slot [i] holds the conversion of name [i] with its
    terminator when the name has fewer than 128 characters, and is null
    when the name has 128 characters or more: such a name is counted but
    comes out as a null pointer inside the vector. *)
Theorem enumerator_entries_converted (en : enum_string) :
  (copy_string_list_from_enumerator api en = None
   ↔ Exists (λ x, FAILED x.1 = true) en) ∧
  (∀ l n, copy_string_list_from_enumerator api en = Some (l, n) →
     n = Z.of_nat (length en) ∧ length l = length en ∧
     ∀ i hr name, en !! i = Some (hr, name) →
       l !! i = Some (if (128 <=? strnlen name 128)%nat then None
                      else Some (WideCharToMultiByte api name
                                   (Z.of_nat (strnlen name 128) + 1) ++ [0]))).
Proof.
  split; [exact (string_list_none en)|].
  intros l n H. exact (string_list_some en l n H).
Qed.

End StringFacts.
(** ** Handing string lists back *)

Section MemoryFacts.
Import Provider Memory.
Variable api : com_api.

Lemma deleted_strings_prefix (l : string_list) :
  deleted_strings l `prefix_of` held_strings l.
Proof.
  induction l as [|[s|] l IH]; cbn.
  - done.
  - unfold held_strings. cbn. by apply prefix_cons.
  - apply prefix_nil.
Qed.

Lemma deleted_strings_all (l : string_list) :
  Forall is_Some l → deleted_strings l = held_strings l ∧
                     length (deleted_strings l) = length l.
Proof.
  induction 1 as [|x l [s ->] _ [IH1 IH2]]; [done|].
  unfold held_strings in *. cbn. rewrite IH2. by rewrite IH1.
Qed.

Lemma deleted_strings_stop (l : string_list) i :
  l !! i = Some None → (length (deleted_strings l) ≤ i)%nat.
Proof.
  revert i. induction l as [|[s|] l IH]; intros [|i] H; cbn in *; try done.
  - apply IH in H. lia.
  - lia.
Qed.

(** X4: [windows_provider_free_string_list] deletes the strings of the
    vector up to the first null slot, each once and in order, and nothing
    for a null vector. For a vector made by
    [copy_string_list_from_enumerator] this is every string when every
    name had fewer than 128 characters; when name [i] had 128 characters
    or more its slot is null, the walk stops there, and the strings behind
    it are not deleted. *)
Theorem free_string_list_reach (en : enum_string) (l : string_list) (n : Z) :
  copy_string_list_from_enumerator api en = Some (l, n) →
  windows_provider_free_string_list_deletes None = [] ∧
  windows_provider_free_string_list_deletes (Some l) `prefix_of` held_strings l ∧
  (Forall (λ x, (strnlen x.2 128 < 128)%nat) en →
   windows_provider_free_string_list_deletes (Some l) = held_strings l ∧
   length (windows_provider_free_string_list_deletes (Some l)) = length en) ∧
  (∀ i hr name, en !! i = Some (hr, name) → (128 ≤ strnlen name 128)%nat →
     (length (windows_provider_free_string_list_deletes (Some l)) ≤ i)%nat).
Proof.
  intros H. destruct (string_list_some api en l n H)
    as (_ & Hlen & Hent).
  split; [done|]. split; [apply deleted_strings_prefix|]. cbn. split.
  - intros Hshort.
    assert (Forall is_Some l) as Hall.
    { apply Forall_lookup. intros i x Hx.
      destruct (lookup_lt_is_Some_2 en i) as [[hr name] Hi].
      { rewrite <- Hlen. by eapply lookup_lt_Some. }
      pose proof (Forall_lookup_1 _ _ _ _ Hshort Hi) as Hs. cbn in Hs.
      pose proof (Hent i hr name Hi) as Hy.
      destruct (128 <=? strnlen name 128)%nat eqn:Hn; [apply Nat.leb_le in Hn; lia|].
      assert (Some x = Some (Some (WideCharToMultiByte api name
                (Z.of_nat (strnlen name 128) + 1) ++ [0]))) as Hz.
      { exact (eq_trans (eq_sym Hx) Hy). }
      inversion Hz. eauto. }
    destruct (deleted_strings_all l Hall) as [H1 H2]. split; [done|]. by rewrite H2.
  - intros i hr name Hi Hlong. apply deleted_strings_stop.
    pose proof (Hent i hr name Hi) as Hy.
    destruct (128 <=? strnlen name 128)%nat eqn:Hn; [exact Hy|].
    apply Nat.leb_gt in Hn. lia.
Qed.

End MemoryFacts.
(** ** What the entry points answer *)

Section AnswerFacts.
Import Dispatcher Registry Provider.
Variable api : com_api.
Implicit Types (w : world com_world value) (d : dispatcher com_world value).

Lemma check_work_range dict word len c cw :
  dict_user_data dict = Some {| spellChecker := Some c |} →
  (windows_dict_check_work api dict word len cw).2 = Returned (VInt (-1)) ∨
  (windows_dict_check_work api dict word len cw).2 = Returned (VInt 0) ∨
  (windows_dict_check_work api dict word len cw).2 = Returned (VInt 1).
Proof.
  intros Hc. unfold windows_dict_check_work. rewrite Hc.
  destruct (copy_utf8_to_utf16 api word len) as [u|]; [|by left].
  destruct (ISpellChecker_Check api cw c u) as [hr errors].
  destruct (FAILED hr); [by left|]. destruct errors; cbn; eauto.
Qed.

Lemma check_work_in_range dict word len c cw :
  dict_user_data dict = Some {| spellChecker := Some c |} →
  len ≤ kMaxUTF8WordLengthInBytes →
  windows_dict_check_work api dict word len cw
  = (cw ++ [ComCheck c (MultiByteToWideChar api word len ++ [0])],
     Returned (VInt
       (if FAILED (ISpellChecker_Check api cw c
                     (MultiByteToWideChar api word len ++ [0])).1
        then -1
        else match (ISpellChecker_Check api cw c
                      (MultiByteToWideChar api word len ++ [0])).2 with
             | [] => 0
             | _ :: _ => 1
             end))).
Proof.
  intros Hc Hlen. unfold windows_dict_check_work, copy_utf8_to_utf16. rewrite Hc.
  destruct (len >? kMaxUTF8WordLengthInBytes) eqn:Hg.
  { rewrite Z.gtb_ltb in Hg. apply Z.ltb_lt in Hg. lia. }
  destruct (ISpellChecker_Check api cw c _) as [hr errors]. cbn.
  destruct (FAILED hr); [done|]. by destruct errors.
Qed.

(** X5: [windows_dict_check] on a dictionary that holds a spell checker.
    Whatever state the dispatcher is in, what the call returns is -1, 0 or
    1. For a word of at most 512 bytes, on a dispatcher just constructed
    or between calls, the spell checker is asked exactly once, with the
    converted word and its terminator, and the answer is -1 when [Check]
    fails, 1 when the enumeration of errors has a first element and 0 when
    it is empty; the call returns, given turns for the two threads. *)
Theorem check_verdict dict word len c w :
  dict_user_data dict = Some {| spellChecker := Some c |} →
  (∀ o w', windows_dict_check api dict word len w = Some (o, w') →
     o = Returned (VInt (-1)) ∨ o = Returned (VInt 0) ∨ o = Returned (VInt 1)) ∧
  (∀ d, com_dispatcher w = Some d → usable d →
     0 ≤ len ≤ kMaxUTF8WordLengthInBytes →
     (∀ o w', windows_dict_check api dict word len w = Some (o, w') →
        backend w' = backend w ++ [ComCheck c (MultiByteToWideChar api word len ++ [0])] ∧
        o = Returned (VInt
              (if FAILED (ISpellChecker_Check api (backend w) c
                            (MultiByteToWideChar api word len ++ [0])).1
               then -1
               else match (ISpellChecker_Check api (backend w) c
                             (MultiByteToWideChar api word len ++ [0])).2 with
                    | [] => 0
                    | _ :: _ => 1
                    end))) ∧
     (∀ n rest, (14 ≤ n)%nat → schedule w = rounds n ++ rest →
        is_Some (windows_dict_check api dict word len w))).
Proof.
  intros Hc. split.
  - intros o w' H. apply c_entry_sound in H as [H _].
    apply (dispatch_outcome
             (λ o, o = Returned (VInt (-1)) ∨ o = Returned (VInt 0) ∨ o = Returned (VInt 1))
             (windows_dict_check_work api dict word len) w o w'); [|exact H].
    intros e. by apply (check_work_range dict word len c).
  - intros d Hd Hs [_ Hlen].
    destruct (dispatch_usable (windows_dict_check_work api dict word len) w d Hd Hs)
      as [Hpart Htot].
    split.
    2:{ intros n rest Hn Hsch. apply c_entry_returns; [|by eapply Htot].
        intros e x.
        destruct (check_work_range dict word len c e Hc) as [->|[->| ->]]; discriminate. }
    intros o w' H. apply c_entry_sound in H as [H _]. destruct (Hpart o w' H) as (-> & -> & _).
    by rewrite (check_work_in_range dict word len c (backend w) Hc Hlen).
Qed.

Lemma string_list_well_formed (en : enum_string) :
  match copy_string_list_from_enumerator api en with
  | Some (l, n) => n = Z.of_nat (length l)
  | None => True
  end.
Proof.
  destruct (copy_string_list_from_enumerator api en) as [[l n]|] eqn:H; [|done].
  destruct (string_list_some api en l n H) as (-> & -> & _). done.
Qed.

Lemma suggest_work_well_formed dict word len c cw :
  dict_user_data dict = Some {| spellChecker := Some c |} →
  (windows_dict_suggest_work api dict word len cw).2 = Returned (VStrings None None) ∨
  ∃ l, (windows_dict_suggest_work api dict word len cw).2
       = Returned (VStrings (Some l) (Some (Z.of_nat (length l)))).
Proof.
  intros Hc. unfold windows_dict_suggest_work. rewrite Hc.
  destruct (copy_utf8_to_utf16 api word len) as [u|]; [|by left].
  destruct (ISpellChecker_Suggest api cw c u) as [hr en].
  destruct (FAILED hr); [by left|]. destruct (hr =? S_FALSE); [by left|].
  pose proof (string_list_well_formed en) as Hwf.
  destruct (copy_string_list_from_enumerator api en) as [[l n]|]; [|by left].
  subst n. right. by exists l.
Qed.

Lemma list_dicts_work_well_formed prov ud cw :
  provider_user_data prov = Some ud →
  (windows_provider_list_dicts_work api prov cw).2 = Returned (VStrings None None) ∨
  ∃ l, (windows_provider_list_dicts_work api prov cw).2
       = Returned (VStrings (Some l) (Some (Z.of_nat (length l)))).
Proof.
  intros Hp. unfold windows_provider_list_dicts_work. rewrite Hp.
  destruct ud as [[f|]]; [|by left].
  destruct (get_SupportedLanguages api cw f) as [hr en].
  destruct (FAILED hr); [by left|].
  pose proof (string_list_well_formed en) as Hwf.
  destruct (copy_string_list_from_enumerator api en) as [[l n]|]; [|by left].
  subst n. right. by exists l.
Qed.

(** X6: the string lists handed to Enchant. Whatever state the dispatcher
    is in, what [windows_dict_suggest] (on a dictionary holding a spell
    checker) and [windows_provider_list_dicts] (on a provider with user
    data) return is either null with nothing stored in the count, or a
    vector together with a count that is the number of its slots. On a
    dispatcher just constructed or between calls, [windows_dict_suggest]
    returns null without looking at the enumerator when [Suggest] answers
    [S_FALSE] (the word is spelled correctly) or fails. *)
Theorem string_lists_counted dict prov word len c ud w :
  dict_user_data dict = Some {| spellChecker := Some c |} →
  provider_user_data prov = Some ud →
  (∀ o w', windows_dict_suggest api dict word len w = Some (o, w') →
     o = Returned (VStrings None None) ∨
     ∃ l, o = Returned (VStrings (Some l) (Some (Z.of_nat (length l))))) ∧
  (∀ o w', windows_provider_list_dicts api prov w = Some (o, w') →
     o = Returned (VStrings None None) ∨
     ∃ l, o = Returned (VStrings (Some l) (Some (Z.of_nat (length l))))) ∧
  (∀ d o w', com_dispatcher w = Some d → usable d →
     0 ≤ len ≤ kMaxUTF8WordLengthInBytes →
     (ISpellChecker_Suggest api (backend w) c
        (MultiByteToWideChar api word len ++ [0])).1 = S_FALSE ∨
     FAILED (ISpellChecker_Suggest api (backend w) c
               (MultiByteToWideChar api word len ++ [0])).1 = true →
     windows_dict_suggest api dict word len w = Some (o, w') →
     o = Returned (VStrings None None) ∧
     backend w' = backend w ++ [ComSuggest c (MultiByteToWideChar api word len ++ [0])]).
Proof.
  intros Hc Hp. split; [|split].
  - intros o w' H. apply c_entry_sound in H as [H _].
    apply (dispatch_outcome
             (λ o, o = Returned (VStrings None None) ∨
                   ∃ l, o = Returned (VStrings (Some l) (Some (Z.of_nat (length l)))))
             (windows_dict_suggest_work api dict word len) w o w'); [|exact H].
    intros e. by apply (suggest_work_well_formed dict word len c).
  - intros o w' H. apply c_entry_sound in H as [H _].
    apply (dispatch_outcome
             (λ o, o = Returned (VStrings None None) ∨
                   ∃ l, o = Returned (VStrings (Some l) (Some (Z.of_nat (length l)))))
             (windows_provider_list_dicts_work api prov) w o w'); [|exact H].
    intros e. by apply (list_dicts_work_well_formed prov ud).
  - intros d o w' Hd Hs [_ Hlen] Hhr H. apply c_entry_sound in H as [H _].
    destruct (dispatch_usable (windows_dict_suggest_work api dict word len) w d Hd Hs)
      as [Hpart _].
    destruct (Hpart o w' H) as (-> & -> & _).
    unfold windows_dict_suggest_work, copy_utf8_to_utf16. rewrite Hc.
    destruct (len >? kMaxUTF8WordLengthInBytes) eqn:Hg.
    { rewrite Z.gtb_ltb in Hg. apply Z.ltb_lt in Hg. lia. }
    destruct (ISpellChecker_Suggest api (backend w) c _) as [hr en]. cbn in *.
    destruct (FAILED hr) eqn:Hf; [done|].
    destruct Hhr as [->|?]; [done|congruence].
Qed.

Lemma request_dict_work_table prov tag ud cw :
  provider_user_data prov = Some ud →
  (windows_provider_request_dict_work api prov tag cw).2 = Returned (VDict None) ∨
  ∃ c, (windows_provider_request_dict_work api prov tag cw).2
       = Returned (VDict (Some (new_dict (Some {| spellChecker := c |})))).
Proof.
  intros Hp. unfold windows_provider_request_dict_work. rewrite Hp.
  destruct ud as [[f|]]; [|by left].
  destruct (copy_from_enchant_tag_to_windows_language api tag) as [wtag|]; [|by left].
  destruct (CreateSpellChecker api cw f wtag) as [hr c].
  destruct (FAILED hr); [by left|]. right. by exists c.
Qed.

(** X7: [windows_provider_request_dict] on a provider with user data.
    Whatever state the dispatcher is in, what it returns is null or a
    dictionary whose user data is set and whose functions are those of
    lines 388-393, with [add_to_session] null. With a factory, on a
    dispatcher just constructed or between calls: for a tag of at most 511
    bytes the factory is asked exactly once, for the tag with every ['_']
    turned into ['-'], and the dictionary holds the spell checker the
    factory gave, or null is returned when [CreateSpellChecker] fails; for
    a tag of 512 bytes or more null is returned and the factory is not
    asked. *)
Theorem request_dict_result prov ud w :
  provider_user_data prov = Some ud →
  (∀ tag o w', windows_provider_request_dict api prov tag w = Some (o, w') →
     o = Returned (VDict None) ∨
     ∃ c, o = Returned (VDict (Some (new_dict (Some {| spellChecker := c |}))))) ∧
  (∀ data, add_to_session (new_dict data) = None ∧
           check (new_dict data) = Some fn_windows_dict_check ∧
           suggest (new_dict data) = Some fn_windows_dict_suggest ∧
           add_to_personal (new_dict data) = Some fn_windows_dict_add_to_personal ∧
           store_replacement (new_dict data) = Some fn_windows_dict_store_replacement ∧
           add_to_exclude (new_dict data) = Some fn_windows_dict_add_to_exclude ∧
           dict_user_data (new_dict data) = data) ∧
  (∀ d f, com_dispatcher w = Some d → usable d → spellCheckerFactory ud = Some f →
     (∀ s rest o w', Forall (λ c, c ≠ 0) s → (length s ≤ 511)%nat →
        windows_provider_request_dict api prov (s ++ 0 :: rest) w = Some (o, w') →
        backend w' = backend w ++
          [ComCreateSpellChecker f
             (underscores_to_dashes
                (MultiByteToWideChar api (s ++ 0 :: rest) (Z.of_nat (length s) + 1)
                 ++ [0]))] ∧
        o = Returned (VDict
              (if FAILED (CreateSpellChecker api (backend w) f
                            (underscores_to_dashes
                               (MultiByteToWideChar api (s ++ 0 :: rest)
                                  (Z.of_nat (length s) + 1) ++ [0]))).1
               then None
               else Some (new_dict (Some {| spellChecker :=
                      (CreateSpellChecker api (backend w) f
                         (underscores_to_dashes
                            (MultiByteToWideChar api (s ++ 0 :: rest)
                               (Z.of_nat (length s) + 1) ++ [0]))).2 |}))))) ∧
     (∀ s rest o w', Forall (λ c, c ≠ 0) s → (512 ≤ length s)%nat →
        windows_provider_request_dict api prov (s ++ rest) w = Some (o, w') →
        backend w' = backend w ∧ o = Returned (VDict None)) ∧
     (∀ tag n rest, (14 ≤ n)%nat → schedule w = rounds n ++ rest →
        is_Some (windows_provider_request_dict api prov tag w))).
Proof.
  intros Hp. split; [|split; [done|]].
  - intros tag o w' H. apply c_entry_sound in H as [H _].
    apply (dispatch_outcome
             (λ o, o = Returned (VDict None) ∨
                   ∃ c, o = Returned (VDict (Some (new_dict (Some {| spellChecker := c |})))))
             (windows_provider_request_dict_work api prov tag) w o w'); [|exact H].
    intros e. by apply (request_dict_work_table prov tag ud).
  - intros d f Hd Hs Hf. destruct ud as [fo]. cbn in Hf. subst fo.
    split; [|split].
    + intros s rest o w' Hz Hlen H. apply c_entry_sound in H as [H _].
      destruct (dispatch_usable (windows_provider_request_dict_work api prov (s ++ 0 :: rest))
                  w d Hd Hs) as [Hpart _].
      destruct (Hpart o w' H) as (-> & -> & _).
      unfold windows_provider_request_dict_work. rewrite Hp.
      rewrite (tag_short api s rest Hz Hlen).
      destruct (CreateSpellChecker api (backend w) f _) as [hr c]. cbn.
      by destruct (FAILED hr).
    + intros s rest o w' Hz Hlen H. apply c_entry_sound in H as [H _].
      destruct (dispatch_usable (windows_provider_request_dict_work api prov (s ++ rest))
                  w d Hd Hs) as [Hpart _].
      destruct (Hpart o w' H) as (-> & -> & _).
      unfold windows_provider_request_dict_work. rewrite Hp.
      by rewrite (tag_long api s rest Hz Hlen).
    + intros tag n rest Hn Hsch. unfold windows_provider_request_dict.
      apply c_entry_returns; [|eapply (proj2 (dispatch_usable _ w d Hd Hs)); eauto].
      intros e x.
      destruct (request_dict_work_table prov tag _ e Hp) as [->|[c ->]]; discriminate.
Qed.

Lemma dictionary_exists_work_range prov tag ud cw :
  provider_user_data prov = Some ud →
  (windows_provider_dictionary_exists_work api prov tag cw).2 = Returned (VInt (-1)) ∨
  (windows_provider_dictionary_exists_work api prov tag cw).2 = Returned (VInt 0) ∨
  (windows_provider_dictionary_exists_work api prov tag cw).2 = Returned (VInt 1).
Proof.
  intros Hp. unfold windows_provider_dictionary_exists_work. rewrite Hp.
  destruct ud as [[f|]]; [|by left].
  destruct (copy_from_enchant_tag_to_windows_language api tag) as [wtag|]; [|by left].
  cbn. destruct (IsSupported api cw f wtag); eauto.
Qed.

(** X8: [windows_provider_dictionary_exists] on a provider with user
    data. Whatever state the dispatcher is in, what it returns is -1, 0 or
    1. With a factory, on a dispatcher just constructed or between calls:
    for a tag of at most 511 bytes the factory is asked exactly once, for
    the tag with every ['_'] turned into ['-'], and the answer is 1 or 0
    as [IsSupported] says, never -1; for a tag of 512 bytes or more the
    answer is -1 and the factory is not asked. *)
Theorem dictionary_exists_result prov ud w :
  provider_user_data prov = Some ud →
  (∀ tag o w', windows_provider_dictionary_exists api prov tag w = Some (o, w') →
     o = Returned (VInt (-1)) ∨ o = Returned (VInt 0) ∨ o = Returned (VInt 1)) ∧
  (∀ d f, com_dispatcher w = Some d → usable d → spellCheckerFactory ud = Some f →
     (∀ s rest o w', Forall (λ c, c ≠ 0) s → (length s ≤ 511)%nat →
        windows_provider_dictionary_exists api prov (s ++ 0 :: rest) w = Some (o, w') →
        backend w' = backend w ++
          [ComIsSupported f
             (underscores_to_dashes
                (MultiByteToWideChar api (s ++ 0 :: rest) (Z.of_nat (length s) + 1)
                 ++ [0]))] ∧
        o = Returned (VInt
              (if IsSupported api (backend w) f
                    (underscores_to_dashes
                       (MultiByteToWideChar api (s ++ 0 :: rest)
                          (Z.of_nat (length s) + 1) ++ [0]))
               then 1 else 0))) ∧
     (∀ s rest o w', Forall (λ c, c ≠ 0) s → (512 ≤ length s)%nat →
        windows_provider_dictionary_exists api prov (s ++ rest) w = Some (o, w') →
        backend w' = backend w ∧ o = Returned (VInt (-1))) ∧
     (∀ tag n rest, (14 ≤ n)%nat → schedule w = rounds n ++ rest →
        is_Some (windows_provider_dictionary_exists api prov tag w))).
Proof.
  intros Hp. split.
  - intros tag o w' H. apply c_entry_sound in H as [H _].
    apply (dispatch_outcome
             (λ o, o = Returned (VInt (-1)) ∨ o = Returned (VInt 0) ∨ o = Returned (VInt 1))
             (windows_provider_dictionary_exists_work api prov tag) w o w'); [|exact H].
    intros e. by apply (dictionary_exists_work_range prov tag ud).
  - intros d f Hd Hs Hf. destruct ud as [fo]. cbn in Hf. subst fo.
    split; [|split].
    + intros s rest o w' Hz Hlen H. apply c_entry_sound in H as [H _].
      destruct (dispatch_usable
                  (windows_provider_dictionary_exists_work api prov (s ++ 0 :: rest))
                  w d Hd Hs) as [Hpart _].
      destruct (Hpart o w' H) as (-> & -> & _).
      unfold windows_provider_dictionary_exists_work. rewrite Hp.
      by rewrite (tag_short api s rest Hz Hlen).
    + intros s rest o w' Hz Hlen H. apply c_entry_sound in H as [H _].
      destruct (dispatch_usable
                  (windows_provider_dictionary_exists_work api prov (s ++ rest))
                  w d Hd Hs) as [Hpart _].
      destruct (Hpart o w' H) as (-> & -> & _).
      unfold windows_provider_dictionary_exists_work. rewrite Hp.
      by rewrite (tag_long api s rest Hz Hlen).
    + intros tag n rest Hn Hsch. unfold windows_provider_dictionary_exists.
      apply c_entry_returns; [|eapply (proj2 (dispatch_usable _ w d Hd Hs)); eauto].
      intros e x.
      destruct (dictionary_exists_work_range prov tag _ e Hp) as [->|[->| ->]];
        discriminate.
Qed.

End AnswerFacts.
(** ** Changing the user's dictionaries *)

Section UserDictionaryFacts.
Import Dispatcher Registry Provider UserDictionary.
Variables (api : com_api) (uapi : user_api).
Implicit Types (w : world user_world value) (d : dispatcher user_world value).

(** X9: the three functions that change the user's dictionaries, on a
    dictionary holding a spell checker and a dispatcher just constructed
    or between calls. Each returns nothing, whatever the spell checker
    answers: a failure is not reported. For inputs of at most 512 bytes
    the spell checker is called exactly once ([Add], [AutoCorrect],
    [Ignore]) with the converted strings; when the word, or either of the
    two strings of a replacement, is longer, no call is made. Each call
    returns, given turns for the two threads. *)
Theorem user_dictionary_calls dict c w d :
  dict_user_data dict = Some {| spellChecker := Some c |} →
  com_dispatcher w = Some d → usable d →
  (∀ word len o w',
     windows_dict_add_to_personal api uapi dict word len w = Some (o, w') →
     o = ReturnedVoid ∧
     backend w' = backend w ++
       (if len >? kMaxUTF8WordLengthInBytes then []
        else [inr (ComAdd c (MultiByteToWideChar api word len ++ [0]))])) ∧
  (∀ mis mis_len cor cor_len o w',
     windows_dict_store_replacement api uapi dict mis mis_len cor cor_len w
     = Some (o, w') →
     o = ReturnedVoid ∧
     backend w' = backend w ++
       (if (mis_len >? kMaxUTF8WordLengthInBytes) || (cor_len >? kMaxUTF8WordLengthInBytes)
        then []
        else [inr (ComAutoCorrect c (MultiByteToWideChar api mis mis_len ++ [0])
                                    (MultiByteToWideChar api cor cor_len ++ [0]))])) ∧
  (∀ word len o w',
     windows_dict_add_to_exclude api uapi dict word len w = Some (o, w') →
     o = ReturnedVoid ∧
     backend w' = backend w ++
       (if len >? kMaxUTF8WordLengthInBytes then []
        else [inr (ComIgnore c (MultiByteToWideChar api word len ++ [0]))])) ∧
  (∀ word len cor cor_len n rest, (14 ≤ n)%nat → schedule w = rounds n ++ rest →
     is_Some (windows_dict_add_to_personal api uapi dict word len w) ∧
     is_Some (windows_dict_store_replacement api uapi dict word len cor cor_len w) ∧
     is_Some (windows_dict_add_to_exclude api uapi dict word len w)).
Proof.
  intros Hc Hd Hs. split; [|split; [|split]].
  - intros word len o w' H. apply c_entry_sound in H as [H _].
    destruct (dispatch_usable (windows_dict_add_to_personal_work api uapi dict word len)
                w d Hd Hs) as [Hpart _].
    destruct (Hpart o w' H) as (-> & -> & _).
    unfold windows_dict_add_to_personal_work, copy_utf8_to_utf16. rewrite Hc.
    destruct (len >? kMaxUTF8WordLengthInBytes); cbn; [by rewrite app_nil_r|].
    by destruct (FAILED _).
  - intros mis mis_len cor cor_len o w' H. apply c_entry_sound in H as [H _].
    destruct (dispatch_usable
                (windows_dict_store_replacement_work api uapi dict mis mis_len cor cor_len)
                w d Hd Hs) as [Hpart _].
    destruct (Hpart o w' H) as (-> & -> & _).
    unfold windows_dict_store_replacement_work, copy_utf8_to_utf16. rewrite Hc.
    destruct (mis_len >? kMaxUTF8WordLengthInBytes); cbn; [by rewrite app_nil_r|].
    destruct (cor_len >? kMaxUTF8WordLengthInBytes); cbn; [by rewrite app_nil_r|].
    by destruct (FAILED _).
  - intros word len o w' H. apply c_entry_sound in H as [H _].
    destruct (dispatch_usable (windows_dict_add_to_exclude_work api uapi dict word len)
                w d Hd Hs) as [Hpart _].
    destruct (Hpart o w' H) as (-> & -> & _).
    unfold windows_dict_add_to_exclude_work, copy_utf8_to_utf16. rewrite Hc.
    destruct (len >? kMaxUTF8WordLengthInBytes); cbn; [by rewrite app_nil_r|].
    by destruct (FAILED _).
  - intros word len cor cor_len n rest Hn Hsch.
    unfold windows_dict_add_to_personal, windows_dict_store_replacement,
      windows_dict_add_to_exclude.
    repeat split;
      (apply c_entry_returns; [|eapply (proj2 (dispatch_usable _ w d Hd Hs)); eauto]).
    all: intros e x.
    all: unfold windows_dict_add_to_personal_work, windows_dict_store_replacement_work,
           windows_dict_add_to_exclude_work; rewrite Hc.
    all: repeat case_match; discriminate.
Qed.

End UserDictionaryFacts.
(** ** Dictionaries and the dispatcher *)

Section DictionaryFacts.
Import Dispatcher Registry Provider Memory.
Variable api : com_api.
Implicit Types (w : world com_world value) (d : dispatcher com_world value).

Lemma dispatch_null (f : work) w : com_dispatcher w = None → dispatch f w = None.
Proof. intros H. unfold dispatch. by rewrite H. Qed.

(** X10: a dictionary holds no reference on the dispatcher. Requesting a
    dictionary and disposing of it leave the count and the history of the
    registry as they were, whatever state the dispatcher is in. So when
    the one provider is disposed of, the count goes to 0 and the pointer
    to null although dictionaries may still be around, and every call on
    such a dictionary, its disposal included, goes through the null
    pointer. *)
Theorem dictionaries_hold_no_reference prov dict w w' :
  com_dispatcher_refcount w = 1 →
  windows_provider_dispose prov w = Some (tt, w') →
  (∀ tag o w1, windows_provider_request_dict api prov tag w = Some (o, w1) →
     com_dispatcher_refcount w1 = com_dispatcher_refcount w ∧ history w1 = history w) ∧
  (∀ o w1, windows_provider_dispose_dict prov dict w = Some (o, w1) →
     o = ReturnedVoid ∧
     com_dispatcher_refcount w1 = com_dispatcher_refcount w ∧ history w1 = history w) ∧
  com_dispatcher_refcount w' = 0 ∧ com_dispatcher w' = None ∧
  (∀ word len, windows_dict_check api dict word len w' = None ∧
               windows_dict_suggest api dict word len w' = None) ∧
  windows_provider_dispose_dict prov dict w' = None.
Proof.
  intros Hrc H. split; [|split].
  - intros tag o w1 H1. apply c_entry_sound in H1 as [H1 _]. by destruct (dispatch_frame _ _ _ _ H1) as (? & ? & _).
  - intros o w1 H1. destruct (dispatch_frame _ _ _ _ H1) as (? & ? & _).
    split; [|done].
    by apply (dispatch_outcome (λ o, o = ReturnedVoid)
                (windows_provider_dispose_dict_work dict) w o w1).
  - unfold windows_provider_dispose, bind in H.
    destruct (dispatch _ w) as [[o w1]|] eqn:Hdis; [|discriminate].
    destruct (dispatch_frame _ _ _ _ Hdis) as (Hrc1 & _ & _).
    destruct (release_spec _ _ H) as [Hrc' Hcase].
    rewrite Hrc1, Hrc in Hrc', Hcase. cbn in Hcase. destruct Hcase as [Hnone _].
    split; [exact Hrc'|]. split; [exact Hnone|]. split.
    + intros word len. unfold windows_dict_check, windows_dict_suggest, c_entry, bind.
      by rewrite !dispatch_null.
    + unfold windows_provider_dispose_dict. by rewrite dispatch_null.
Qed.

End DictionaryFacts.
(** ** Safety of the dispatcher under any interleaving *)

Section InterleavingFacts.
Import Dispatcher Interleaving.
Context {E T : Type}.
Implicit Types (s : system E T) (d : dispatcher E T) (c : caller E T).

Lemma invoked_app (tr tr' : list event) : invoked (tr ++ tr') = invoked tr ++ invoked tr'.
Proof. unfold invoked. apply omap_app. Qed.

Lemma invoked_dtor d : invoked (CoInitializer_dtor d) = [].
Proof. unfold CoInitializer_dtor. by destruct (CoInitializeEx_ok d). Qed.

Lemma coherent_new (e : E) ok : coherent (e, @CoThreadDispatcher_new E T ok).
Proof.
  constructor; cbn; try done.
  all: try (intros j H; inversion H).
  constructor.
Qed.

(** A step of the worker that touches neither the calls nor the slot. *)
Lemma coherent_worker_move e e' d d' :
  coherent (e, d) →
  callers d' = callers d →
  dispatched_function d' = dispatched_function d →
  invoked (trace d') = invoked (trace d) →
  dispatch_thread d' ≠ WTerminated →
  (processing_mutex d' = Some Worker ↔ worker_holds (dispatch_thread d') = true) →
  (∀ j, processing_mutex d' = Some (Caller j) ↔ processing_mutex d = Some (Caller j)) →
  (woken (dispatch_thread d') = true → woken (dispatch_thread d) = true) →
  coherent (e', d').
Proof.
  intros [Ha Hw Hc Hs Hk Ho Hn Hd] Hcs Hsl Hinv Hal Hwk Hmx Hwo. cbn in *.
  constructor; cbn; rewrite ?Hcs, ?Hsl, ?Hinv; try done.
  - intros j c Hj. destruct (Hc j c Hj) as [H1 H2 H3 H4 H5 H6 H7].
    constructor; rewrite ?Hsl, ?Hinv, ?Hmx; done.
  - eauto.
  - intros j Hj. apply Ho. by apply Hmx.
Qed.

Lemma worker_step_coherent s s' :
  coherent s → worker_step s = Some s' → coherent s'.
Proof.
  destruct s as [e d]. intros Hc H.
  pose proof Hc as [Ha Hw Hcs Hs Hk Ho Hn Hd]. cbn in *.
  unfold worker_step in H.
  destruct (dispatch_thread d) eqn:Hth.
  - (* WEntry *)
    destruct (processing_mutex d) eqn:Hm; [discriminate|]. inversion H; subst.
    eapply coherent_worker_move; [exact Hc|..]; cbn; rewrite ?Hm; try done.
  - (* WInit *)
    inversion H; subst.
    eapply coherent_worker_move; [exact Hc|..]; cbn; try done.
    all: rewrite ?invoked_app, ?app_nil_r, ?Hw; cbn; rewrite ?app_nil_r; try done.
  - (* WLoop *)
    assert (processing_mutex d = Some Worker) as Hm by (by apply Hw).
    destruct (running d); inversion H; subst;
      (eapply coherent_worker_move; [exact Hc|..]); cbn; rewrite ?Hm; try done.
  - discriminate.
  - (* WNotified *)
    destruct (processing_mutex d) eqn:Hm; [discriminate|]. inversion H; subst.
    eapply coherent_worker_move; [exact Hc|..]; cbn; rewrite ?Hm, ?Hth; try done.
  - (* WCall *)
    destruct (Hk eq_refl) as (j & c0 & Hsl & Hj & Hfut).
    rewrite Hsl, Hj, Hfut in H.
    destruct (Hcs j c0 Hj) as [H1 H2 H3 H4 H5 H6 H7].
    assert (processing_mutex d = Some Worker) as Hm by (by apply Hw).
    assert (holds_lock (c_pc c0) = false) as Hnl.
    { destruct (holds_lock (c_pc c0)); [|done].
      destruct H1 as [_ H1]. specialize (H1 eq_refl). congruence. }
    assert (c_pc c0 ≠ CDone) as Hnd.
    { intros Hpc. destruct H4 as [o1 Ho1]; [by rewrite Hpc|]. congruence. }
    assert (j ∉ invoked (trace d)) as Hnin.
    { intros Hin. apply H2 in Hin. destruct Hin as [o1 Ho1]. congruence. }
    destruct (task_of (c_call c0) (running d) e) as [[r e'] o] eqn:Ht.
    assert (s' = (e', set_thread WLoop
                        (set_running r (log [EvInvoke j]
                                          (put_caller j (set_future o c0) d))))) as ->.
    { destruct (c_pc c0); try done; by inversion H. }
    clear H.
    assert (∀ k, k ∈ invoked (trace d ++ [EvInvoke j]) ↔ k ∈ invoked (trace d) ∨ k = j)
      as Hin.
    { intros k. rewrite invoked_app. cbn. rewrite elem_of_app, list_elem_of_singleton.
      done. }
    constructor; cbn -[invoked].
    + done.
    + done.
    + intros k c Hk'. destruct (decide (k = j)) as [->|Hne].
      * rewrite list_lookup_insert_eq in Hk' by (by eapply lookup_lt_Some).
        inversion Hk'; subst. clear Hk'.
        constructor; cbn -[invoked]; try done.
        -- rewrite Hin. split; eauto.
        -- intros _. split; [|done]. destruct (Hs j Hsl) as (c1 & Hc1 & Hst). congruence.
        -- intros o' [= <-]. exists (running d), e. by rewrite Ht.
        -- intros o' Ho'. apply H7 in Ho'. congruence.
      * rewrite list_lookup_insert_ne in Hk' by done.
        destruct (Hcs k c Hk') as [G1 G2 G3 G4 G5 G6 G7].
        constructor; cbn -[invoked]; try done.
        rewrite Hin. rewrite G2. split; [eauto|]. intros [?|?]; done.
    + intros k Hk'. destruct (Hs k Hk') as (c1 & Hc1 & Hst).
      destruct (decide (k = j)) as [->|Hne].
      * rewrite list_lookup_insert_eq by (by eapply lookup_lt_Some).
        eexists. split; [done|]. cbn. congruence.
      * rewrite list_lookup_insert_ne by done. eauto.
    + done.
    + intros k Hk'. rewrite Hm in Hk'. discriminate.
    + intros k Hk'. apply Hin in Hk'.
      apply lookup_lt_is_Some. rewrite length_insert. apply lookup_lt_is_Some.
      destruct Hk' as [?| ->]; eauto.
    + rewrite invoked_app. cbn. apply NoDup_app. split; [done|]. split.
      * intros k Hk' Hk''. apply list_elem_of_singleton in Hk''. by subst.
      * apply NoDup_singleton.
  - (* WTeardown *)
    inversion H; subst.
    eapply coherent_worker_move; [exact Hc|..]; cbn; try done.
    all: rewrite ?invoked_app, ?invoked_dtor, ?app_nil_r, ?Hw; try done.
  - (* WUnlock *)
    assert (processing_mutex d = Some Worker) as Hm by (by apply Hw).
    inversion H; subst.
    eapply coherent_worker_move; [exact Hc|..]; cbn; rewrite ?Hm; try done.
    all: rewrite ?invoked_app; cbn; rewrite ?app_nil_r; try done.
  - discriminate.
  - discriminate.
Qed.

Lemma coherent_lock_free e d :
  coherent (e, d) → processing_mutex d = None →
  worker_holds (dispatch_thread d) = false ∧
  ∀ k ck, callers d !! k = Some ck → holds_lock (c_pc ck) = false.
Proof.
  intros [Ha Hw Hcs Hs Hk Ho Hn Hd] Hm. cbn in *. split.
  - destruct (worker_holds (dispatch_thread d)); [|done].
    destruct Hw as [_ Hw]. specialize (Hw eq_refl). congruence.
  - intros k ck Hk'. destruct (Hcs k ck Hk') as [[_ H1] _ _ _ _ _ _].
    destruct (holds_lock (c_pc ck)); [|done]. specialize (H1 eq_refl). congruence.
Qed.

Lemma coherent_lock_held e d i c :
  coherent (e, d) → callers d !! i = Some c → holds_lock (c_pc c) = true →
  processing_mutex d = Some (Caller i) ∧
  worker_holds (dispatch_thread d) = false ∧
  c_future c = None ∧
  ∀ k ck, k ≠ i → callers d !! k = Some ck → holds_lock (c_pc ck) = false.
Proof.
  intros [Ha Hw Hcs Hs Hk Ho Hn Hd] Hi Hl. cbn in *.
  destruct (Hcs i c Hi) as [[_ H1] _ H3 _ _ _ _].
  specialize (H1 Hl). split; [done|]. split; [|split].
  - destruct (worker_holds (dispatch_thread d)); [|done].
    destruct Hw as [_ Hw]. specialize (Hw eq_refl). congruence.
  - destruct (c_future c) as [o|] eqn:Hf; [|done].
    destruct (H3 ltac:(eauto)) as [_ H3']. congruence.
  - intros k ck Hne Hk'. destruct (Hcs k ck Hk') as [[_ G1] _ _ _ _ _ _].
    destruct (holds_lock (c_pc ck)); [|done]. specialize (G1 eq_refl). congruence.
Qed.

(** A step of caller [i] from record [c] to record [c']. *)
Lemma coherent_caller_move e d d' i c c' :
  coherent (e, d) → callers d !! i = Some c →
  callers d' = <[i := c']> (callers d) →
  invoked (trace d') = invoked (trace d) →
  c_future c' = c_future c → c_call c' = c_call c →
  (∀ o, c_ret c' = Some o → c_future c = Some o) →
  dispatch_thread d' ≠ WTerminated →
  (processing_mutex d' = Some Worker ↔ worker_holds (dispatch_thread d') = true) →
  (∀ k, k ≠ i →
     (processing_mutex d' = Some (Caller k) ↔ processing_mutex d = Some (Caller k))) →
  (processing_mutex d' = Some (Caller i) ↔ holds_lock (c_pc c') = true) →
  (is_Some (c_future c) → has_stored (c_pc c') = true ∧ holds_lock (c_pc c') = false) →
  (past_wait (c_pc c') = true → is_Some (c_future c)) →
  (c_pc c' = CNotify ∨ c_pc c' = CUnlock → dispatched_function d' = Some i) →
  (dispatched_function d' = dispatched_function d ∨
   (dispatched_function d' = Some i ∧ processing_mutex d = Some (Caller i))) →
  (dispatched_function d' = Some i → has_stored (c_pc c') = true) →
  (woken (dispatch_thread d') = true →
   woken (dispatch_thread d) = true ∨
   (dispatched_function d' = Some i ∧ c_future c = None)) →
  coherent (e, d').
Proof.
  intros Hc Hi Hcs' Hinv Hfut Hcall Hret Hal Hwk Hoth Hown Hearly Hgot Hst Hsl Hsi Hwo.
  pose proof Hc as [Ha Hw Hcs Hs Hk Ho Hn Hd]. cbn in *.
  pose proof (Hcs i c Hi) as [H1 H2 H3 H4 H5 H6 H7].
  pose proof (lookup_lt_Some _ _ _ Hi) as Hlt.
  assert (processing_mutex d = Some (Caller i) → c_future c = None) as Hheld.
  { intros Hm. apply H1 in Hm. destruct (c_future c) eqn:Hf; [|done].
    destruct (H3 ltac:(eauto)). congruence. }
  constructor; cbn -[invoked]; rewrite ?Hcs', ?Hinv; try done.
  - intros k ck Hk'. destruct (decide (k = i)) as [->|Hne].
    + rewrite list_lookup_insert_eq in Hk' by done. inversion Hk'; subst. clear Hk'.
      constructor; rewrite ?Hinv, ?Hfut, ?Hcall; try done.
    + rewrite list_lookup_insert_ne in Hk' by done.
      destruct (Hcs k ck Hk') as [G1 G2 G3 G4 G5 G6 G7].
      constructor; rewrite ?Hinv; try done.
      * by rewrite Hoth.
      * intros Hpc. specialize (G5 Hpc). destruct Hsl as [->|[_ Hm]]; [done|].
        assert (holds_lock (c_pc ck) = true) as Hl by (by destruct Hpc as [-> | ->]).
        apply G1 in Hl. congruence.
  - intros j Hj. destruct (decide (j = i)) as [->|Hne].
    + rewrite list_lookup_insert_eq by done. eauto.
    + rewrite list_lookup_insert_ne by done. apply Hs.
      destruct Hsl as [<-|[Hsl _]]; [done|congruence].
  - intros Hwoken. destruct (Hwo Hwoken) as [Hold|[Hnew Hnone]].
    + destruct (Hk Hold) as (j & cj & Hj & Hcj & Hfj).
      destruct Hsl as [Hsame|[Hnew Hm]].
      * exists j. destruct (decide (j = i)) as [->|Hne].
        -- exists c'. rewrite list_lookup_insert_eq by done.
           split; [congruence|]. split; [done|]. congruence.
        -- exists cj. rewrite list_lookup_insert_ne by done.
           split; [congruence|]. done.
      * exists i, c'. rewrite list_lookup_insert_eq by done.
        split; [done|]. split; [done|]. rewrite Hfut. by apply Hheld.
    + exists i, c'. rewrite list_lookup_insert_eq by done.
      split; [done|]. split; [done|]. congruence.
  - intros j Hj. apply lookup_lt_is_Some. rewrite length_insert.
    destruct (decide (j = i)) as [->|Hne]; [done|].
    apply lookup_lt_is_Some. apply Ho. by apply Hoth.
  - intros j Hj. apply lookup_lt_is_Some. rewrite length_insert.
    apply lookup_lt_is_Some. by apply Hn.
Qed.

Lemma caller_step_coherent i c s s' :
  coherent s → callers s.2 !! i = Some c → caller_step i c s = Some s' → coherent s'.
Proof.
  destruct s as [e d]. cbn [snd]. intros Hc Hi H.
  pose proof Hc as [Ha Hw Hcs Hs Hk Ho Hn Hd]. cbn in *.
  pose proof (Hcs i c Hi) as [H1 H2 H3 H4 H5 H6 H7].
  unfold caller_step in H.
  destruct (c_pc c) eqn:Hpc; cbn in *.
  - (* CLock *)
    destruct (processing_mutex d) eqn:Hm; [discriminate|]. inversion H; subst. clear H.
    destruct (coherent_lock_free e d Hc Hm) as [Hwh Hfree].
    eapply (coherent_caller_move e d _ i c (set_pc CStore c)); try done; cbn;
      rewrite ?Hm, ?Hwh, ?Hpc; try done; try (intros; intuition congruence).
    intros Hsl. destruct (Hs i Hsl) as (c1 & Hc1 & Hst).
    assert (c1 = c) as -> by congruence. rewrite Hpc in Hst. done.
  - (* CStore *)
    inversion H; subst. clear H.
    destruct (coherent_lock_held e d i c Hc Hi) as (Hm & Hwh & Hfn & Hfree);
      [by rewrite Hpc|].
    eapply (coherent_caller_move e d _ i c (set_pc CNotify c)); try done; cbn;
      rewrite ?Hm, ?Hwh, ?Hpc; try done; try (intros; intuition congruence).
  - (* CNotify *)
    inversion H; subst. clear H.
    destruct (coherent_lock_held e d i c Hc Hi) as (Hm & Hwh & Hfn & Hfree);
      [by rewrite Hpc|].
    eapply (coherent_caller_move e d _ i c (set_pc CUnlock c)); try done; cbn;
      rewrite ?Hm, ?Hpc; try done; try (intros; intuition congruence).
    all: try (destruct (dispatch_thread d); cbn in *; try done; intuition congruence).
  - (* CUnlock *)
    inversion H; subst. clear H.
    destruct (coherent_lock_held e d i c Hc Hi) as (Hm & Hwh & Hfn & Hfree);
      [by rewrite Hpc|].
    eapply (coherent_caller_move e d _ i c (set_pc CWait c)); try done; cbn;
      rewrite ?Hm, ?Hwh, ?Hpc; try done; try (intros; intuition congruence).
  - (* CWait *)
    destruct (c_future c) as [o|] eqn:Hf; [|discriminate]. inversion H; subst. clear H.
    eapply (coherent_caller_move e d _ i c
              (set_pc (after_get (c_call c)) (set_ret o c))); try done; cbn;
      rewrite ?Hpc, ?Hf; try done; try (intros; intuition congruence).
    all: destruct (c_call c); cbn; try done; try (intros; intuition congruence).
  - (* CJoin *)
    destruct (dispatch_thread d) eqn:Hth; try discriminate. inversion H; subst. clear H.
    eapply (coherent_caller_move e d _ i c (set_pc CDone c)); try done; cbn;
      rewrite ?Hpc, ?Hth; try done; try (intros; intuition congruence).
    rewrite invoked_app. cbn. by rewrite app_nil_r.
  - discriminate.
Qed.

Lemma step_coherent a s s' : coherent s → step a s = Some s' → coherent s'.
Proof.
  intros Hc. unfold step. destruct (dispatch_thread s.2); try discriminate.
  all: destruct a as [|i]; [by apply worker_step_coherent|].
  all: destruct (callers s.2 !! i) as [c|] eqn:Hi; [|discriminate].
  all: by apply caller_step_coherent.
Qed.

Lemma submit_coherent e d k : coherent (e, d) → coherent (e, submit k d).
Proof.
  intros Hc. pose proof Hc as [Ha Hw Hcs Hs Hk Ho Hn Hd]. cbn in *.
  assert (∀ j, is_Some (callers d !! j) → j ≠ length (callers d)) as Hnew.
  { intros j Hj. apply lookup_lt_is_Some in Hj. lia. }
  constructor; cbn -[invoked]; try done.
  - intros j c Hj. apply lookup_app_Some in Hj as [Hj|[Hge Hj]].
    + destruct (Hcs j c Hj). by constructor.
    + destruct (j - length (callers d))%nat eqn:Hdiff; [|done].
      cbn in Hj. inversion Hj; subst. clear Hj.
      assert (j = length (callers d)) as -> by lia.
      constructor; cbn -[invoked]; try done.
      * split; [|done]. intros Hm. apply Ho, Hnew in Hm. done.
      * split; [by intros [? ?]|]. intros Hin. apply Hn, Hnew in Hin. done.
      * by intros [?|?].
  - intros j Hj. destruct (Hs j Hj) as (c & Hc' & Hst). exists c.
    split; [|done]. by apply lookup_app_l_Some.
  - intros Hwo. destruct (Hk Hwo) as (j & c & Hj & Hc' & Hf). exists j, c.
    split; [done|]. split; [|done]. by apply lookup_app_l_Some.
  - intros j Hj. apply Ho in Hj. destruct Hj as [c Hj]. exists c.
    by apply lookup_app_l_Some.
  - intros j Hj. apply Hn in Hj. destruct Hj as [c Hj]. exists c.
    by apply lookup_app_l_Some.
Qed.

(** Every state of the dispatcher is coherent. *)
Lemma reachable_coherent s : reachable s → coherent s.
Proof.
  induction 1 as [e ok|e d k _ IH|a s s' _ IH Hstep].
  - apply coherent_new.
  - by apply submit_coherent.
  - by eapply step_coherent.
Qed.

Lemma run_reachable sch : ∀ s s', reachable s → run sch s = Some s' → reachable s'.
Proof.
  induction sch as [|a sch IH]; intros s s' Hr H; cbn in H.
  - by inversion H; subst.
  - destruct (step a s) as [s1|] eqn:Hs; [|discriminate].
    eapply IH; [|exact H]. by eapply reach_step.
Qed.

Lemma bounded_nodup_length (l : list nat) n :
  NoDup l → (∀ x, x ∈ l → (x < n)%nat) → (length l ≤ n)%nat.
Proof.
  intros Hnd Hlt.
  assert (l ⊆+ seq 0 n) as Hsub.
  { apply NoDup_submseteq; [done|]. intros x Hx. apply elem_of_seq.
    specialize (Hlt x Hx). lia. }
  apply submseteq_length in Hsub. by rewrite length_seq in Hsub.
Qed.

(** X11: under any interleaving of any number of threads that enter
    [dispatch] or the destructor at any time, and with [wait] returning
    only after a notification, the worker thread is never terminated by
    an exception: whenever it calls [dispatched_function] the slot is not
    empty and holds the task of a call that is still waiting for its
    result and whose task has not been run. At no time do two threads
    hold [processing_mutex]. *)
Theorem worker_never_terminated s :
  reachable s →
  dispatch_thread s.2 ≠ WTerminated ∧
  (dispatch_thread s.2 = WCall →
   ∃ j c, dispatched_function s.2 = Some j ∧ callers s.2 !! j = Some c ∧
          c_pc c = CWait ∧ c_future c = None) ∧
  (∀ i j ci cj, callers s.2 !! i = Some ci → callers s.2 !! j = Some cj →
     holds_lock (c_pc ci) = true → holds_lock (c_pc cj) = true → i = j) ∧
  (∀ i ci, callers s.2 !! i = Some ci → holds_lock (c_pc ci) = true →
     worker_holds (dispatch_thread s.2) = false).
Proof.
  intros Hr. pose proof (reachable_coherent s Hr) as Hc.
  pose proof Hc as [Ha Hw Hcs Hs Hk Ho Hn Hd].
  split; [done|]. split; [|split].
  - intros Hth. rewrite Hth in Hk, Hw. destruct (Hk eq_refl) as (j & c & Hj & Hc' & Hf).
    exists j, c. split; [done|]. split; [done|]. split; [|done].
    destruct (Hcs j c Hc') as [H1 H2 H3 H4 H5 H6 H7].
    destruct (Hs j Hj) as (c1 & Hc1 & Hst). assert (c1 = c) as -> by congruence.
    assert (processing_mutex s.2 = Some Worker) as Hm by (by apply Hw).
    destruct (c_pc c) eqn:Hpc; cbn in *; try done.
    + destruct H1 as [_ H1]. specialize (H1 eq_refl). congruence.
    + destruct H1 as [_ H1]. specialize (H1 eq_refl). congruence.
    + destruct H4 as [? ?]; [done|congruence].
    + destruct H4 as [? ?]; [done|congruence].
  - intros i j ci cj Hi Hj Hli Hlj.
    destruct (Hcs i ci Hi) as [[_ H1] _ _ _ _ _ _].
    destruct (Hcs j cj Hj) as [[_ G1] _ _ _ _ _ _].
    specialize (H1 Hli). specialize (G1 Hlj). congruence.
  - intros i ci Hi Hli. destruct s as [e d].
    by destruct (coherent_lock_held e d i ci Hc Hi Hli) as (_ & ? & _).
Qed.

(** X12: under any interleaving of any number of threads, with [wait]
    returning only after a notification, no task is run twice and only
    tasks of calls that were made are run: the calls whose task the worker
    has run are pairwise distinct, they are exactly the calls whose future
    holds a result, and there are no more of them than calls made. *)
Theorem tasks_run_at_most_once s :
  reachable s →
  NoDup (invoked (trace s.2)) ∧
  (∀ j, j ∈ invoked (trace s.2)
        ↔ ∃ c, callers s.2 !! j = Some c ∧ is_Some (c_future c)) ∧
  (length (invoked (trace s.2)) ≤ length (callers s.2))%nat.
Proof.
  intros Hr. pose proof (reachable_coherent s Hr) as [Ha Hw Hcs Hs Hk Ho Hn Hd].
  split; [done|]. split.
  - intros j. split.
    + intros Hin. destruct (Hn j Hin) as [c Hj]. exists c. split; [done|].
      by apply (coh_run _ _ _ (Hcs j c Hj)).
    + intros (c & Hj & Hf). by apply (coh_run _ _ _ (Hcs j c Hj)).
  - apply bounded_nodup_length; [done|]. intros j Hin.
    by apply lookup_lt_is_Some, Hn.
Qed.

(** X13: under any interleaving of any number of threads, with [wait]
    returning only after a notification, a call that has returned hands
    back an outcome of its own task and of no other: its task has been
    run, once, and what the call returned is what the task left in its
    future. *)
Theorem returned_outcome_is_own s i o :
  reachable s → returned i s = Some o →
  ∃ c, callers s.2 !! i = Some c ∧ c_pc c = CDone ∧
       c_ret c = Some o ∧ c_future c = Some o ∧
       (∃ r e, o = (task_of (c_call c) r e).2) ∧
       i ∈ invoked (trace s.2).
Proof.
  intros Hr Hret. pose proof (reachable_coherent s Hr) as [Ha Hw Hcs Hs Hk Ho Hn Hd].
  unfold returned in Hret. destruct (callers s.2 !! i) as [c|] eqn:Hi; [|discriminate].
  destruct (c_pc c) eqn:Hpc; try discriminate.
  destruct (Hcs i c Hi) as [H1 H2 H3 H4 H5 H6 H7].
  exists c. split; [done|]. split; [done|]. split; [done|].
  pose proof (H7 o Hret) as Hf. split; [done|]. split; [by apply H6|].
  apply H2. eauto.
Qed.

(** X14: the [wait] of [threadProc] has no predicate. On a dispatcher
    between calls, a return of [wait] without a notification makes the
    worker take the lock and call [dispatched_function] as it stands: the
    slot is empty ([std::bad_function_call] leaves [threadProc]) or holds
    the task of a call that has returned already, and the worker thread
    is terminated. No thread moves afterwards. *)
Theorem spurious_wakeup_ends_worker (e : E) d :
  settled d → dispatch_thread d = WWaiting →
  ∃ s1 s2 s3,
    spurious_wakeup (e, d) = Some s1 ∧
    step Worker s1 = Some s2 ∧ dispatch_thread s2.2 = WCall ∧
    step Worker s2 = Some s3 ∧ dispatch_thread s3.2 = WTerminated ∧
    s3.1 = e ∧ trace s3.2 = trace d ∧
    ∀ a, step a s3 = None.
Proof.
  intros (Hrun & Hdone & Hst) Hth.
  assert (processing_mutex d = None) as Hm.
  { destruct Hst as [[_ ?]|[? _]]; [done|congruence]. }
  destruct d as [r m sl w ok cs tr]. cbn in *. subst.
  unfold spurious_wakeup, step, worker_step. cbn.
  eexists _, _, (e, {| running := true; processing_mutex := Some Worker;
                       dispatched_function := sl; dispatch_thread := WTerminated;
                       CoInitializeEx_ok := ok; callers := cs; trace := tr |}).
  split; [reflexivity|]. split; [reflexivity|]. split; [reflexivity|]. split.
  - cbn. destruct sl as [i|]; [|reflexivity].
    destruct (cs !! i) as [c|] eqn:Hi; [|reflexivity].
    pose proof (Forall_lookup_1 _ _ _ _ Hdone Hi) as Hpc. unfold call_done in Hpc.
    by rewrite Hpc.
  - split; [done|]. split; [done|]. split; [done|]. by intros [|j].
Qed.

End InterleavingFacts.
(** ** The life of the worker thread *)

Section WorkerLife.
Import Dispatcher Interleaving.
Context {E T : Type}.
Implicit Types (s : system E T) (d : dispatcher E T) (c : caller E T).

Lemma stop_requested_put d i c c' :
  callers d !! i = Some c → c_call c' = c_call c →
  (is_Some (c_future c) → is_Some (c_future c')) →
  stop_requested d → stop_requested (put_caller i c' d).
Proof.
  intros Hi Hcall Hfut (j & cj & Hj & Hk & Hf).
  destruct (decide (j = i)) as [->|Hne].
  - exists i, c'. cbn. rewrite list_lookup_insert_eq by (by eapply lookup_lt_Some).
    assert (cj = c) as -> by congruence. split; [done|]. split; [congruence|eauto].
  - exists j, cj. cbn. rewrite list_lookup_insert_ne by done. done.
Qed.

Lemma worker_life_new ok : worker_life (@CoThreadDispatcher_new E T ok).
Proof. by cbn. Qed.

Lemma worker_life_submit d k : worker_life d → worker_life (submit k d).
Proof.
  assert (stop_requested d → stop_requested (submit k d)) as Hst.
  { intros (j & cj & Hj & Hk & Hf). exists j, cj. split; [|done].
    by apply lookup_app_l_Some. }
  unfold worker_life. cbn. destruct (dispatch_thread d); intuition eauto.
Qed.

Lemma worker_step_life s s' :
  worker_life s.2 → worker_step s = Some s' → worker_life s'.2.
Proof.
  destruct s as [e d]. unfold worker_life, worker_step. cbn [snd].
  destruct (dispatch_thread d) eqn:Hth; intros Hl H.
  - destruct (processing_mutex d); [discriminate|]. inversion H; subst. done.
  - inversion H; subst. cbn. destruct Hl as [-> _]. split; [by exists []|done].
  - destruct Hl as [Htr Hst].
    destruct (running d) eqn:Hr; inversion H; subst; cbn; rewrite ?Hr; eauto.
  - discriminate.
  - destruct (processing_mutex d); [discriminate|]. inversion H; subst. done.
  - destruct Hl as [[js Htr] Hr].
    destruct (dispatched_function d) as [i|]; [|by inversion H].
    destruct (callers d !! i) as [c|] eqn:Hi; [|by inversion H].
    destruct (task_of (c_call c) (running d) e) as [[r e'] o] eqn:Ht.
    assert (s' = (e, set_thread WTerminated d) ∨
            s' = (e', set_thread WLoop
                        (set_running r (log [EvInvoke i]
                                          (put_caller i (set_future o c) d))))) as [->| ->].
    { destruct (c_pc c), (c_future c); inversion H; eauto. }
    + done.
    + cbn. split.
      * exists (js ++ [i]). rewrite Htr, map_app. done.
      * intros ->. exists i, (set_future o c). cbn.
        rewrite list_lookup_insert_eq by (by eapply lookup_lt_Some).
        split; [done|]. split; [|eauto].
        destruct (c_call c) as [f|]; [|done].
        cbn in Ht. destruct (f e). inversion Ht. congruence.
  - destruct Hl as ([js Htr] & Hr & Hst). inversion H; subst. cbn.
    split; [|done]. exists js. by rewrite Htr.
  - destruct Hl as ([js Htr] & Hr & Hst). inversion H; subst. cbn.
    split; [|done]. exists js, []. rewrite Htr. cbn. by rewrite <- app_assoc.
  - discriminate.
  - discriminate.
Qed.

Lemma stop_requested_callers d d' i c c' :
  callers d !! i = Some c → callers d' = <[i := c']> (callers d) →
  c_call c' = c_call c → (is_Some (c_future c) → is_Some (c_future c')) →
  stop_requested d → stop_requested d'.
Proof.
  intros Hi Hcs Hcall Hfut Hst.
  destruct (stop_requested_put d i c c' Hi Hcall Hfut Hst) as (j & cj & Hj & Hk & Hf).
  exists j, cj. rewrite Hcs. done.
Qed.

(** A step of a caller that records nothing. *)
Lemma life_caller_move d d' i c c' :
  callers d !! i = Some c → callers d' = <[i := c']> (callers d) →
  c_call c' = c_call c → (is_Some (c_future c) → is_Some (c_future c')) →
  running d' = running d → CoInitializeEx_ok d' = CoInitializeEx_ok d →
  trace d' = trace d →
  (dispatch_thread d' = dispatch_thread d ∨
   (dispatch_thread d = WWaiting ∧ dispatch_thread d' = WNotified)) →
  worker_life d → worker_life d'.
Proof.
  intros Hi Hcs Hcall Hfut Hr Hok Htr Hth Hl.
  pose proof (stop_requested_callers d d' i c c' Hi Hcs Hcall Hfut) as Hst.
  assert (CoInitializer_dtor d' = CoInitializer_dtor d) as Hdt
      by (unfold CoInitializer_dtor; by rewrite Hok).
  unfold worker_life in *. rewrite Hr, Hok, Htr, Hdt.
  destruct Hth as [->|[Hw ->]]; [|by rewrite Hw in Hl].
  destruct (dispatch_thread d); intuition eauto.
Qed.

Lemma caller_step_life i c s s' :
  callers s.2 !! i = Some c →
  worker_life s.2 → caller_step i c s = Some s' → worker_life s'.2.
Proof.
  destruct s as [e d]. cbn [snd]. intros Hi Hl H. unfold caller_step in H.
  destruct (c_pc c) eqn:Hpc.
  - destruct (processing_mutex d); [discriminate|]. inversion H; subst.
    eapply (life_caller_move d _ i c); eauto.
  - inversion H; subst. eapply (life_caller_move d _ i c); eauto.
  - inversion H; subst. eapply (life_caller_move d _ i c); eauto.
    cbn. destruct (dispatch_thread d); eauto.
  - inversion H; subst. eapply (life_caller_move d _ i c); eauto.
  - destruct (c_future c) as [o|] eqn:Hf; [|discriminate]. inversion H; subst.
    eapply (life_caller_move d _ i c); eauto.
  - destruct (dispatch_thread d) eqn:Hth; try discriminate. inversion H; subst.
    unfold worker_life in *. cbn. rewrite Hth in *.
    destruct Hl as ((js & ks & Htr) & Hr & Hs).
    split; [|split; [done|]].
    + exists js, (ks ++ [i]). rewrite Htr, map_app. cbn.
      by rewrite <- !app_assoc.
    + eapply (stop_requested_callers d _ i c); eauto.
  - discriminate.
Qed.

Lemma step_life a s s' : worker_life s.2 → step a s = Some s' → worker_life s'.2.
Proof.
  intros Hl. unfold step. destruct (dispatch_thread s.2) eqn:Hth; try discriminate.
  all: destruct a as [|i]; [by apply worker_step_life|].
  all: destruct (callers s.2 !! i) as [c|] eqn:Hi; [|discriminate].
  all: by apply caller_step_life.
Qed.

Lemma reachable_life s : reachable s → worker_life s.2.
Proof.
  induction 1 as [e ok|e d k _ IH|a s s' _ IH Hstep].
  - apply worker_life_new.
  - by apply worker_life_submit.
  - by eapply step_life.
Qed.

Lemma invokes_only ev js : (∀ i, ev ≠ EvInvoke i) → ev ∉ map EvInvoke js.
Proof.
  intros Hev. induction js as [|j js IH]; cbn.
  - apply not_elem_of_nil.
  - apply not_elem_of_cons. split; [apply Hev|exact IH].
Qed.

Lemma joins_only ev ks : (∀ i, ev ≠ EvJoin i) → ev ∉ map EvJoin ks.
Proof.
  intros Hev. induction ks as [|j ks IH]; cbn.
  - apply not_elem_of_nil.
  - apply not_elem_of_cons. split; [apply Hev|exact IH].
Qed.

Lemma dtor_only ev d :
  ev ∈ CoInitializer_dtor d → ev = EvCoUninitialize ∧ CoInitializeEx_ok d = true.
Proof.
  unfold CoInitializer_dtor. destruct (CoInitializeEx_ok d); intros Hin.
  - apply list_elem_of_singleton in Hin. done.
  - by apply elem_of_nil in Hin.
Qed.

(** X15: the life of the worker thread, under any interleaving of any
    number of threads and with [wait] returning only after a
    notification. Nothing is recorded before [CoInitializeEx]; from then
    on the trace is the initialisation followed by units of work;
    [running] stays set until the task of the destructor has been run,
    and only then does the thread leave its loop; on its way out it
    uninitialises COM exactly when the initialisation had succeeded, and
    only then exits; [join] returns only after that. *)
Theorem worker_life_cycle s :
  reachable s →
  worker_life s.2 ∧
  (in_loop (dispatch_thread s.2) = true → running s.2 = false → stop_requested s.2) ∧
  (EvThreadExit ∈ trace s.2 → dispatch_thread s.2 = WExited ∧ stop_requested s.2) ∧
  (EvCoUninitialize ∈ trace s.2 → CoInitializeEx_ok s.2 = true ∧ stop_requested s.2) ∧
  (∀ i, EvJoin i ∈ trace s.2 → EvThreadExit ∈ trace s.2).
Proof.
  intros Hr. pose proof (reachable_life s Hr) as Hl.
  pose proof (reachable_coherent s Hr) as [Ha _ _ _ _ _ _ _].
  split; [exact Hl|]. unfold worker_life in Hl.
  destruct (dispatch_thread s.2) eqn:Hth; cbn; try done.
  - destruct Hl as [-> _]. repeat split; try done; intros; by apply elem_of_nil in H.
  - destruct Hl as [-> _]. repeat split; try done; intros; by apply elem_of_nil in H.
  - destruct Hl as [[js ->] Hst]. split; [by intros _|].
    repeat split; intros; exfalso;
      repeat match goal with
             | H : _ ∈ _ :: _ |- _ => apply elem_of_cons in H as [H|H]; [discriminate|]
             end;
      by eapply invokes_only; [|eassumption].
  - destruct Hl as [[js ->] Hrun]. split; [intros _ ?; congruence|].
    repeat split; intros; exfalso;
      repeat match goal with
             | H : _ ∈ _ :: _ |- _ => apply elem_of_cons in H as [H|H]; [discriminate|]
             end;
      by eapply invokes_only; [|eassumption].
  - destruct Hl as [[js ->] Hrun]. split; [intros _ ?; congruence|].
    repeat split; intros; exfalso;
      repeat match goal with
             | H : _ ∈ _ :: _ |- _ => apply elem_of_cons in H as [H|H]; [discriminate|]
             end;
      by eapply invokes_only; [|eassumption].
  - destruct Hl as [[js ->] Hrun]. split; [intros _ ?; congruence|].
    repeat split; intros; exfalso;
      repeat match goal with
             | H : _ ∈ _ :: _ |- _ => apply elem_of_cons in H as [H|H]; [discriminate|]
             end;
      by eapply invokes_only; [|eassumption].
  - destruct Hl as ([js ->] & Hrun & Hst). split; [done|].
    repeat split; try done; intros; exfalso;
      repeat match goal with
             | H : _ ∈ _ :: _ |- _ => apply elem_of_cons in H as [H|H]; [discriminate|]
             end;
      by eapply invokes_only; [|eassumption].
  - destruct Hl as ([js Htr] & Hrun & Hst). split; [done|]. rewrite Htr.
    split; [|split].
    + intros H. exfalso. apply elem_of_cons in H as [H|H]; [discriminate|].
      apply elem_of_app in H as [H|H]; [by eapply invokes_only; [|eassumption]|].
      by apply dtor_only in H as [? _].
    + intros H. split; [|done]. apply elem_of_cons in H as [H|H]; [discriminate|].
      apply elem_of_app in H as [H|H];
        [exfalso; by eapply invokes_only; [|eassumption]|].
      by apply dtor_only in H as [_ ?].
    + intros i H. exfalso. apply elem_of_cons in H as [H|H]; [discriminate|].
      apply elem_of_app in H as [H|H]; [by eapply invokes_only; [|eassumption]|].
      by apply dtor_only in H as [? _].
  - destruct Hl as ((js & ks & Htr) & Hrun & Hst). split; [done|]. rewrite Htr.
    split; [done|]. split.
    + intros H. split; [|done]. apply elem_of_cons in H as [H|H]; [discriminate|].
      apply elem_of_app in H as [H|H];
        [exfalso; by eapply invokes_only; [|eassumption]|].
      apply elem_of_app in H as [H|H]; [by apply dtor_only in H as [_ ?]|].
      apply elem_of_cons in H as [H|H]; [discriminate|].
      exfalso. by eapply joins_only; [|eassumption].
    + intros i _. apply elem_of_cons. right. apply elem_of_app. right.
      apply elem_of_app. right. apply elem_of_cons. by left.
Qed.

End WorkerLife.
(** ** Calls in a row *)

Section FairFacts.
Import Dispatcher Registry Session.

Lemma alternations_from_bounds sch :
  (alternations_from false sch ≤ alternations_from true sch)%nat ∧
  (alternations_from true sch ≤ alternations_from false sch + 1)%nat.
Proof.
  induction sch as [|[|] sch [IH1 IH2]]; cbn; lia.
Qed.

End FairFacts.

Section FairSole.
Import Dispatcher Registry Session Sole.
Context {E T : Type}.
Variables (e0 : E) (cs : list (caller E T)) (sl0 : option nat) (hr : bool)
          (tr0 : list event) (k : call E T).

Local Abbreviation conf := (Sole.conf e0 cs sl0 hr tr0 k).
Local Abbreviation next := (Sole.next k).
Local Abbreviation rank := (Sole.rank k).
Local Abbreviation ok := (Sole.phase_ok k).
Local Abbreviation me := (Sole.me cs).

Lemma unfinished_rank p : ok p = true → finished p = false → (0 < rank p)%nat.
Proof.
  intros Hok Hf. destruct (next_progress k p Hok Hf) as [[q Hq]|[q Hq]];
    pose proof (next_rank k _ _ _ Hok Hq); lia.
Qed.

(** With enough alternations the call returns, and it uses up no more
    of them than its rank. *)
Lemma await_fair sch : ∀ (b : bool) p,
  ok p = true →
  (b = true → next true p = None ∧ finished p = false) →
  (rank p ≤ alternations_from b sch)%nat →
  ∃ o s' rest,
    await me sch (conf p) = Some (o, s', rest) ∧
    (alternations_from b sch ≤ alternations rest + rank p)%nat.
Proof.
  induction sch as [|t sch IH]; intros b p Hok Hb Hr.
  - cbn in Hr. destruct (finished p) eqn:Hf.
    + cbn [await]. rewrite returned_conf, Hf by done.
      eexists _, _, _. split; [reflexivity|]. cbn. lia.
    + pose proof (unfinished_rank p Hok Hf). lia.
  - cbn [await]. rewrite returned_conf by done.
    destruct (finished p) eqn:Hf.
    { eexists _, _, _. split; [reflexivity|].
      destruct b; [destruct (Hb eq_refl); congruence|]. unfold alternations. lia. }
    destruct (turn_conf e0 cs sl0 hr tr0 k t p Hok)
      as (p1 & Hok1 & Hr1 & -> & Hlt & Hsame).
    destruct (alternations_from_bounds sch) as [Hb1 Hb2].
    destruct t; cbn [alternations_from] in Hr |- *.
    + (* a turn of the worker *)
      destruct (next true p) as [q|] eqn:Hn.
      * specialize (Hlt ltac:(eauto)).
        destruct b; [destruct (Hb eq_refl); congruence|].
        destruct (IH false p1 Hok1 ltac:(done) ltac:(lia)) as (o & s' & rest & Ha & Hbd).
        exists o, s', rest. split; [done|]. lia.
      * specialize (Hsame eq_refl). subst p1.
        destruct (IH true p Hok ltac:(done) ltac:(lia)) as (o & s' & rest & Ha & Hbd).
        exists o, s', rest. split; [done|]. lia.
    + (* a turn of the calling thread *)
      destruct b.
      * destruct (Hb eq_refl) as [Hn _].
        destruct (next_progress k p Hok Hf) as [[q Hq]|Hq]; [congruence|].
        specialize (Hlt Hq).
        destruct (IH false p1 Hok1 ltac:(done) ltac:(lia)) as (o & s' & rest & Ha & Hbd).
        exists o, s', rest. split; [done|]. lia.
      * destruct (IH false p1 Hok1 ltac:(done) ltac:(lia)) as (o & s' & rest & Ha & Hbd).
        exists o, s', rest. split; [done|]. lia.
Qed.

End FairSole.

Section FairWorld.
Import Dispatcher Registry Session Sole.
Context {E T : Type}.
Implicit Types (w : world E T) (d : dispatcher E T).

(** A call into a settled dispatcher under fair turns. *)
Lemma enter_fair k d w :
  settled d →
  (rank k PHeld ≤ alternations (schedule w))%nat →
  ∃ o d' w',
    enter k d w = Some ((o, d'), w') ∧
    (alternations (schedule w) ≤ alternations (schedule w') + rank k PHeld)%nat.
Proof.
  intros Hs Hn. unfold enter.
  destruct (settled_submit (backend w) d k Hs) as (p & Hp & ->).
  assert (phase_ok k p = true) as Hok by (by destruct Hp as [->| ->]; destruct k).
  assert (rank k p ≤ rank k PHeld)%nat as Hr.
  { destruct Hp as [->| ->]; destruct k; cbn; lia. }
  destruct (await_fair (backend w) (callers d) (dispatched_function d)
              (CoInitializeEx_ok d) (trace d) k (schedule w) false p Hok
              ltac:(done) ltac:(unfold alternations in Hn; lia))
    as (o & [e1 d1] & rest & Ha & Hbd).
  unfold me in Ha. rewrite Ha. exists o, d1, (set_schedule rest (set_backend e1 w)).
  split; [done|]. cbn [schedule set_schedule]. unfold alternations in *. lia.
Qed.

Lemma enter_dispatch_callers f d w o d' w' :
  settled d →
  enter (CallDispatch f) d w = Some ((o, d'), w') →
  length (callers d') = S (length (callers d)) ∧
  CoInitializeEx_ok d' = CoInitializeEx_ok d.
Proof.
  intros Hs. unfold enter.
  destruct (await _ _ _) as [[[o1 [e1 d1]] sch1]|] eqn:Ha; [|discriminate].
  intros H. inversion H; subst. clear H.
  destruct (settled_submit (backend w) d (CallDispatch f) Hs) as (p & Hp & Heq).
  rewrite Heq in Ha.
  assert (phase_ok (CallDispatch f) p = true) as Hok by (by destruct Hp as [->| ->]).
  destruct (await_conf _ _ _ _ _ _ _ _ _ _ _ Hok Ha) as (p' & Hok' & Hf & Hc & ->).
  assert (d' = (Sole.conf (backend w) (callers d) (dispatched_function d)
                  (CoInitializeEx_ok d) (trace d) (CallDispatch f) p').2)
    as -> by (by rewrite <- Hc).
  destruct p' as [| | | | | | | wt [|] | |]; try discriminate.
  cbn. rewrite length_app. cbn. split; [lia|done].
Qed.

(** One [dispatch] on a settled dispatcher: what it leaves, when it
    returns. *)
Lemma dispatch_settled_trace f w d o w' :
  com_dispatcher w = Some d → settled d →
  dispatch f w = Some (o, w') →
  o = (f (backend w)).2 ∧ backend w' = (f (backend w)).1 ∧
  com_dispatcher_refcount w' = com_dispatcher_refcount w ∧
  history w' = history w ∧ coinit_ok w' = coinit_ok w ∧
  ∃ d', com_dispatcher w' = Some d' ∧ settled d' ∧
        trace d' = trace d ++ [EvInvoke (length (callers d))] ∧
        length (callers d') = S (length (callers d)) ∧
        CoInitializeEx_ok d' = CoInitializeEx_ok d.
Proof.
  intros Hd Hs. unfold dispatch. rewrite Hd. unfold bind.
  destruct (enter _ _ _) as [[[o1 d1] w1]|] eqn:He; [|discriminate].
  cbn. intros H. inversion H; subst. clear H.
  destruct (enter_frame _ _ _ _ _ _ He) as (_ & Hrc & Hco & Hh).
  destruct (enter_dispatch_settled _ _ _ _ _ _ Hs He) as (-> & Hb & Hs' & Htr).
  destruct (enter_dispatch_callers _ _ _ _ _ _ Hs He) as [Hlen Hok].
  cbn. repeat (split; [done|]). exists d1. repeat (split; [done|]). done.
Qed.

Lemma dispatch_fair f w d :
  com_dispatcher w = Some d → settled d →
  (9 ≤ alternations (schedule w))%nat →
  ∃ o w', dispatch f w = Some (o, w') ∧
          (alternations (schedule w) ≤ alternations (schedule w') + 9)%nat.
Proof.
  intros Hd Hs Hn.
  destruct (enter_fair (CallDispatch f) d w Hs Hn) as (o & d' & w' & He & Hbd).
  unfold dispatch. rewrite Hd. unfold bind. rewrite He. cbn.
  eexists _, _. split; [reflexivity|]. exact Hbd.
Qed.

Lemma dispatch_all_settled fs : ∀ w d os w',
  com_dispatcher w = Some d → settled d →
  dispatch_all fs w = Some (os, w') →
  (backend w', os) = run_all fs (backend w) ∧
  com_dispatcher_refcount w' = com_dispatcher_refcount w ∧
  history w' = history w ∧ coinit_ok w' = coinit_ok w ∧
  ∃ d', com_dispatcher w' = Some d' ∧ settled d' ∧
        trace d' = trace d ++ map EvInvoke (seq (length (callers d)) (length fs)) ∧
        length (callers d') = (length (callers d) + length fs)%nat ∧
        CoInitializeEx_ok d' = CoInitializeEx_ok d.
Proof.
  induction fs as [|f fs IH]; intros w d os w' Hd Hs H; cbn in H.
  - inversion H; subst. cbn. repeat (split; [done|]). exists d.
    rewrite app_nil_r, Nat.add_0_r. done.
  - unfold bind in H. destruct (dispatch f w) as [[o w1]|] eqn:H1; [|discriminate].
    destruct (dispatch_all fs w1) as [[os1 w2]|] eqn:H2; [|discriminate].
    inversion H; subst. clear H.
    destruct (dispatch_settled_trace f w d o w1 Hd Hs H1)
      as (-> & Hb1 & Hrc1 & Hh1 & Hco1 & d1 & Hd1 & Hs1 & Htr1 & Hlen1 & Hok1).
    destruct (IH w1 d1 os1 w' Hd1 Hs1 H2)
      as (Hrun & Hrc2 & Hh2 & Hco2 & d2 & Hd2 & Hs2 & Htr2 & Hlen2 & Hok2).
    cbn [run_all]. rewrite Hb1 in Hrun. destruct (f (backend w)) as [e1 o1]. cbn in *.
    rewrite <- Hrun. split; [done|]. split; [congruence|]. split; [congruence|].
    split; [congruence|]. exists d2. split; [done|]. split; [done|].
    split; [|split; [lia|congruence]].
    rewrite Htr2, Htr1, Hlen1, <- app_assoc. done.
Qed.

Lemma dispatch_all_fair fs : ∀ w d,
  com_dispatcher w = Some d → settled d →
  (9 * length fs ≤ alternations (schedule w))%nat →
  ∃ os w', dispatch_all fs w = Some (os, w') ∧
           (alternations (schedule w) ≤ alternations (schedule w') + 9 * length fs)%nat.
Proof.
  induction fs as [|f fs IH]; intros w d Hd Hs Hn; cbn [dispatch_all length] in *.
  - eexists _, _. split; [reflexivity|]. lia.
  - destruct (dispatch_fair f w d Hd Hs ltac:(lia)) as (o & w1 & H1 & Hbd1).
    destruct (dispatch_settled_trace f w d o w1 Hd Hs H1)
      as (_ & _ & _ & _ & _ & d1 & Hd1 & Hs1 & _).
    destruct (IH w1 d1 Hd1 Hs1 ltac:(lia)) as (os & w2 & H2 & Hbd2).
    unfold bind. rewrite H1, H2. eexists _, _. split; [reflexivity|]. lia.
Qed.

(** X16: one thread calling [dispatch] again and again on a dispatcher
    that is between calls. When the calls have returned, they have
    returned, in order, what the callables return when run in place one
    after the other, each on the state the one before left; the worker has
    run them in that order, once each, and the dispatcher is between calls
    again, with the registry untouched. And they do all return whenever
    the turns to come hold 9 alternations of worker and caller for each
    call. *)
Theorem calls_in_a_row (fs : list (E → E * outcome T)) w d :
  com_dispatcher w = Some d → settled d →
  (∀ os w', dispatch_all fs w = Some (os, w') →
     (backend w', os) = run_all fs (backend w) ∧
     com_dispatcher_refcount w' = com_dispatcher_refcount w ∧
     history w' = history w ∧
     ∃ d', com_dispatcher w' = Some d' ∧ settled d' ∧
           trace d' = trace d ++ map EvInvoke (seq (length (callers d)) (length fs))) ∧
  ((9 * length fs ≤ alternations (schedule w))%nat →
   ∃ os w', dispatch_all fs w = Some (os, w') ∧
            (alternations (schedule w)
             ≤ alternations (schedule w') + 9 * length fs)%nat).
Proof.
  intros Hd Hs. split.
  - intros os w' H.
    destruct (dispatch_all_settled fs w d os w' Hd Hs H)
      as (Hrun & Hrc & Hh & _ & d' & Hd' & Hs' & Htr & _).
    repeat (split; [done|]). by exists d'.
  - by apply (dispatch_all_fair fs w d).
Qed.

End FairWorld.
(** ** The race for the lock at the first call *)

Section FirstCall.
Import Dispatcher Registry Session.
Context {E T : Type}.
Variables (e0 : E) (hr : bool) (k : call E T).

Local Abbreviation confS := (Startup.conf e0 hr k).
Local Abbreviation confM := (Sole.conf e0 [] None hr [EvCoInitializeEx hr] k).

(** Once the caller has the lock before the worker has started, the call
    does not return, whatever turns follow. *)
Lemma await_overtaken sch : ∀ p,
  p ≠ Startup.FEntry → p ≠ Startup.FInit → await 0 sch (confS p) = None.
Proof.
  induction sch as [|t sch IH]; intros p H1 H2; cbn [await];
    rewrite startup_not_returned; [done|].
  rewrite startup_turn.
  destruct t, p; try done; cbn [Startup.next]; by apply IH.
Qed.

(** Once the worker has the lock first, the call returns under fair
    turns. *)
Lemma await_started sch :
  (Sole.rank k Sole.PHeld + 1 ≤ alternations sch)%nat →
  ∃ o s' rest,
    await 0 sch (confS Startup.FInit) = Some (o, s', rest) ∧
    (alternations sch ≤ alternations rest + (Sole.rank k Sole.PHeld + 1))%nat.
Proof.
  unfold alternations. induction sch as [|t sch IH]; intros Hn.
  - cbn in Hn. lia.
  - cbn [await]. rewrite startup_not_returned, startup_turn.
    destruct (alternations_from_bounds sch) as [Hb1 Hb2].
    destruct t; cbn [Startup.next alternations_from] in *.
    + destruct (await_fair e0 [] None hr [EvCoInitializeEx hr] k sch false Sole.PHeld
                  ltac:(by destruct k) ltac:(done) ltac:(lia))
        as (o & s' & rest & Ha & Hbd).
      exists o, s', rest. split; [exact Ha|]. unfold alternations in *. lia.
    + destruct (IH Hn) as (o & s' & rest & Ha & Hbd).
      exists o, s', rest. split; [exact Ha|]. lia.
Qed.

End FirstCall.

Section FirstCallWorld.
Import Dispatcher Registry Session.
Context {E T : Type}.
Implicit Types (w : world E T) (d : dispatcher E T).

Lemma enter_caller_locks_first k ok w sch :
  schedule w = CallerTurn :: sch →
  enter k (CoThreadDispatcher_new ok) w = None.
Proof.
  intros Hsch. unfold enter. rewrite Hsch.
  change (backend w, submit k (CoThreadDispatcher_new ok))
    with (Startup.conf (backend w) ok k Startup.FEntry).
  change (length (callers (@CoThreadDispatcher_new E T ok))) with 0%nat.
  cbn [await]. rewrite startup_not_returned, startup_turn. cbn [Startup.next].
  by rewrite await_overtaken.
Qed.

Lemma enter_worker_locks_first k ok w sch :
  schedule w = WorkerTurn :: sch →
  (Sole.rank k Sole.PHeld + 1 ≤ alternations sch)%nat →
  ∃ o d' w',
    enter k (CoThreadDispatcher_new ok) w = Some ((o, d'), w') ∧
    (alternations sch ≤ alternations (schedule w') + (Sole.rank k Sole.PHeld + 1))%nat.
Proof.
  intros Hsch Hn. unfold enter. rewrite Hsch.
  change (backend w, submit k (CoThreadDispatcher_new ok))
    with (Startup.conf (backend w) ok k Startup.FEntry).
  change (length (callers (@CoThreadDispatcher_new E T ok))) with 0%nat.
  cbn [await]. rewrite startup_not_returned, startup_turn. cbn [Startup.next].
  destruct (await_started (backend w) ok k sch Hn) as (o & [e1 d1] & rest & Ha & Hbd).
  rewrite Ha. exists o, d1, (set_schedule rest (set_backend e1 w)). split; [done|].
  exact Hbd.
Qed.

Lemma dispatch_worker_first (f : E → E * outcome T) ok w sch :
  com_dispatcher w = Some (CoThreadDispatcher_new ok) →
  schedule w = WorkerTurn :: sch → (10 ≤ alternations sch)%nat →
  ∃ w', dispatch f w = Some ((f (backend w)).2, w') ∧
        backend w' = (f (backend w)).1 ∧
        com_dispatcher_refcount w' = com_dispatcher_refcount w ∧
        history w' = history w ∧ coinit_ok w' = coinit_ok w ∧
        (alternations sch ≤ alternations (schedule w') + 10)%nat ∧
        ∃ d', com_dispatcher w' = Some d' ∧ settled d' ∧
              trace d' = [EvCoInitializeEx ok; EvInvoke 0] ∧
              length (callers d') = 1%nat ∧ CoInitializeEx_ok d' = ok.
Proof.
  intros Hd Hsch Hn.
  destruct (enter_worker_locks_first (CallDispatch f) ok w sch Hsch Hn)
    as (o & d' & w' & He & Hbd).
  destruct (enter_frame _ _ _ _ _ _ He) as (_ & Hrc & Hco & Hh).
  pose proof He as He'. unfold enter in He'.
  destruct (await _ _ _) as [[[o1 [e1 d1]] sch1]|] eqn:Ha; [|discriminate].
  inversion He'; subst. clear He'.
  destruct (await_startup (backend w) ok (CallDispatch f) _ Startup.FEntry _ _ _ Ha)
    as (p' & Hok' & Hf & Hc & ->).
  destruct p' as [| | | | | | | wt [|] | |]; try discriminate.
  inversion Hc; subst. clear Hc.
  unfold dispatch. rewrite Hd. unfold bind. rewrite He. cbn.
  eexists. split; [reflexivity|]. do 4 (split; [done|]). split; [exact Hbd|].
  eexists. split; [reflexivity|]. split; [|done].
  apply (conf_ran_settled (backend w) [] None ok [EvCoInitializeEx ok]
           (CallDispatch f) (Forall_nil_2 _) wt).
Qed.

(** X17: the first [dispatch] on a dispatcher just constructed is decided
    by the race for [processing_mutex] between the calling thread (line
    86) and the new worker thread (line 102). When the calling thread
    locks first the call never returns, whatever turns follow. When the
    worker locks first the call returns under any turns that hold 10
    alternations of worker and caller, with the outcome of the callable,
    its effect applied once, and the dispatcher between calls. *)
Theorem first_call_race (f : E → E * outcome T) ok w :
  com_dispatcher w = Some (CoThreadDispatcher_new ok) →
  (∀ sch, schedule w = CallerTurn :: sch → dispatch f w = None) ∧
  (∀ sch, schedule w = WorkerTurn :: sch → (10 ≤ alternations sch)%nat →
     ∃ w', dispatch f w = Some ((f (backend w)).2, w') ∧
           backend w' = (f (backend w)).1 ∧
           (alternations sch ≤ alternations (schedule w') + 10)%nat ∧
           ∃ d', com_dispatcher w' = Some d' ∧ settled d' ∧
                 trace d' = [EvCoInitializeEx ok; EvInvoke 0]).
Proof.
  intros Hd. split.
  - intros sch Hsch. unfold dispatch. rewrite Hd. unfold bind.
    by rewrite (enter_caller_locks_first _ ok w sch Hsch).
  - intros sch Hsch Hn.
    destruct (dispatch_worker_first f ok w sch Hd Hsch Hn)
      as (w' & H & Hb & _ & _ & _ & Hbd & d' & Hd' & Hs' & Htr & _).
    exists w'. do 3 (split; [done|]). by exists d'.
Qed.

End FirstCallWorld.
(** ** A whole session *)

Section LastRelease.
Import Dispatcher Registry Session.
Context {E T : Type}.
Implicit Types (w : world E T) (d : dispatcher E T).

(** The release of the last reference under fair turns. *)
Lemma release_last_fair w d :
  com_dispatcher w = Some d → settled d → com_dispatcher_refcount w = 1 →
  (12 ≤ alternations (schedule w))%nat →
  ∃ w' d',
    com_dispatcher_release w = Some (tt, w') ∧
    com_dispatcher_refcount w' = 0 ∧ com_dispatcher w' = None ∧
    backend w' = backend w ∧
    history w' = history w ++ [EvRelease; EvDestroy d'] ∧
    dispatch_thread d' = WExited ∧ running d' = false ∧
    trace d' = trace d ++ [EvInvoke (length (callers d))] ++ CoInitializer_dtor d
                       ++ [EvThreadExit; EvJoin (length (callers d))].
Proof.
  intros Hd Hs Hrc Hn.
  destruct (enter_fair CallDestructor d (set_dispatcher None (record EvRelease w)) Hs Hn)
    as (o & d' & w1 & He & _).
  assert (∃ w', com_dispatcher_release w = Some (tt, w')) as [w' Hrel].
  { unfold com_dispatcher_release, bind, modify, reset_if_last, decrement. cbn.
    rewrite Hrc. cbn. unfold bind. cbn. rewrite Hd. cbn. unfold bind. rewrite He.
    cbn. eauto. }
  destruct (release_spec _ _ Hrel) as [Hrc' Hcase].
  rewrite Hrc in Hrc', Hcase. cbn in Hcase.
  destruct Hcase as (Hnone & w2 & Hres & Hdec & Hrc2 & Hd2 & Hh).
  rewrite Hd in Hh. destruct Hh as (d2 & Hh & Hex).
  destruct (Hex Hs) as (Hb & Hth & Hrun & Htr).
  exists w', d2. split; [done|]. split; [done|]. split; [done|].
  unfold decrement, modify in Hdec. inversion Hdec; subst. cbn. done.
Qed.

End LastRelease.

Section SessionFacts.
Import Dispatcher Registry Provider Session Client.
Variable api : com_api.
Implicit Types (w : world com_world value) (d : dispatcher com_world value).

(** X18: a whole session of one thread. In a process that holds no
    provider, when the new worker thread gets the lock first and the
    turns to come hold 9 alternations of worker and caller for each call
    and 31 more, [init_enchant_provider], the calls and
    [windows_provider_dispose] all return: the provider holds the factory
    [CoCreateInstance] gave; the calls return what their callables return
    when run in place after [CoCreateInstance]; afterwards no provider is
    held, the count is 0 and the pointer null; the dispatcher was
    constructed once and destroyed once; and its thread has initialised
    COM, run the creation of the provider, the calls in order, the
    disposal and the stop request, uninitialised COM if the
    initialisation had succeeded, exited and been joined. *)
Theorem session_round_trip (fs : list work) w sch :
  unused w → schedule w = WorkerTurn :: sch →
  (9 * length fs + 31 ≤ alternations sch)%nat →
  ∃ prov os w' d',
    provider_session api fs w = Some (Some (prov, os), w') ∧
    prov = new_provider
             (Some {| spellCheckerFactory := (CoCreateInstance api (backend w)).2 |}) ∧
    (backend w', os) = run_all fs (backend w ++ [ComCoCreateInstance]) ∧
    unused w' ∧
    history w' = history w ++ [EvAddref; EvConstruct; EvRelease; EvDestroy d'] ∧
    dispatch_thread d' = WExited ∧
    trace d' = [EvCoInitializeEx (coinit_ok w)]
               ++ map EvInvoke (seq 0 (length fs + 3))
               ++ (if coinit_ok w then [EvCoUninitialize] else [])
               ++ [EvThreadExit; EvJoin (length fs + 2)].
Proof.
  intros Hu Hsch Hn. pose proof Hu as [Hrc Hd]. unfold work in *.
  assert (registry_inv w) as Hinv.
  { unfold registry_inv. rewrite Hrc, Hd. split; [lia|]. intros [? ?]. discriminate. }
  (* the acquisition *)
  destruct (addref_returns w Hinv) as [[[] w1] Ha].
  destruct (addref_spec _ _ Ha) as [Hrc1 Hcase]. rewrite Hrc in Hrc1, Hcase.
  cbn in Hcase. destruct Hcase as [Hd1 Hh1]. rewrite Hd in Hh1.
  destruct (addref_backend _ _ Hinv Ha) as (Hb1 & Hs1 & Hco1).
  change (wrap32 (0 + 1)) with 1 in Hrc1.
  (* the creation of the provider, the first call on the new dispatcher *)
  destruct (dispatch_worker_first (init_enchant_provider_work api) (coinit_ok w) w1 sch
              Hd1 ltac:(by rewrite Hs1) ltac:(lia))
    as (w2 & H2 & Hb2 & Hrc2 & Hh2 & Hco2 & Hbd2 & d2 & Hd2 & Hst2 & Htr2 & Hlen2 & Hok2).
  (* the calls *)
  destruct (dispatch_all_fair fs w2 d2 Hd2 Hst2 ltac:(lia)) as (os & w3 & H3 & Hbd3).
  destruct (dispatch_all_settled fs w2 d2 os w3 Hd2 Hst2 H3)
    as (Hrun3 & Hrc3 & Hh3 & Hco3 & d3 & Hd3 & Hst3 & Htr3 & Hlen3 & Hok3).
  (* the disposal *)
  set (prov := new_provider
                 (Some {| spellCheckerFactory := (CoCreateInstance api (backend w)).2 |})).
  destruct (dispatch_fair (windows_provider_dispose_work prov) w3 d3 Hd3 Hst3 ltac:(lia))
    as (o4 & w4 & H4 & Hbd4).
  destruct (dispatch_settled_trace _ w3 d3 o4 w4 Hd3 Hst3 H4)
    as (_ & Hb4 & Hrc4 & Hh4 & Hco4 & d4 & Hd4 & Hst4 & Htr4 & Hlen4 & Hok4).
  (* the release *)
  destruct (release_last_fair w4 d4 Hd4 Hst4 ltac:(congruence) ltac:(lia))
    as (w5 & d5 & H5 & Hrc5 & Hd5 & Hb5 & Hh5 & Hth5 & _ & Htr5).
  exists prov, os, w5, d5.
  assert ((init_enchant_provider_work api (backend w1)).2
          = Returned (VProvider (Some prov))) as Hprov.
  { unfold init_enchant_provider_work, prov. rewrite Hb1.
    by destruct (CoCreateInstance api (backend w)). }
  assert ((init_enchant_provider_work api (backend w1)).1
          = backend w ++ [ComCoCreateInstance]) as Hlog.
  { unfold init_enchant_provider_work. rewrite Hb1.
    by destruct (CoCreateInstance api (backend w)). }
  split.
  { unfold provider_session, init_enchant_provider, init_enchant_provider_with, bind.
    rewrite Ha, H2, Hprov. unfold ret. rewrite H3.
    unfold windows_provider_dispose, bind. rewrite H4, H5. done. }
  split; [done|]. split.
  { rewrite Hb5. cbn in Hb4. rewrite Hb4, Hrun3, Hb2, Hlog. done. }
  split; [done|]. split.
  { rewrite Hh5, Hh4, Hh3, Hh2, Hh1, <- app_assoc. done. }
  split; [done|].
  rewrite Htr5, Htr4, Htr3, Htr2, Hlen4, Hlen3, Hlen2.
  unfold CoInitializer_dtor. rewrite Hok4, Hok3, Hok2.
  replace (length fs + 3)%nat with (1 + (length fs + 2))%nat by lia.
  rewrite seq_app, map_app. cbn [seq map].
  replace (length fs + 2)%nat with (length fs + (1 + 1))%nat at 1 by lia.
  rewrite seq_app, map_app, seq_app, map_app. cbn [seq map].
  rewrite <- !app_assoc. cbn.
  replace (S (1 + length fs)) with (length fs + 2)%nat by lia.
  replace (0 + 1 + length fs)%nat with (1 + length fs)%nat by lia.
  replace (0 + 1 + length fs + 1)%nat with (length fs + 2)%nat by lia.
  replace (S (length fs + 1)) with (S (S (length fs))) by lia.
  replace (length fs + 2)%nat with (S (S (length fs))) by lia.
  done.
Qed.

End SessionFacts.
(** ** The count and the history *)

Section LedgerFacts.
Import Dispatcher Registry Ledger.
Context {E T : Type}.
Implicit Types (w : world E T).

Lemma lifecycle_in_contract w : lifecycle w → in_contract w.
Proof.
  induction 1 as [w [Hu _]|w w' _ IH Hlt Ha|w w' _ IH Hpos Hrel|w f o w' _ IH Hdis].
  - by apply contract_unused.
  - by eapply contract_addref.
  - by eapply contract_release.
  - by eapply contract_dispatch.
Qed.

Lemma count_filter_app (P : reg_event E T → bool) (h h' : list (reg_event E T)) :
  length (filter (λ ev, P ev = true) (h ++ h'))
  = (length (filter (λ ev, P ev = true) h) + length (filter (λ ev, P ev = true) h'))%nat.
Proof. by rewrite filter_app, length_app. Qed.

Ltac tally :=
  unfold addrefs, releases, constructions, destructions in *;
  repeat match goal with H : history _ = _ |- _ => rewrite H; clear H end;
  rewrite ?count_filter_app; rewrite ?filter_cons, ?filter_nil; cbn;
  repeat case_decide; try done; cbn.

Lemma lifecycle_ledger w :
  lifecycle w →
  com_dispatcher_refcount w = Z.of_nat (addrefs w) - Z.of_nat (releases w) ∧
  constructions w
  = (destructions w + if (0 <? com_dispatcher_refcount w)%Z then 1 else 0)%nat.
Proof.
  induction 1 as [w [[Hrc Hd] Hh]|w w' Hl [IH1 IH2] Hlt Ha|w w' Hl [IH1 IH2] Hpos Hrel
                 |w f o w' Hl [IH1 IH2] Hdis].
  - unfold addrefs, releases, constructions, destructions. rewrite Hh, Hrc. done.
  - destruct (in_contract_inv w (lifecycle_in_contract w Hl)) as [Hinv Hr].
    destruct (addref_spec _ _ Ha) as [Hrc' Hcase].
    rewrite wrap32_small in Hrc'
      by (clear -Hr Hlt; unfold count_in_range, UINT32_MAX in *; lia).
    destruct (com_dispatcher_refcount w =? 0) eqn:Hz.
    + apply Z.eqb_eq in Hz. destruct Hcase as [Hd' Hh].
      destruct (com_dispatcher w) as [d|] eqn:Hd.
      { destruct Hinv as [_ Hinv]. specialize (Hinv ltac:(eauto)). lia. }
      rewrite Hz in Hrc', IH1, IH2. change (0 + 1) with 1 in Hrc'.
      rewrite Hrc'. cbn in IH2 |- *.
      revert IH1 IH2. tally. lia.
    + apply Z.eqb_neq in Hz. destruct Hcase as [Hd' Hh].
      rewrite Hrc'.
      assert ((0 <? com_dispatcher_refcount w) = true) as Hp
          by (apply Z.ltb_lt; unfold count_in_range in Hr; lia).
      assert ((0 <? com_dispatcher_refcount w + 1) = true) as Hp'
          by (apply Z.ltb_lt; unfold count_in_range in Hr; lia).
      rewrite Hp in IH2. rewrite Hp'.
      revert IH1 IH2. tally. lia.
  - destruct (in_contract_inv w (lifecycle_in_contract w Hl)) as [Hinv Hr].
    destruct (release_spec _ _ Hrel) as [Hrc' Hcase].
    rewrite wrap32_small in Hrc'
      by (clear -Hr Hpos; unfold count_in_range, UINT32_MAX in *; lia).
    assert ((0 <? com_dispatcher_refcount w) = true) as Hp by (by apply Z.ltb_lt).
    rewrite Hp in IH2.
    destruct (com_dispatcher_refcount w =? 1) eqn:Hz.
    + apply Z.eqb_eq in Hz.
      destruct Hcase as (Hnone & w1 & Hres & Hdec & Hrc1 & Hd1 & Hh).
      destruct (com_dispatcher w) as [d|] eqn:Hd.
      2:{ destruct Hinv as [Hinv _]. destruct (Hinv Hpos) as [? ?]. congruence. }
      destruct Hh as (d' & Hh & _).
      assert (history w' = history w1) as Hh' by (inversion Hdec; done).
      rewrite Hz in Hrc', IH1. change (1 - 1) with 0 in Hrc'.
      rewrite Hrc'. cbn.
      revert IH1 IH2. tally. lia.
    + apply Z.eqb_neq in Hz. destruct Hcase as [Hd' Hh].
      rewrite Hrc'.
      assert ((0 <? com_dispatcher_refcount w - 1) = true) as Hp' by (apply Z.ltb_lt; lia).
      rewrite Hp'.
      revert IH1 IH2. tally. lia.
  - destruct (dispatch_frame _ _ _ _ Hdis) as (Hrc & Hh & _).
    unfold addrefs, releases, constructions, destructions in *. by rewrite Hrc, Hh.
Qed.

(** X19: from the start of the process, as long as the registry is used
    as the design demands, the count is the number of acquisitions made
    less the number of releases made; the dispatcher has been constructed
    once more often than destroyed while the count is positive and as
    often as destroyed while it is 0; and a dispatcher exists exactly
    while more acquisitions than releases have been made. *)
Theorem count_is_outstanding w :
  lifecycle w →
  com_dispatcher_refcount w = Z.of_nat (addrefs w) - Z.of_nat (releases w) ∧
  constructions w
  = (destructions w + if (0 <? com_dispatcher_refcount w)%Z then 1 else 0)%nat ∧
  (is_Some (com_dispatcher w) ↔ (releases w < addrefs w)%nat).
Proof.
  intros Hl. destruct (lifecycle_ledger w Hl) as [H1 H2].
  destruct (in_contract_inv w (lifecycle_in_contract w Hl)) as [Hinv _].
  split; [done|]. split; [done|].
  unfold registry_inv in Hinv. rewrite <- Hinv. lia.
Qed.

End LedgerFacts.
(** ** The further theorems at concrete inputs *)

Section MoreWitnesses.
Import Dispatcher Registry Provider Scenario.
Import Memory UserDictionary Interleaving Session Client Ledger Samples.

Lemma free_string_list_reach_witness :
  copy_string_list_from_enumerator sample_api suggestions = Some (suggestion_list, 3) ∧
  (length (windows_provider_free_string_list_deletes (Some suggestion_list)) ≤ 1)%nat.
Proof.
  assert (copy_string_list_from_enumerator sample_api suggestions
          = Some (suggestion_list, 3)) as H by (vm_compute; reflexivity).
  split; [exact H|].
  destruct (free_string_list_reach sample_api suggestions suggestion_list 3 H)
    as (_ & _ & _ & Hstop).
  apply (Hstop 1%nat 0 (repeat 97 128%nat)); [reflexivity|].
  apply Nat.leb_le. vm_compute. reflexivity.
Defined.

Lemma check_verdict_witness :
  dict_user_data sample_dict = Some {| spellChecker := Some 9%nat |} ∧
  ∃ w', windows_dict_check sample_api sample_dict hi 2 (serving_world 14)
        = Some (Returned (VInt 0), w') ∧
        backend w' = [ComCoCreateInstance; ComCheck 9%nat [104; 105; 0]].
Proof.
  split; [reflexivity|].
  destruct (check_verdict sample_api sample_dict hi 2 9%nat (serving_world 14) eq_refl)
    as [_ Hex].
  destruct (Hex ready eq_refl (or_introl ready_settled) ltac:(by compute))
    as [Hpart _].
  eexists. split; [vm_compute; reflexivity|].
  refine (proj1 (Hpart _ _ _)). vm_compute; reflexivity.
Defined.

Lemma string_lists_counted_witness :
  dict_user_data sample_dict = Some {| spellChecker := Some 9%nat |} ∧
  provider_user_data sample_provider = Some {| spellCheckerFactory := Some 7%nat |} ∧
  ∃ w', windows_provider_list_dicts sample_api sample_provider (serving_world 14)
        = Some (Returned (VStrings (Some []) (Some 0)), w') ∧
        (Returned (VStrings (Some []) (Some 0)) = Returned (VStrings None None) ∨
         ∃ l, Returned (VStrings (Some []) (Some 0))
              = Returned (VStrings (Some l) (Some (Z.of_nat (length l))))).
Proof.
  split; [reflexivity|]. split; [reflexivity|].
  destruct (string_lists_counted sample_api sample_dict sample_provider hi 2 9%nat
              {| spellCheckerFactory := Some 7%nat |} (serving_world 14) eq_refl eq_refl)
    as (_ & Hlist & _).
  eexists. split; [vm_compute; reflexivity|].
  refine (Hlist _ _ _). vm_compute; reflexivity.
Defined.

Lemma request_dict_result_witness :
  provider_user_data sample_provider = Some {| spellCheckerFactory := Some 7%nat |} ∧
  ∃ w', windows_provider_request_dict sample_api sample_provider en_US (serving_world 14)
        = Some (Returned (VDict (Some sample_dict)), w') ∧
        backend w' = [ComCoCreateInstance;
                      ComCreateSpellChecker 7%nat [101; 110; 45; 85; 83; 0; 0]].
Proof.
  split; [reflexivity|].
  destruct (request_dict_result sample_api sample_provider
              {| spellCheckerFactory := Some 7%nat |} (serving_world 14) eq_refl)
    as (_ & _ & Hex).
  destruct (Hex ready 7%nat eq_refl (or_introl ready_settled) eq_refl) as (Hshort & _).
  eexists. split; [vm_compute; reflexivity|].
  refine (proj1 (Hshort [101; 110; 95; 85; 83] [] _ _ _ _ _)).
  - repeat constructor; discriminate.
  - vm_compute. lia.
  - vm_compute; reflexivity.
Defined.

Lemma dictionary_exists_result_witness :
  provider_user_data sample_provider = Some {| spellCheckerFactory := Some 7%nat |} ∧
  ∃ w', windows_provider_dictionary_exists sample_api sample_provider en_US
          (serving_world 14) = Some (Returned (VInt 1), w') ∧
        backend w' = [ComCoCreateInstance;
                      ComIsSupported 7%nat [101; 110; 45; 85; 83; 0; 0]].
Proof.
  split; [reflexivity|].
  destruct (dictionary_exists_result sample_api sample_provider
              {| spellCheckerFactory := Some 7%nat |} (serving_world 14) eq_refl)
    as (_ & Hex).
  destruct (Hex ready 7%nat eq_refl (or_introl ready_settled) eq_refl) as (Hshort & _).
  eexists. split; [vm_compute; reflexivity|].
  refine (proj1 (Hshort [101; 110; 95; 85; 83] [] _ _ _ _ _)).
  - repeat constructor; discriminate.
  - vm_compute. lia.
  - vm_compute; reflexivity.
Defined.

Lemma user_dictionary_calls_witness :
  dict_user_data sample_dict = Some {| spellChecker := Some 9%nat |} ∧
  com_dispatcher (editing_world 14) = Some ready ∧
  usable (@ready user_world value) ∧
  ∃ w', windows_dict_store_replacement sample_api sample_user_api sample_dict
          hi 2 long_word 513 (editing_world 14) = Some (ReturnedVoid, w') ∧
        backend w' = [inl ComCoCreateInstance].
Proof.
  split; [reflexivity|]. split; [reflexivity|]. split; [left; exact ready_settled|].
  destruct (user_dictionary_calls sample_api sample_user_api sample_dict 9%nat
              (editing_world 14) ready eq_refl eq_refl (or_introl ready_settled))
    as (_ & Hrep & _).
  eexists. split; [vm_compute; reflexivity|].
  refine (proj2 (Hrep hi 2 long_word 513 _ _ _)). vm_compute; reflexivity.
Defined.

Lemma overtaken_reachable :
  reachable (overtaken tt true (answer 1) (answer 2)).
Proof.
  apply (run_reachable overtaking (two_calls tt true (answer 1) (answer 2))).
  - apply reach_submit, reach_submit, reach_new.
  - reflexivity.
Defined.

Lemma worker_never_terminated_witness :
  reachable (overtaken tt true (answer 1) (answer 2)) ∧
  dispatch_thread (overtaken tt true (answer 1) (answer 2)).2 ≠ WTerminated.
Proof.
  split; [exact overtaken_reachable|].
  exact (proj1 (worker_never_terminated _ overtaken_reachable)).
Defined.

Lemma tasks_run_at_most_once_witness :
  reachable (overtaken tt true (answer 1) (answer 2)) ∧
  NoDup (invoked (trace (overtaken tt true (answer 1) (answer 2)).2)) ∧
  invoked (trace (overtaken tt true (answer 1) (answer 2)).2) = [1%nat].
Proof.
  split; [exact overtaken_reachable|].
  split; [exact (proj1 (tasks_run_at_most_once _ overtaken_reachable))|reflexivity].
Defined.

Lemma returned_outcome_is_own_witness :
  reachable (overtaken tt true (answer 1) (answer 2)) ∧
  returned 1 (overtaken tt true (answer 1) (answer 2)) = Some (Returned 2) ∧
  1%nat ∈ invoked (trace (overtaken tt true (answer 1) (answer 2)).2).
Proof.
  split; [exact overtaken_reachable|]. split; [reflexivity|].
  destruct (returned_outcome_is_own _ 1%nat (Returned 2) overtaken_reachable eq_refl)
    as (c & _ & _ & _ & _ & _ & Hin).
  exact Hin.
Defined.

Lemma spurious_wakeup_ends_worker_witness :
  settled (@ready unit Z) ∧ dispatch_thread (@ready unit Z) = WWaiting ∧
  ∃ s1 s2 s3 : system unit Z,
    spurious_wakeup (tt, ready) = Some s1 ∧
    step Worker s1 = Some s2 ∧ step Worker s2 = Some s3 ∧
    dispatch_thread s3.2 = WTerminated.
Proof.
  split; [exact ready_settled|]. split; [reflexivity|].
  destruct (spurious_wakeup_ends_worker tt (@ready unit Z) ready_settled eq_refl)
    as (s1 & s2 & s3 & H1 & H2 & _ & H3 & H4 & _).
  exists s1, s2, s3. split; [exact H1|]. split; [exact H2|]. split; [exact H3|exact H4].
Defined.

Lemma worker_life_cycle_witness :
  reachable (overtaken tt true (answer 1) (answer 2)) ∧
  worker_life (overtaken tt true (answer 1) (answer 2)).2.
Proof.
  split; [exact overtaken_reachable|].
  exact (proj1 (worker_life_cycle _ overtaken_reachable)).
Defined.

Lemma first_call_race_witness :
  com_dispatcher (started_world 10) = Some (CoThreadDispatcher_new true) ∧
  ∃ w', dispatch (answer 42) (started_world 10) = Some (Returned 42, w') ∧
        ∃ d', com_dispatcher w' = Some d' ∧ settled d'.
Proof.
  split; [reflexivity|].
  destruct (first_call_race (answer 42) true (started_world 10) eq_refl) as [_ Hw].
  destruct (Hw (rounds 10) eq_refl ltac:(vm_compute; lia))
    as (w' & H & _ & _ & d' & Hd' & Hs' & _).
  exists w'. split; [exact H|]. exists d'. split; [exact Hd'|exact Hs'].
Defined.

Lemma calls_in_a_row_witness :
  com_dispatcher (held_world 27) = Some ready ∧ settled (@ready unit Z) ∧
  (9 * length [answer 1; answer 2; throw "x"] ≤ alternations (schedule (held_world 27)))%nat ∧
  ∃ w', dispatch_all [answer 1; answer 2; throw "x"] (held_world 27)
        = Some ([Returned 1; Returned 2; Raised "x"], w').
Proof.
  split; [reflexivity|]. split; [exact ready_settled|].
  assert (9 * length [answer 1; answer 2; throw "x"]
          ≤ alternations (schedule (held_world 27)))%nat as Hn by (vm_compute; lia).
  split; [exact Hn|].
  destruct (calls_in_a_row [answer 1; answer 2; throw "x"] (held_world 27) ready
              eq_refl ready_settled) as [Hpart Htot].
  destruct (Htot Hn) as (os & w' & H & _).
  destruct (Hpart os w' H) as (Hrun & _).
  exists w'. rewrite H. f_equal. f_equal.
  exact (f_equal snd Hrun).
Defined.

Lemma session_round_trip_witness :
  unused (client_world 49) ∧
  schedule (client_world 49) = WorkerTurn :: rounds 49 ∧
  (9 * length sample_calls + 31 ≤ alternations (rounds 49))%nat ∧
  ∃ prov os w',
    provider_session sample_api sample_calls (client_world 49)
    = Some (Some (prov, os), w') ∧
    unused w' ∧
    backend w' = [ComCoCreateInstance;
                  ComCreateSpellChecker 7%nat [101; 110; 45; 85; 83; 0; 0];
                  ComCheck 9%nat [104; 105; 0]].
Proof.
  assert (unused (client_world 49)) as Hu by (split; reflexivity).
  assert (9 * length sample_calls + 31 ≤ alternations (rounds 49))%nat as Hn
      by (vm_compute; lia).
  split; [exact Hu|]. split; [reflexivity|]. split; [exact Hn|].
  destruct (session_round_trip sample_api sample_calls (client_world 49) (rounds 49)
              Hu eq_refl Hn) as (prov & os & w' & d' & H & _ & Hrun & Hu' & _).
  exists prov, os, w'. split; [exact H|]. split; [exact Hu'|].
  exact (f_equal fst Hrun).
Defined.

Lemma count_is_outstanding_witness :
  lifecycle fresh_world_acquired ∧
  com_dispatcher_refcount fresh_world_acquired
  = Z.of_nat (addrefs fresh_world_acquired) - Z.of_nat (releases fresh_world_acquired) ∧
  com_dispatcher_refcount fresh_world_acquired = 1 ∧
  is_Some (com_dispatcher fresh_world_acquired).
Proof.
  assert (lifecycle fresh_world_acquired) as Hl.
  { apply (life_addref (fresh_world 0)).
    - apply life_start. split; [split; reflexivity|reflexivity].
    - by compute.
    - reflexivity. }
  split; [exact Hl|].
  destruct (count_is_outstanding fresh_world_acquired Hl) as (Hc & _ & Hd).
  split; [exact Hc|]. split; [reflexivity|].
  apply Hd. vm_compute. lia.
Defined.

Lemma dictionaries_hold_no_reference_witness :
  com_dispatcher_refcount host_world_inited = 1 ∧
  windows_provider_dispose sample_provider host_world_inited
  = Some (tt, host_world_disposed) ∧
  com_dispatcher host_world_disposed = None ∧
  windows_dict_check sample_api sample_dict hi 2 host_world_disposed = None.
Proof.
  assert (windows_provider_dispose sample_provider host_world_inited
          = Some (tt, host_world_disposed)) as Hdis by (vm_compute; reflexivity).
  split; [reflexivity|]. split; [exact Hdis|].
  destruct (dictionaries_hold_no_reference sample_api sample_provider sample_dict
              host_world_inited host_world_disposed eq_refl Hdis)
    as (_ & _ & _ & Hnull & Hcalls & _).
  split; [exact Hnull|]. exact (proj1 (Hcalls hi 2)).
Defined.

End MoreWitnesses.
